(** * A shallow embedding of the move tree of @jackstenglein/chess

    The TypeScript sources model a game as a graph of [Move] objects that
    point at each other ([next], [previous]) and at shared JavaScript arrays
    ([variation], [variations]).  Objects and arrays are shared, so the model
    keeps two stores: a heap of move records indexed by object identity and a
    store of arrays indexed by array identity.  The chess.js engine is an
    oracle ([engine]); the PGN parser is external and its output
    ([PgnMove]) is the input of the History constructor.

    JavaScript exceptions are modelled by a state and exception monad: a
    thrown error keeps the mutations made before it, as in JavaScript. *)

From Stdlib Require Import String ZArith List Bool Ascii.
From stdpp Require Import base gmap list strings.

Open Scope string_scope.

(* ------------------------------------------------------------------ *)
(** ** JavaScript numbers used for plies *)

(** Plies are integral JavaScript numbers, or [NaN] when the setup FEN has no
    numeric move-number field ([parseInt] fails). *)
Inductive jsnum := JNum (z : Z) | JNaN.

Definition jadd (a b : jsnum) : jsnum :=
  match a, b with JNum x, JNum y => JNum (x + y) | _, _ => JNaN end.
Definition jsub (a b : jsnum) : jsnum :=
  match a, b with JNum x, JNum y => JNum (x - y) | _, _ => JNaN end.
Definition jmul (a b : jsnum) : jsnum :=
  match a, b with JNum x, JNum y => JNum (x * y) | _, _ => JNaN end.
(** [a < b] *)
Definition jlt (a b : jsnum) : bool :=
  match a, b with JNum x, JNum y => Z.ltb x y | _, _ => false end.
(** [a === b] *)
Definition jeqb (a b : jsnum) : bool :=
  match a, b with JNum x, JNum y => Z.eqb x y | _, _ => false end.

(* ------------------------------------------------------------------ *)
(** ** String helpers of the JavaScript runtime (ASCII model) *)

(** The characters matched by [\s] and removed by [String.prototype.trim],
    restricted to ASCII. *)
Definition is_ws (c : ascii) : bool :=
  match nat_of_ascii c with
  | 9 | 10 | 11 | 12 | 13 | 32 => true
  | _ => false
  end.

(** [s.split(/\s+/)] *)
Fixpoint split_ws_aux (s : string) (cur : string) (prev_ws : bool)
  : list string :=
  match s with
  | EmptyString => [cur]
  | String c rest =>
      if is_ws c then
        if prev_ws then split_ws_aux rest cur true
        else cur :: split_ws_aux rest "" true
      else split_ws_aux rest (cur ++ String c "") false
  end.
Definition split_ws (s : string) : list string := split_ws_aux s "" false.

(** [s.split(' ')] *)
Fixpoint split_sp_aux (s : string) (cur : string) : list string :=
  match s with
  | EmptyString => [cur]
  | String c rest =>
      if Ascii.eqb c " "%char then cur :: split_sp_aux rest ""
      else split_sp_aux rest (cur ++ String c "")
  end.
Definition split_sp (s : string) : list string := split_sp_aux s "".

(** [tokens.join(sep)] *)
Fixpoint join (sep : string) (l : list string) : string :=
  match l with
  | [] => ""
  | [x] => x
  | x :: rest => x ++ sep ++ join sep rest
  end.

(** [s.trimStart()] and [s.trimEnd()] *)
Fixpoint trim_start (s : string) : string :=
  match s with
  | EmptyString => EmptyString
  | String c rest => if is_ws c then trim_start rest else s
  end.
Fixpoint rev_str (s : string) (acc : string) : string :=
  match s with
  | EmptyString => acc
  | String c rest => rev_str rest (String c acc)
  end.
Definition trim_end (s : string) : string :=
  rev_str (trim_start (rev_str s "")) "".
(** [s.trim()] *)
Definition trim (s : string) : string := trim_start (trim_end s).

(** [arr[i] = v] on an array of strings: JavaScript extends the array, and
    the holes it leaves print as empty strings in [join]. *)
Fixpoint set_nth_js (l : list string) (i : nat) (v : string) : list string :=
  match l, i with
  | [], 0 => [v]
  | [], S j => "" :: set_nth_js [] j v
  | _ :: rest, 0 => v :: rest
  | x :: rest, S j => x :: set_nth_js rest j v
  end.

(** [parseInt(s)] (radix omitted): leading white space, an optional sign,
    a [0x] prefix for hexadecimal, then the longest digit prefix. *)
Definition digit_val (c : ascii) : option Z :=
  let n := nat_of_ascii c in
  if (48 <=? n)%nat && (n <=? 57)%nat then Some (Z.of_nat (n - 48))
  else if (97 <=? n)%nat && (n <=? 102)%nat then Some (Z.of_nat (n - 87))
  else if (65 <=? n)%nat && (n <=? 70)%nat then Some (Z.of_nat (n - 55))
  else None.
Fixpoint digits (radix : Z) (s : string) (acc : Z) (seen : bool)
  : option Z :=
  match s with
  | String c rest =>
      match digit_val c with
      | Some d => if Z.ltb d radix then digits radix rest (acc * radix + d)%Z true
                  else if seen then Some acc else None
      | None => if seen then Some acc else None
      end
  | EmptyString => if seen then Some acc else None
  end.
Definition parse_unsigned (s : string) : option Z :=
  match s with
  | String "0" (String x rest) =>
      if Ascii.eqb x "x"%char || Ascii.eqb x "X"%char
      then digits 16%Z rest 0%Z false else digits 10%Z s 0%Z false
  | _ => digits 10%Z s 0%Z false
  end.
Definition parseInt (s : option string) : jsnum :=
  match s with
  | None => JNaN
  | Some s =>
      let t := trim_start s in
      let r := match t with
               | String "-" rest => option_map Z.opp (parse_unsigned rest)
               | String "+" rest => parse_unsigned rest
               | _ => parse_unsigned t
               end in
      match r with Some z => JNum z | None => JNaN end
  end.

(* ------------------------------------------------------------------ *)
(** ** The chess.js oracle *)

(** A candidate move: a SAN string or a [{from, to, promotion}] object. *)
Inductive candidate :=
  | CSan (san : string)
  | CObj (from to : string) (promotion : option string).

(** A chess.js board square entry. *)
Record piece := mkPiece { pc_type : string; pc_color : string; pc_square : string }.

(** The fields of a chess.js [Move] kept by [PickChessJsMove]. *)
Record jsmove := mkJsMove {
  jm_color : string; jm_from : string; jm_to : string; jm_piece : string;
  jm_captured : option string; jm_promotion : option string;
  jm_san : string; jm_lan : string; jm_before : string; jm_after : string }.

(** Results of code that may throw. *)
Inductive res (A : Type) := Ok (a : A) | Throw (msg : string).
Arguments Ok {A} a.
Arguments Throw {A} msg.

(** A chess.js instance is a position, named by the FEN it was loaded
    from; the engine answers for each position. *)
Record engine := mkEngine {
  e_valid : string -> bool;                  (** [load(fen)] accepts it *)
  e_fen : string -> string;                  (** [chess.fen()] *)
  e_move : string -> candidate -> bool -> res (option jsmove);
                                             (** [chess.move(c, {strict})] *)
  e_turn : string -> string;                 (** [chess.turn()] *)
  e_isCheck : string -> bool;
  e_isGameOver : string -> bool;
  e_board : string -> list (list (option piece));  (** [chess.board()] *)
  e_get : string -> string -> option piece   (** [chess.get(square)] *)
}.

Definition FEN_start :=
  "rnbqkbnr/pppppppp/8/8/8/8/PPPPPPPP/RNBQKBNR w KQkq - 0 1".
Definition nullMoveNotation := "Z0".
Definition KING := "k".

(* ------------------------------------------------------------------ *)
(** ** Moves, the shared stores and the facade state *)

(** A [Move] of History.ts: the chess.js move object extended in place by
    [getMove].  Pointers are object identities ([nat]); [mv_variation] is the
    identity of a shared array, [None] while the field is still unset (a
    detached move returned by [validateMove]).  The annotation fields copied
    verbatim from the parser (comments, NAGs, diagrams) are not modelled. *)
Record Move := mkMove {
  mv_js : jsmove;
  mv_next : option nat;
  mv_ply : jsnum;
  mv_previous : option nat;
  mv_variation : option nat;
  mv_variations : list nat;
  mv_fen : string;
  mv_uci : string;
  mv_isNullMove : bool }.

Definition set_next (m : Move) (n : option nat) : Move :=
  mkMove (mv_js m) n (mv_ply m) (mv_previous m) (mv_variation m)
    (mv_variations m) (mv_fen m) (mv_uci m) (mv_isNullMove m).
Definition set_previous (m : Move) (p : option nat) : Move :=
  mkMove (mv_js m) (mv_next m) (mv_ply m) p (mv_variation m)
    (mv_variations m) (mv_fen m) (mv_uci m) (mv_isNullMove m).
Definition set_variation (m : Move) (v : option nat) : Move :=
  mkMove (mv_js m) (mv_next m) (mv_ply m) (mv_previous m) v
    (mv_variations m) (mv_fen m) (mv_uci m) (mv_isNullMove m).
Definition set_variations (m : Move) (vs : list nat) : Move :=
  mkMove (mv_js m) (mv_next m) (mv_ply m) (mv_previous m) (mv_variation m)
    vs (mv_fen m) (mv_uci m) (mv_isNullMove m).

Inductive EventType :=
  | Initialized | LegalMove | NewVariation | IllegalMove | DeleteMove
  | PromoteVariation.

(** An event handed to [publishEvent]; observers are modelled by the log
    of published events (their handlers return normally). *)
Record event := mkEvent {
  ev_type : EventType; ev_move : option nat; ev_previousMove : option nat }.

(** The state: the heap of moves, the store of arrays, [History.moves] (an
    array identity), the facade's [_currentMove], the event log, the next
    free identity, the History's setup FEN and ply, the facade's chess.js
    position, its [disableNullMoves] prop, and the value of the facade's
    [setUpFen()], which reads the header's [SetUp] and [FEN] tags. *)
Record St := mkSt {
  st_heap : gmap nat Move;
  st_arrs : gmap nat (list nat);
  st_moves : nat;
  st_cur : option nat;
  st_events : list event;
  st_fresh : nat;
  st_setUpFen : string;
  st_setUpPly : jsnum;
  st_board : string;
  st_disableNullMoves : bool;
  st_headerFen : string }.

Definition with_heap (s : St) h :=
  mkSt h (st_arrs s) (st_moves s) (st_cur s) (st_events s) (st_fresh s)
    (st_setUpFen s) (st_setUpPly s) (st_board s) (st_disableNullMoves s) (st_headerFen s).
Definition with_arrs (s : St) a :=
  mkSt (st_heap s) a (st_moves s) (st_cur s) (st_events s) (st_fresh s)
    (st_setUpFen s) (st_setUpPly s) (st_board s) (st_disableNullMoves s) (st_headerFen s).
Definition with_moves (s : St) mv :=
  mkSt (st_heap s) (st_arrs s) mv (st_cur s) (st_events s) (st_fresh s)
    (st_setUpFen s) (st_setUpPly s) (st_board s) (st_disableNullMoves s) (st_headerFen s).
Definition with_cur (s : St) c :=
  mkSt (st_heap s) (st_arrs s) (st_moves s) c (st_events s) (st_fresh s)
    (st_setUpFen s) (st_setUpPly s) (st_board s) (st_disableNullMoves s) (st_headerFen s).
Definition with_events (s : St) e :=
  mkSt (st_heap s) (st_arrs s) (st_moves s) (st_cur s) e (st_fresh s)
    (st_setUpFen s) (st_setUpPly s) (st_board s) (st_disableNullMoves s) (st_headerFen s).
Definition with_fresh (s : St) n :=
  mkSt (st_heap s) (st_arrs s) (st_moves s) (st_cur s) (st_events s) n
    (st_setUpFen s) (st_setUpPly s) (st_board s) (st_disableNullMoves s) (st_headerFen s).
Definition with_board (s : St) b :=
  mkSt (st_heap s) (st_arrs s) (st_moves s) (st_cur s) (st_events s)
    (st_fresh s) (st_setUpFen s) (st_setUpPly s) b (st_disableNullMoves s) (st_headerFen s).

(* ------------------------------------------------------------------ *)
(** ** A state and exception monad *)

(** [MS S A] runs with a state [S]; [M] is the one over the program state,
    and [History.traverse] runs over [St] extended with its local variables. *)
Definition MS (S A : Type) := S -> res A * S.
Definition M (A : Type) := MS St A.

Definition ret {S A} (a : A) : MS S A := fun s => (Ok a, s).
Definition bind {S A B} (m : MS S A) (k : A -> MS S B) : MS S B :=
  fun s => match m s with
           | (Ok a, s') => k a s'
           | (Throw e, s') => (Throw e, s')
           end.
Definition throw {S A} (msg : string) : MS S A := fun s => (Throw msg, s).
(** [try { m } catch (e) { h(e) }] *)
Definition try_catch {S A} (m : MS S A) (h : string -> MS S A) : MS S A :=
  fun s => match m s with
           | (Throw e, s') => h e s'
           | r => r
           end.
Definition get : M St := fun s => (Ok s, s).
Definition modify (f : St -> St) : M unit := fun s => (Ok tt, f s).
Definition lift {S A} (r : res A) : MS S A :=
  fun s => match r with Ok a => (Ok a, s) | Throw e => (Throw e, s) end.

Notation "'let*' x ':=' m 'in' k" := (bind m (fun x => k))
  (at level 200, x name, m at level 100, k at level 200).
Notation "'let*' ' p ':=' m 'in' k" := (bind m (fun x => match x with p => k end))
  (at level 200, p pattern, m at level 100, k at level 200).

(** Reading a property of [undefined] throws a [TypeError]. *)
Definition TypeError := "TypeError".

Definition get_mv (id : nat) : M Move :=
  fun s => match st_heap s !! id with
           | Some m => (Ok m, s)
           | None => (Throw TypeError, s)
           end.
Definition put_mv (id : nat) (m : Move) : M unit :=
  modify (fun s => with_heap s (<[id := m]> (st_heap s))).
Definition upd_mv (id : nat) (f : Move -> Move) : M unit :=
  let* m := get_mv id in put_mv id (f m).
Definition new_mv (m : Move) : M nat :=
  fun s => let id := st_fresh s in
           (Ok id, with_fresh (with_heap s (<[id := m]> (st_heap s))) (S id)).

Definition get_arr (a : nat) : M (list nat) :=
  fun s => match st_arrs s !! a with
           | Some l => (Ok l, s)
           | None => (Throw TypeError, s)
           end.
Definition put_arr (a : nat) (l : list nat) : M unit :=
  modify (fun s => with_arrs s (<[a := l]> (st_arrs s))).
Definition new_arr (l : list nat) : M nat :=
  fun s => let a := st_fresh s in
           (Ok a, with_fresh (with_arrs s (<[a := l]> (st_arrs s))) (S a)).
(** [arr.push(...xs)] *)
Definition push_arr (a : nat) (xs : list nat) : M unit :=
  let* l := get_arr a in put_arr a (l ++ xs).
(** [arr[0]], [undefined] on an empty array *)
Definition arr_first (a : nat) : M (option nat) :=
  let* l := get_arr a in ret (head l).
(** The field read [x.variation] where [x] may be [undefined]. *)
Definition variation_of (x : option nat) : M (option nat) :=
  match x with
  | None => throw TypeError
  | Some id => let* m := get_mv id in ret (mv_variation m)
  end.
(** An array-valued expression that may be [undefined]. *)
Definition deref_arr (a : option nat) : M (list nat) :=
  match a with None => throw TypeError | Some a => get_arr a end.

Definition publishEvent (e : event) : M unit :=
  modify (fun s => with_events s (st_events s ++ [e])).

(** [arr.findIndex(p)] *)
Fixpoint findIndex {A} (p : A -> bool) (l : list A) : Z :=
  match l with
  | [] => (-1)%Z
  | x :: rest => if p x then 0%Z
                 else match findIndex p rest with
                      | (-1)%Z => (-1)%Z
                      | i => (i + 1)%Z
                      end
  end.

(** The start index of [arr.splice(start)] *)
Definition splice_start (len : nat) (start : Z) : nat :=
  if Z.ltb start 0 then Z.to_nat (Z.max (Z.of_nat len + start) 0)
  else Nat.min (Z.to_nat start) len.
(** [arr.splice(start)]: keeps the prefix in place, returns the rest. *)
Definition splice (a : nat) (start : Z) : M (list nat) :=
  let* l := get_arr a in
  let k := splice_start (List.length l) start in
  let* _ := put_arr a (firstn k l) in
  ret (skipn k l).

Definition opt_eqb (x y : option nat) : bool :=
  match x, y with
  | Some a, Some b => Nat.eqb a b
  | None, None => true
  | _, _ => false
  end.

(** [arr.findIndex(p)] with a predicate that reads the stores. *)
Fixpoint findIndexM (p : nat -> M bool) (l : list nat) : M Z :=
  match l with
  | [] => ret (-1)%Z
  | x :: rest =>
      let* b := p x in
      if b then ret 0%Z
      else let* i := findIndexM p rest in
           ret (if Z.eqb i (-1) then (-1)%Z else (i + 1)%Z)
  end.

(** [for (const x of xs) body(x)] *)
Fixpoint for_each {S A} (body : A -> MS S unit) (xs : list A) : MS S unit :=
  match xs with
  | [] => ret tt
  | x :: rest => let* _ := body x in for_each body rest
  end.

(** [arr.filter(v => v.length > 0)] on an array of arrays. *)
Fixpoint filter_nonempty (vs : list nat) : M (list nat) :=
  match vs with
  | [] => ret []
  | v :: rest =>
      let* l := get_arr v in
      let* r := filter_nonempty rest in
      ret (match l with [] => r | _ => v :: r end)
  end.

(** The output of the PGN parser: a move with its notation and its parsed
    variations (each a list of moves). *)
#[warnings="-register-all"]
Inductive PgnMove := mkPgnMove (pm_notation : string) (pm_variations : list (list PgnMove)).
Definition pm_notation (pm : PgnMove) := let (n, _) := pm in n.
Definition pm_variations (pm : PgnMove) := let (_, v) := pm in v.

(** [TraverseStackItem] *)
Record Frame := mkFrame {
  fr_pgnMoves : list PgnMove; fr_fen : string; fr_parent : option nat;
  fr_mainVariant : option nat; fr_ply : jsnum }.

(** [MovesOptions] as read by [getNullMove]. *)
Record MovesOptions := mkOpts {
  opt_disableNullMoves : bool; opt_piece : option string; opt_square : option string }.
Definition noOptions := mkOpts false None None.

(* ------------------------------------------------------------------ *)
(** ** History.ts *)

(** [switchTurn(fen)] *)
Definition switchTurn (fen : string) : res string :=
  let tokens := split_ws fen in
  if (List.length tokens <? 2)%nat then Throw ("FEN " ++ fen ++ " is invalid")
  else
    let t1 := match nth_error tokens 1 with
              | Some t => if String.eqb t "w" then "b" else "w"
              | None => "w"
              end in
    Ok (join " " (set_nth_js (set_nth_js tokens 1 t1) 3 "-")).

(** The outcome of the king scan in [getNullMove]. *)
Inductive scan_result :=
  | ScanFound (from to : string)   (** both kings found *)
  | ScanReject                     (** [options.square] does not match *)
  | ScanEnd.                       (** the board has ended *)

Fixpoint scan_kings (color : string) (square : option string)
    (sqs : list (option piece)) (from to : option string) : scan_result :=
  match sqs with
  | [] => ScanEnd
  | None :: rest => scan_kings color square rest from to
  | Some p :: rest =>
      if String.eqb (pc_type p) KING then
        if String.eqb (pc_color p) color then
          match square with
          | Some sq => if String.eqb (pc_square p) sq then
                         match to with
                         | Some t => ScanFound (pc_square p) t
                         | None => scan_kings color square rest (Some (pc_square p)) to
                         end
                       else ScanReject
          | None => match to with
                    | Some t => ScanFound (pc_square p) t
                    | None => scan_kings color square rest (Some (pc_square p)) to
                    end
          end
        else match from with
             | Some f => ScanFound f (pc_square p)
             | None => scan_kings color square rest from (Some (pc_square p))
             end
      else scan_kings color square rest from to
  end.

Section History.
Context (E : engine).

(** [new Chess(fen)] / [chess.load(fen)]: the position, or a thrown error. *)
Definition chess_load {S} (fen : string) : MS S string :=
  if e_valid E fen then ret fen else throw ("Invalid FEN: " ++ fen).

(** [getNullMove(chess, options)] on the position [pos]; on success the
    instance is left at the returned [after] position. *)
Definition getNullMove (pos : string) (options : MovesOptions) : res (option jsmove) :=
  if opt_disableNullMoves options
     || match opt_piece options with Some p => negb (String.eqb p KING) | None => false end
  then Ok None
  else if e_isCheck E pos || e_isGameOver E pos then Ok None
  else
    let before := e_fen E pos in
    let color := e_turn E pos in
    match switchTurn before with
    | Throw e => Throw e
    | Ok after =>
        match scan_kings color (opt_square options) (concat (e_board E pos)) None None with
        | ScanReject => Ok None
        | ScanEnd => Throw ("Invalid FEN for null move: " ++ before)
        | ScanFound from to =>
            if e_valid E after
            then Ok (Some (mkJsMove color from to KING None None "Z0" "Z0" before after))
            else Throw ("Invalid FEN: " ++ after)
        end
    end.

(** [isNullMove(candidate, chess)] *)
Definition isNullMove (c : candidate) (pos : string) : bool :=
  match c with
  | CSan s => String.eqb s nullMoveNotation
  | CObj from to _ =>
      match e_get E pos from with
      | Some p =>
          if String.eqb (pc_type p) KING && String.eqb (pc_color p) (e_turn E pos) then
            match e_get E pos to with
            | Some q => String.eqb (pc_type q) KING && negb (String.eqb (pc_color q) (e_turn E pos))
            | None => false
            end
          else false
      | None => false
      end
  end.

End History.

(** [getMove(ply, pgnMove, chessJsMove)] *)
Definition getMove (ply : jsnum) (jm : jsmove) : Move :=
  mkMove jm None ply None None [] (jm_after jm)
    (jm_from jm ++ jm_to jm ++ match jm_promotion jm with Some p => p | None => "" end)
    (String.eqb (jm_san jm) nullMoveNotation).

(** The state of [History.traverse]: the program state, its local [stack]
    (top first) and its local [moves] array. *)
Definition TS := (St * list Frame * nat)%type.

(** A step on the program state inside [traverse]. *)
Definition hist {A} (m : M A) : MS TS A :=
  fun '(s, stk, mv) => let '(r, s') := m s in (r, (s', stk, mv)).
Definition push_frame (f : Frame) : MS TS unit :=
  fun '(s, stk, mv) => (Ok tt, (s, f :: stk, mv)).
Definition pop_frame : MS TS (option Frame) :=
  fun '(s, stk, mv) =>
    match stk with
    | [] => (Ok None, (s, [], mv))
    | f :: rest => (Ok (Some f), (s, rest, mv))
    end.
Definition set_local_moves (a : nat) : MS TS unit :=
  fun '(s, stk, _) => (Ok tt, (s, stk, a)).

(** The number of stack frames [traverse] processes for a move list: one for
    the list and one for each parsed variation inside it. *)
Fixpoint pm_frames (pm : PgnMove) : nat :=
  match pm with
  | mkPgnMove _ vs =>
      (fix go_vs (vs : list (list PgnMove)) : nat :=
         match vs with
         | [] => 0
         | v :: vs' =>
             S ((fix go (l : list PgnMove) : nat :=
                   match l with [] => 0 | x :: l' => pm_frames x + go l' end) v)
             + go_vs vs'
         end) vs
  end.
Definition frames_of (l : list PgnMove) : nat := S (fold_right (fun x n => pm_frames x + n) 0 l).

Section History_ops.
Context (E : engine).

(** The first statements of [History.validateMove], before its [try]:
    [new Chess()] and the [load] of the previous move's FEN or of the
    setup FEN. *)
Definition vm_load (previous : option nat) : M string :=
  match previous with
  | Some p => let* pm := get_mv p in chess_load E (mv_fen pm)
  | None => let* s := get in
            if String.eqb (st_setUpFen s) "" then ret FEN_start
            else chess_load E (st_setUpFen s)
  end.

(** [History.validateMove(notation, {previous, disableNullMoves, strict})] *)
Definition validateMove (c : candidate) (previous : option nat)
    (disableNullMoves strict : bool) : M (option Move) :=
  let* pos := vm_load previous in
  try_catch
    (let* r := lift (if isNullMove E c pos
                     then getNullMove E pos (mkOpts disableNullMoves None None)
                     else e_move E pos c strict) in
     match r with
     | Some jm =>
         let* ply := match previous with
                     | Some p => let* pm := get_mv p in ret (jadd (mv_ply pm) (JNum 1))
                     | None => let* s := get in ret (st_setUpPly s)
                     end in
         ret (Some (getMove ply jm))
     | None => ret None
     end)
    (fun _ => ret None).

(** [History.addMove(notation, {previous, disableNullMoves, strict})]: the
    identity of the added move. *)
Definition addMove (c : candidate) (previous : option nat)
    (disableNullMoves strict : bool) : M nat :=
  let* r := validateMove c previous disableNullMoves strict in
  match r with
  | None => throw "Invalid move"
  | Some mv =>
      let* id := new_mv (set_previous mv previous) in
      match previous with
      | Some p =>
          let* pm := get_mv p in
          match mv_next pm with
          | Some nx =>
              let* a := new_arr [] in
              let* _ := upd_mv nx (fun x => set_variations x (mv_variations x ++ [a])) in
              let* _ := upd_mv id (fun x => set_variation x (Some a)) in
              let* _ := push_arr a [id] in
              ret id
          | None =>
              let* _ := put_mv p (set_next pm (Some id)) in
              let* _ := upd_mv id (fun x => set_variation x (mv_variation pm)) in
              let* _ := match mv_variation pm with
                        | Some a => push_arr a [id]
                        | None => throw TypeError
                        end in
              ret id
          end
      | None =>
          let* s := get in
          let* l := get_arr (st_moves s) in
          match l with
          | m0 :: _ =>
              let* a := new_arr [] in
              let* _ := upd_mv m0 (fun x => set_variations x (mv_variations x ++ [a])) in
              let* _ := upd_mv id (fun x => set_variation x (Some a)) in
              let* _ := push_arr a [id] in
              ret id
          | [] =>
              let* _ := upd_mv id (fun x => set_variation x (Some (st_moves s))) in
              let* _ := push_arr (st_moves s) [id] in
              ret id
          end
      end
  end.

(** The [for (const pgnMove of pgnMoves)] loop of [traverse]: [fen] is the
    frame's FEN, [varr] its [variation] array, [pos] the position of the
    local chess.js instance, [prev] is [previousMove]. *)
Fixpoint trav_moves (strict : bool) (fen : string) (varr : nat) (pos : string)
    (prev : option nat) (ply : jsnum) (pms : list PgnMove) : MS TS unit :=
  match pms with
  | [] => ret tt
  | pm :: rest =>
      let notation := pm_notation pm in
      let* r := lift (if String.eqb notation nullMoveNotation
                      then getNullMove E pos noOptions
                      else e_move E pos (CSan notation) strict) in
      match r with
      | None => throw ("Invalid move " ++ notation ++ " at position " ++ e_fen E pos)
      | Some jm =>
          let* id := hist (new_mv (getMove ply jm)) in
          let* _ := hist (match prev with
                          | Some p =>
                              let* _ := upd_mv id (fun x => set_previous x (Some p)) in
                              let* pmv := get_mv p in
                              match mv_next pmv with
                              | None => put_mv p (set_next pmv (Some id))
                              | Some _ => ret tt
                              end
                          | None => ret tt
                          end) in
          let* _ := match pm_variations pm with
                    | [] => ret tt
                    | pvs =>
                        let* lastFen := hist (let* l := get_arr varr in
                                              match last l with
                                              | Some x => let* xm := get_mv x in ret (mv_fen xm)
                                              | None => ret fen
                                              end) in
                        for_each (fun pv => push_frame (mkFrame pv lastFen prev (Some id) ply)) pvs
                    end in
          let* _ := hist (upd_mv id (fun x => set_variation x (Some varr))) in
          let* _ := hist (push_arr varr [id]) in
          trav_moves strict fen varr (jm_after jm) (Some id) (jadd ply (JNum 1)) rest
      end
  end.

(** The body of the [try] block of [traverse] for one popped frame. *)
Definition trav_frame (strict : bool) (fr : Frame) : MS TS unit :=
  let* varr := hist (new_arr []) in
  let* _ := trav_moves strict (fr_fen fr) varr (fr_fen fr) (fr_parent fr)
              (fr_ply fr) (fr_pgnMoves fr) in
  match fr_mainVariant fr with
  | Some mv => hist (upd_mv mv (fun x => set_variations x (varr :: mv_variations x)))
  | None => set_local_moves varr
  end.

(** [while (stack.length > 0) { try { ... } catch (err) { console.error(err) } }],
    run for at most [fuel] iterations. *)
Fixpoint trav_loop (strict : bool) (fuel : nat) : MS TS unit :=
  match fuel with
  | 0 => ret tt
  | S n =>
      fun ts =>
        match ts with
        | (_, [], _) => (Ok tt, ts)
        | _ =>
            (let* _ := try_catch
                         (let* fo := pop_frame in
                          match fo with
                          | Some fr => trav_frame strict fr
                          | None => ret tt
                          end)
                         (fun _ => ret tt) in
             trav_loop strict n) ts
        end
  end.

(** [History.traverse(props, strict)]: the identity of the returned array. *)
Definition traverse (props : Frame) (strict : bool) : M nat :=
  let* moves := new_arr [] in
  let* _ := chess_load E (fr_fen props) in
  fun s =>
    let '(r, (s', _, mv)) := trav_loop strict (frames_of (fr_pgnMoves props)) (s, [props], moves) in
    match r with
    | Ok _ => (Ok mv, s')
    | Throw e => (Throw e, s')
    end.

(** [new History(moves, setUpFen, strict)] on the program state. *)
Definition history_new (moves : list PgnMove) (setUpFen : string) (strict : bool) : M unit :=
  let* a0 := new_arr [] in
  let tokens := split_ws setUpFen in
  let colorToPlay := nth_error tokens 1 in
  let moveNumber := parseInt (nth_error tokens 5) in
  let ply0 := jmul (JNum 2) moveNumber in
  let setUpPly := match colorToPlay with
                  | Some c => if String.eqb c "w" then jsub ply0 (JNum 1) else ply0
                  | None => ply0
                  end in
  let* _ := modify (fun s => mkSt (st_heap s) (st_arrs s) a0 (st_cur s) (st_events s)
                               (st_fresh s) setUpFen setUpPly (st_board s)
                               (st_disableNullMoves s) (st_headerFen s)) in
  match moves with
  | [] => let* a := new_arr [] in modify (fun s => with_moves s a)
  | _ => let* a := traverse (mkFrame moves setUpFen None None setUpPly) strict in
         modify (fun s => with_moves s a)
  end.

End History_ops.

(* ------------------------------------------------------------------ *)
(** ** Chess.ts: the facade *)

(** An optional parameter [move = this._currentMove]: [Undef] when the
    argument is [undefined] (the default applies), [Arg m] otherwise. *)
Inductive jsarg := Undef | Arg (m : option nat).

Definition arg_or_current (a : jsarg) : M (option nat) :=
  match a with
  | Undef => let* s := get in ret (st_cur s)
  | Arg m => ret m
  end.

(** [firstMove()] *)
Definition firstMove : M (option nat) :=
  let* s := get in let* l := get_arr (st_moves s) in ret (head l).

(** [nextMove(move)] with the argument resolved. *)
Definition nextMove (m : option nat) : M (option nat) :=
  match m with
  | None => firstMove
  | Some id => let* mm := get_mv id in ret (mv_next mm)
  end.

Definition opt_str_eqb (x y : option string) : bool :=
  match x, y with
  | Some a, Some b => String.eqb a b
  | None, None => true
  | _, _ => false
  end.

(** [candidateMatches(candidate, move)] *)
Definition candidateMatches (c : candidate) (m : option nat) : M bool :=
  match m with
  | None => ret false
  | Some id =>
      let* mm := get_mv id in
      ret (match c with
           | CSan s => String.eqb (jm_san (mv_js mm)) s
           | CObj f t p => String.eqb (jm_from (mv_js mm)) f && String.eqb (jm_to (mv_js mm)) t
                           && opt_str_eqb (jm_promotion (mv_js mm)) p
           end)
  end.

Fixpoint find_variation (c : candidate) (vs : list nat) : M (option nat) :=
  match vs with
  | [] => ret None
  | v :: rest =>
      let* l := get_arr v in
      match l with
      | [] => find_variation c rest
      | x :: _ => let* b := candidateMatches c (Some x) in
                  if b then ret (Some x) else find_variation c rest
      end
  end.

(** [getVariation(candidate, move)] with the argument resolved. *)
Definition getVariation (c : candidate) (m : option nat) : M (option nat) :=
  let* nx := nextMove m in
  match nx with
  | None => ret None
  | Some n => let* nm := get_mv n in find_variation c (mv_variations nm)
  end.

(** [isInMainline(move)] with the argument resolved. *)
Definition isInMainline (m : option nat) : M bool :=
  match m with
  | None => ret true
  | Some id => let* mm := get_mv id in let* s := get in
               ret (opt_eqb (mv_variation mm) (Some (st_moves s)))
  end.

(** [isInMainline(arr[0])]: an empty array passes [undefined], so the
    default parameter (the current move) is used. *)
Definition isInMainline_first (a : nat) : M bool :=
  let* l := get_arr a in
  match head l with
  | Some x => isInMainline (Some x)
  | None => let* s := get in isInMainline (st_cur s)
  end.

(** The [do { ... } while (moveRoot && !this.isInMainline(moveRoot[0]))]
    loop of [isDescendant], run for at most [fuel] iterations. *)
Fixpoint desc_loop (fuel : nat) (parentRoot moveRoot : option nat) : M bool :=
  match fuel with
  | 0 => ret false
  | S f =>
      if opt_eqb moveRoot parentRoot then ret true
      else
        let* l := deref_arr moveRoot in
        let* next := match head l with
                     | None => throw TypeError
                     | Some x => let* xm := get_mv x in
                                 match mv_previous xm with
                                 | None => ret None
                                 | Some p => variation_of (Some p)
                                 end
                     end in
        match next with
        | None => ret false
        | Some a => let* im := isInMainline_first a in
                    if im then ret false else desc_loop f parentRoot next
        end
  end.

(** [isDescendant(parent, move)] *)
Definition isDescendant (parent : nat) (a : jsarg) : M bool :=
  let* mo := arg_or_current a in
  match mo with
  | None => ret false
  | Some mid =>
      if Nat.eqb parent mid then ret true
      else
        let* m := get_mv mid in
        let* pm := get_mv parent in
        if jlt (mv_ply m) (mv_ply pm) then ret false
        else
          let* b1 := isInMainline (Some parent) in
          if b1 then ret true
          else
            let* b2 := isInMainline (Some mid) in
            if b2 then ret false
            else let* s := get in
                 desc_loop (S (size (st_heap s))) (mv_variation pm) (mv_variation m)
  end.

Section Facade.
Context (E : engine).

(** [seek(move)] *)
Definition seek (m : option nat) : M (option nat) :=
  let* pos := match m with
              | Some id => let* mm := get_mv id in chess_load E (mv_fen mm)
              | None => let* s := get in chess_load E (st_headerFen s)
              end in
  let* _ := modify (fun s => with_board s pos) in
  let* s := get in
  let* _ := publishEvent (mkEvent LegalMove m (st_cur s)) in
  let* _ := modify (fun s => with_cur s m) in
  ret m.

(** [Chess.move(candidate, {previousMove, strict, existingOnly, skipSeek,
    disableNullMoves})]; [dnm = None] is an omitted [disableNullMoves]. *)
Definition chess_move (c : candidate) (previousArg : jsarg)
    (strict existingOnly skipSeek : bool) (dnm : option bool) : M (option nat) :=
  let* previousMove := arg_or_current previousArg in
  let* disableNullMoves := match dnm with
                           | Some b => ret b
                           | None => let* s := get in ret (st_disableNullMoves s)
                           end in
  let* nx := nextMove previousMove in
  let* matches := candidateMatches c nx in
  if matches then
    if skipSeek then ret nx
    else let* _ := publishEvent (mkEvent LegalMove nx previousMove) in seek nx
  else
    let* existing := getVariation c previousMove in
    match existing with
    | Some v =>
        if skipSeek then ret (Some v)
        else let* _ := publishEvent (mkEvent LegalMove (Some v) previousMove) in
             seek (Some v)
    | None =>
        if existingOnly then ret None
        else
          try_catch
            (let* r := addMove E c previousMove disableNullMoves strict in
             if skipSeek then ret (Some r)
             else let* _ := publishEvent (mkEvent NewVariation (Some r) previousMove) in
                  seek (Some r))
            (fun _ => let* _ := publishEvent (mkEvent IllegalMove None previousMove) in
                      ret None)
    end.

(** [Chess.validateMove(candidate, {previousMove, disableNullMoves, strict})] *)
Definition chess_validateMove (c : candidate) (previousArg : jsarg)
    (dnm : option bool) (strict : bool) : M (option Move) :=
  let* previousMove := arg_or_current previousArg in
  let* disableNullMoves := match dnm with
                           | Some b => ret b
                           | None => let* s := get in ret (st_disableNullMoves s)
                           end in
  validateMove E c previousMove disableNullMoves strict.

(** [Chess.delete(move)] *)
Definition chess_delete (a : jsarg) : M unit :=
  let* mo := arg_or_current a in
  match mo with
  | None => ret tt
  | Some mid =>
      let* m := get_mv mid in
      let* varr := lift (match mv_variation m with Some v => Ok v | None => Throw TypeError end) in
      let* l := get_arr varr in
      let* index := findIndexM (fun e => let* em := get_mv e in
                                         ret (jeqb (mv_ply em) (mv_ply m))) l in
      let* _ := splice varr index in
      let* mainlineMove := match mv_previous m with
                           | Some p => let* pm := get_mv p in ret (mv_next pm)
                           | None => firstMove
                           end in
      let* _ :=
        if opt_eqb mainlineMove (Some mid) then
          match mv_previous m with
          | Some p =>
              let* _ := upd_mv p (fun x => set_next x None) in
              match mv_variations m with
              | [] => ret tt
              | v0 :: vrest =>
                  let* r := arr_first v0 in
                  let* _ := upd_mv p (fun x => set_next x r) in
                  let* pm := get_mv p in
                  let* target := deref_arr (mv_variation pm) in
                  let* rvar := variation_of r in
                  let* rl := deref_arr rvar in
                  let* _ := match mv_variation pm with
                            | Some pv => put_arr pv (target ++ rl)
                            | None => throw TypeError
                            end in
                  let* rid := lift (match r with Some x => Ok x | None => Throw TypeError end) in
                  let* _ := upd_mv rid (fun x => set_variation x (mv_variation pm)) in
                  upd_mv rid (fun x => set_variations x vrest)
              end
          | None =>
              match mv_variations m with
              | [] => ret tt
              | v0 :: vrest =>
                  let* r := arr_first v0 in
                  let* rvar := variation_of r in
                  let* _ := match rvar with
                            | Some a => modify (fun s => with_moves s a)
                            | None => throw TypeError
                            end in
                  let* rid := lift (match r with Some x => Ok x | None => Throw TypeError end) in
                  upd_mv rid (fun x => set_variations x vrest)
              end
          end
        else if Z.eqb index 0 then
          match mainlineMove with
          | Some mm => let* mmv := get_mv mm in
                       let* vs := filter_nonempty (mv_variations mmv) in
                       upd_mv mm (fun x => set_variations x vs)
          | None => ret tt
          end
        else ret tt in
      let* d := isDescendant mid Undef in
      let* _ := if d then let* _ := seek (mv_previous m) in ret tt else ret tt in
      publishEvent (mkEvent DeleteMove (Some mid) (mv_previous m))
  end.

End Facade.

(** [getVariantParent(move)] *)
Definition getVariantParent (a : jsarg) : M (option nat) :=
  let* mo := arg_or_current a in
  match mo with
  | None => ret None
  | Some mid =>
      let* im := isInMainline (Some mid) in
      if im then ret None
      else
        let* m := get_mv mid in
        let* l := deref_arr (mv_variation m) in
        match head l with
        | None => throw TypeError
        | Some r =>
            let* rm := get_mv r in
            match mv_previous rm with
            | None => firstMove
            | Some p => let* pm := get_mv p in ret (mv_next pm)
            end
        end
  end.

(** [variantParent.variations.findIndex((v) => v[0] === variantRoot)] *)
Definition variant_index (vp : nat) (root : option nat) : M Z :=
  let* vpm := get_mv vp in
  findIndexM (fun v => let* l := get_arr v in ret (opt_eqb (head l) root)) (mv_variations vpm).

(** [canPromoteVariation(move, intoMainline)] *)
Definition canPromoteVariation (a : jsarg) (intoMainline : bool) : M bool :=
  let* mo := arg_or_current a in
  let* vp := getVariantParent (Arg mo) in
  match vp with
  | None => ret false
  | Some vpid =>
      if intoMainline then ret true
      else
        let* im := isInMainline (Some vpid) in
        if negb im then ret true
        else
          let* root := match mo with
                       | None => ret None
                       | Some mid => let* m := get_mv mid in
                                     let* l := deref_arr (mv_variation m) in ret (head l)
                       end in
          let* idx := variant_index vpid root in
          ret (Z.leb 1 idx)
  end.

(** [for (let i = i0 - 1; i >= 0; i--) variantRoot.variation[i].variation =
    variantRoot.previous.variation] *)
Fixpoint fix_variation_desc (vr : nat) (i : nat) : M unit :=
  match i with
  | 0 => ret tt
  | S k =>
      let* vrm := get_mv vr in
      let* l := deref_arr (mv_variation vrm) in
      match nth_error l k with
      | None => throw TypeError
      | Some x =>
          let* pv := match mv_previous vrm with
                     | None => throw TypeError
                     | Some p => variation_of (Some p)
                     end in
          let* _ := upd_mv x (fun y => set_variation y pv) in
          fix_variation_desc vr k
      end
  end.

(** One iteration of the [do ... while] loop of [promoteVariation] for the
    move [mid], the root [vr] and the parent [vp]; [false] on [break]. *)
Definition promote_step (mid vr vp : nat) (intoMainline : bool) : M bool :=
  let* vi := variant_index vp (Some vr) in
  if Z.ltb vi 0 then ret false
  else
    let* _ :=
      if intoMainline || Z.eqb vi 0 then
        let* vpm := get_mv vp in
        let* pvid := lift (match mv_variation vpm with Some a => Ok a | None => Throw TypeError end) in
        let* pl := get_arr pvid in
        let* rest := splice pvid (findIndex (fun x => Nat.eqb x vp) pl) in
        let* na := new_arr rest in
        let* _ := upd_mv vp (fun x => set_variation x (Some na)) in
        let* vrm := get_mv vr in
        let* _ := match mv_previous vrm with
                  | Some p =>
                      let* _ := upd_mv p (fun x => set_next x (Some vr)) in
                      let* mm := get_mv mid in
                      let* ml := deref_arr (mv_variation mm) in
                      push_arr pvid ml
                  | None =>
                      match mv_variation vrm with
                      | Some a => modify (fun s => with_moves s a)
                      | None => throw TypeError
                      end
                  end in
        let* vpm := get_mv vp in
        let vs := mv_variations vpm in
        let k := Z.to_nat vi in
        let* _ := upd_mv vr (fun x => set_variations x (na :: firstn k vs ++ skipn (S k) vs)) in
        let* _ := upd_mv vp (fun x => set_variations x []) in
        let* vrm := get_mv vr in
        let* _ := match mv_previous vrm with
                  | Some _ => let* l := deref_arr (mv_variation vrm) in
                              fix_variation_desc vr (List.length l)
                  | None => ret tt
                  end in
        let* vpm := get_mv vp in
        let* vl := deref_arr (mv_variation vpm) in
        for_each (fun m => let* vpm := get_mv vp in
                           upd_mv m (fun x => set_variation x (mv_variation vpm))) vl
      else
        let* vpm := get_mv vp in
        let vs := mv_variations vpm in
        let k := Z.to_nat vi in
        let temp := nth (k - 1) vs 0%nat in
        upd_mv vp (fun x => set_variations x (<[k := temp]> (<[k - 1 := nth k vs 0%nat]> vs)))
    in ret true.

(** The [do ... while (intoMainline && nextVariantRoot && nextVariantParent
    && !this.isInMainline(nextVariantRoot))] loop, for at most [fuel]
    iterations. *)
Fixpoint promote_loop (fuel : nat) (mid vr vp : nat) (intoMainline : bool) : M unit :=
  match fuel with
  | 0 => ret tt
  | S f =>
      let* cont := promote_step mid vr vp intoMainline in
      if negb cont then ret tt
      else
        let* vrm := get_mv vr in
        let* nvr := match mv_previous vrm with
                    | None => ret None
                    | Some p => let* pv := variation_of (Some p) in
                                let* l := deref_arr pv in ret (head l)
                    end in
        let* nvp := getVariantParent (match nvr with None => Undef | Some x => Arg (Some x) end) in
        if intoMainline then
          match nvr, nvp with
          | Some r, Some p =>
              let* im := isInMainline (Some r) in
              if im then ret tt else promote_loop f mid r p intoMainline
          | _, _ => ret tt
          end
        else ret tt
  end.

(** [promoteVariation(move, intoMainline)] *)
Definition promoteVariation (a : jsarg) (intoMainline : bool) : M unit :=
  let* mo := arg_or_current a in
  match mo with
  | None => ret tt
  | Some mid =>
      let* can := canPromoteVariation (Arg (Some mid)) intoMainline in
      if negb can then ret tt
      else
        let* m := get_mv mid in
        let* l := deref_arr (mv_variation m) in
        let* nvp := getVariantParent (Arg (Some mid)) in
        match nvp with
        | None => ret tt
        | Some vp =>
            match head l with
            | None => throw TypeError
            | Some vr =>
                let* s := get in
                let* _ := promote_loop (S (size (st_heap s))) mid vr vp intoMainline in
                publishEvent (mkEvent PromoteVariation (Some mid) None)
            end
        end
  end.

(* ------------------------------------------------------------------ *)
(** ** Pgn.ts: rendering *)

(** [renderResult()] on the [Result] tag ([None] when absent). *)
Definition renderResult (result : option string) : string :=
  match result with
  | Some r => if String.eqb r "1-0" || String.eqb r "0-1" || String.eqb r "1/2-1/2"
              then r else "*"
  | None => "*"
  end.

(** The line-packing loop of [wrap]: [line] is the current line. *)
Fixpoint wrap_words (maxLength : Z) (words : list string) (lines : list string)
    (line : string) : list string :=
  match words with
  | [] => lines ++ [trim line]
  | word :: rest =>
      if Z.ltb (Z.of_nat (String.length line + String.length word)) maxLength
      then wrap_words maxLength rest lines (line ++ word ++ " ")
      else wrap_words maxLength rest (lines ++ [trim line]) (word ++ " ")
  end.

Definition newline : string := String (ascii_of_nat 10) EmptyString.

(** [wrap(str, maxLength)] *)
Definition wrap (str : string) (maxLength : Z) : string :=
  if Z.leb maxLength 0 then trim str
  else join newline (wrap_words maxLength (split_sp str) [] "").

Definition dq : string := String (ascii_of_nat 34) EmptyString.

(** [renderHeader({skipHeader})]: [headerText] is [this.header.render()],
    [fenTag] the [FEN] tag. *)
Definition renderHeader (skipHeader : bool) (headerText : string) (fenTag : option string) : string :=
  if negb skipHeader then headerText ++ newline
  else match fenTag with
       | Some f =>
           if negb (String.eqb f "") && negb (String.eqb f FEN_start)
           then "[FEN " ++ dq ++ f ++ dq ++ "]" ++ newline ++ "[SetUp " ++ dq ++ "1" ++ dq ++ "]"
                ++ newline ++ newline
           else ""
       | None => ""
       end.

(** [renderGameComment(options)]: [comment] is [this.gameComment.comment],
    [commands] the output of [renderCommands]; the game comment object is
    always set, so only [skipComments] short-cuts. *)
Definition renderGameComment (skipComments : bool) (comment : option string) (commands : string) : string :=
  if skipComments then ""
  else
    let result := match comment with
                  | Some c => if String.eqb c "" then "" else "{ " ++ c ++ " }"
                  | None => ""
                  end ++ commands in
    if Nat.ltb 0 (String.length result) then result ++ newline else result.

(** [render(options)]: [headerText] is [this.header.render()], [commands]
    the output of [renderCommands] for the game comment, [history] the
    output of [History.render]; [width] is [options.width] ([None] when
    absent; a [NaN] width, falsy like [0], is not modelled). *)
Definition pgn_render (skipHeader : bool) (headerText : string) (fenTag : option string)
    (skipComments : bool) (comment : option string) (commands : string)
    (history : string) (result : option string) (width : option Z) : string :=
  let r := renderHeader skipHeader headerText fenTag ++ renderGameComment skipComments comment commands in
  let h := history ++ " " ++ renderResult result in
  r ++ wrap h (match width with Some w => if Z.eqb w 0 then (-1)%Z else w | None => (-1)%Z end).

(** A string ends with a whitespace character. *)
Definition ends_ws (p : string) : Prop :=
  exists q c, p = q ++ String c EmptyString /\ is_ws c = true.

Fixpoint all_ws (s : string) : bool :=
  match s with
  | EmptyString => true
  | String c rest => is_ws c && all_ws rest
  end.

Fixpoint no_ws (s : string) : bool :=
  match s with
  | EmptyString => true
  | String c rest => negb (is_ws c) && no_ws rest
  end.

Fixpoint has_sp (s : string) : bool :=
  match s with
  | EmptyString => false
  | String c rest => Ascii.eqb c " "%char || has_sp rest
  end.

(** A FEN field: a non-empty run of non-whitespace characters. *)
Definition field_ok (t : string) : Prop := t <> "" /\ no_ws t = true.

(** The value of [previousMove = this._currentMove] and of
    [disableNullMoves = this.disableNullMoves] once the defaults apply. *)
Definition arg_value (a : jsarg) (s : St) : option nat :=
  match a with Undef => st_cur s | Arg m => m end.
Definition dnm_value (dnm : option bool) (s : St) : bool :=
  match dnm with Some b => b | None => st_disableNullMoves s end.

(** The object graph of the History is closed: every identity reached
    through [History.moves], [next], [variation] or [variations] (and the
    elements of those arrays) is an existing object, every move's FEN is
    one chess.js loads, and the next identity to allocate is unused. *)
Definition in_heap (s : St) (x : nat) : bool := bool_decide (is_Some (st_heap s !! x)).
Definition arr_in_heap (s : St) (a : nat) : bool :=
  match st_arrs s !! a with Some l => forallb (in_heap s) l | None => false end.
Definition store_okb (E : engine) (s : St) : bool :=
  negb (in_heap s (st_fresh s)) && arr_in_heap s (st_moves s) &&
  forallb (fun '(x, mx) =>
             match mv_next mx with Some n => in_heap s n | None => true end &&
             match mv_variation mx with Some a => bool_decide (is_Some (st_arrs s !! a)) | None => false end &&
             forallb (arr_in_heap s) (mv_variations mx) &&
             e_valid E (mv_fen mx))
    (map_to_list (st_heap s)).
(** A [previousMove] argument that is null or an existing move. *)
Definition opt_in (s : St) (o : option nat) : Prop :=
  match o with Some x => is_Some (st_heap s !! x) | None => True end.

(** The frame of a step of [traverse] on the moves that existed before it
    (identities below [n]): [History.moves], the local [moves] array and
    every such move's [variations] are unchanged, and identities are only
    allocated. *)
Definition st_rel (n : nat) (s s' : St) : Prop :=
  st_moves s' = st_moves s /\ st_fresh s <= st_fresh s' /\
  forall id, id < n -> option_map mv_variations (st_heap s' !! id) = option_map mv_variations (st_heap s !! id).

Definition ts_rel (n : nat) (ts ts' : TS) : Prop :=
  let '(s, _, mv) := ts in let '(s', _, mv') := ts' in mv' = mv /\ st_rel n s s'.

(** The ply of a move as [traverse], [validateMove] and [addMove] compute
    it: [previous.ply + 1], or the History's [setUpPly] for a move without
    [previous]. *)
Definition ply_link (s : St) (prev : option nat) (ply : jsnum) : Prop :=
  match prev with
  | None => ply = st_setUpPly s
  | Some p => exists pm, st_heap s !! p = Some pm /\ ply = jadd (mv_ply pm) (JNum 1)
  end.
(** Every move of the heap has its ply linked to its [previous]. *)
Definition ply_ok (s : St) : Prop :=
  forall id m, st_heap s !! id = Some m -> ply_link s (mv_previous m) (mv_ply m).
(** Identities of the heap are below the next fresh identity. *)
Definition fresh_ok (s : St) : Prop :=
  forall id m, st_heap s !! id = Some m -> id < st_fresh s.
Definition inv (s : St) : Prop := ply_ok s /\ fresh_ok s.
Definition frames_ok (s : St) (stk : list Frame) : Prop :=
  Forall (fun f => ply_link s (fr_parent f) (fr_ply f)) stk.
(** [s'] keeps the setup ply and the [ply] and [previous] of every move of
    [s]. *)
Definition ext (s s' : St) : Prop :=
  st_setUpPly s' = st_setUpPly s /\ st_fresh s <= st_fresh s' /\
  forall id m, st_heap s !! id = Some m ->
    exists m', st_heap s' !! id = Some m' /\ mv_ply m' = mv_ply m /\ mv_previous m' = mv_previous m.
(** A step that keeps the invariant, on the program state and on the state
    of [traverse] (whose pending frames also satisfy [ply_link]). *)
Definition safe_at {A} (m : M A) (s : St) : Prop :=
  inv s -> inv (snd (m s)) /\ ext s (snd (m s)).
Definition tsafe_at {A} (m : MS TS A) (ts : TS) : Prop :=
  inv (fst (fst ts)) -> frames_ok (fst (fst ts)) (snd (fst ts)) ->
  inv (fst (fst (snd (m ts)))) /\ frames_ok (fst (fst (snd (m ts)))) (snd (fst (snd (m ts)))) /\
  ext (fst (fst ts)) (fst (fst (snd (m ts)))).

(* ------------------------------------------------------------------ *)
(** ** Well-formed move trees *)

(** The [Move] objects of a game form a tree: each array is a line of moves
    linked by [previous]/[next], and each [variations] entry is an
    alternative line starting at the same [previous]. Moves removed by
    [delete] stay in the heap, so the conditions are checked on the moves
    still reachable in the tree. *)

#[global] Instance jsnum_eq_dec : EqDecision jsnum.
Proof. solve_decision. Defined.

(** [k] steps along [previous] links from [x]. *)
Fixpoint iter_prev (s : St) (k : nat) (x : nat) : option nat :=
  match k with
  | 0 => Some x
  | S k' => match st_heap s !! x with
            | Some m => match mv_previous m with
                        | Some p => iter_prev s k' p
                        | None => None
                        end
            | None => None
            end
  end.

(** [x] is an element of its own [variation] array. *)
Definition in_own_array (s : St) (x : nat) (mx : Move) : bool :=
  match mv_variation mx with
  | Some a => match st_arrs s !! a with
              | Some l => bool_decide (x ∈ l)
              | None => false
              end
  | None => false
  end.

(** [x] is in the tree: every move on its [previous] chain is an element of
    its own array, and the chain ends at a move without [previous] within
    [fuel] steps. *)
Fixpoint rooted (fuel : nat) (s : St) (x : nat) : bool :=
  match fuel with
  | 0 => false
  | S f => match st_heap s !! x with
           | Some mx => in_own_array s x mx &&
                        match mv_previous mx with
                        | None => true
                        | Some p => rooted f s p
                        end
           | None => false
           end
  end.
Definition live (s : St) (x : nat) : bool := rooted (S (size (st_heap s))) s x.

(** The array [a] is the [variation] of the move [x]. *)
Definition owns (s : St) (a x : nat) : bool :=
  match st_heap s !! x with
  | Some mx => bool_decide (mv_variation mx = Some a)
  | None => false
  end.

(** The well-formedness of a move of the tree. *)
Definition move_wfb (E : engine) (s : St) (x : nat) (mx : Move) : bool :=
  match mv_ply mx with JNum _ => true | JNaN => false end &&
  match mv_previous mx with
  | None => bool_decide (mv_ply mx = st_setUpPly s)
  | Some p => match st_heap s !! p with
              | Some pm => bool_decide (mv_ply mx = jadd (mv_ply pm) (JNum 1))
              | None => false
              end
  end &&
  in_own_array s x mx &&
  match mv_next mx with
  | None => true
  | Some n => match st_heap s !! n with
              | Some mn => bool_decide (mv_variation mn = mv_variation mx)
              | None => false
              end
  end &&
  forallb (fun v =>
    negb (bool_decide (mv_variation mx = Some v)) &&
    match st_arrs s !! v with
    | Some (h :: _) => match st_heap s !! h with
                       | Some mh => bool_decide (mv_previous mh = mv_previous mx) &&
                                    bool_decide (mv_variation mh = Some v) &&
                                    bool_decide (mv_ply mh = mv_ply mx)
                       | None => false
                       end
    | _ => false
    end) (mv_variations mx) &&
  e_valid E (mv_fen mx).
(** The elements of array [a], from the one after [prev] on, have
    [variation = a], and each one's [previous] is the element before it. *)
Fixpoint arr_wfb (s : St) (a : nat) (prev : option nat) (l : list nat) : bool :=
  match l with
  | [] => true
  | x :: t => match st_heap s !! x with
              | Some mx => bool_decide (mv_variation mx = Some a) &&
                           match prev with
                           | None => true
                           | Some y => bool_decide (mv_previous mx = Some y)
                           end && arr_wfb s a (Some x) t
              | None => false
              end
  end.

(** [History.moves] is a well-formed array whose first move has no
    [previous]. *)
Definition main_wfb (s : St) : bool :=
  match st_arrs s !! st_moves s with
  | Some l => arr_wfb s (st_moves s) None l &&
              match head l with
              | None => true
              | Some h => match st_heap s !! h with
                          | Some mh => bool_decide (mv_previous mh = None)
                          | None => false
                          end
              end
  | None => false
  end.

(** The move tree is well formed: the moves of the tree satisfy [move_wfb],
    the arrays they are elements of satisfy [arr_wfb], every [variations] entry of every move is an
    array of the store, and the setup FEN is valid. *)
Definition wfb (E : engine) (s : St) : bool :=
  forallb (fun '(x, mx) => (negb (live s x) || move_wfb E s x mx) &&
                           forallb (fun v => bool_decide (is_Some (st_arrs s !! v))) (mv_variations mx))
    (map_to_list (st_heap s)) &&
  forallb (fun '(a, l) => negb (existsb (fun x => live s x && owns s a x) l) || arr_wfb s a None l)
    (map_to_list (st_arrs s)) &&
  main_wfb s && e_valid E (st_headerFen s).

(** The fields that [delete] keeps: a move of [s] is still in [s1] with the
    same [previous], [ply] and [fen], and the same [variation] unless it is
    the promoted first move [r] of a variation, now in array [a]. *)
Definition heap_kept (s s1 : St) (r : option nat) (a : nat) : Prop :=
  forall x mx, st_heap s !! x = Some mx ->
    exists mx1, st_heap s1 !! x = Some mx1 /\ mv_previous mx1 = mv_previous mx /\
      mv_ply mx1 = mv_ply mx /\ mv_fen mx1 = mv_fen mx /\
      mv_variation mx1 = (if opt_eqb r (Some x) then Some a else mv_variation mx).

(** The state after the structural part of [delete(move)], with [a] the
    array of [move]: moves kept, other arrays unchanged, the first move of
    [a] recorded in [a], and [History.moves], the current move and the
    setup FEN unchanged. *)
Definition del_post (s s1 : St) (a : nat) (r : option nat) : Prop :=
  heap_kept s s1 r a /\
  (forall b, b <> a -> st_arrs s1 !! b = st_arrs s !! b) /\
  (exists l1, st_arrs s1 !! a = Some l1 /\
     forall h, head l1 = Some h ->
       exists mh1, st_heap s1 !! h = Some mh1 /\ mv_variation mh1 = Some a) /\
  st_moves s1 = st_moves s /\ st_cur s1 = st_cur s /\ st_headerFen s1 = st_headerFen s.

(** The FEN of the position after move [m], or of the setup position. *)
Definition fen_at (s : St) (m : option nat) : option string :=
  match m with
  | Some id => option_map mv_fen (st_heap s !! id)
  | None => Some (st_headerFen s)
  end.

(* ------------------------------------------------------------------ *)
(** ** More of the facade and of History.ts *)

(** [normalizeFen(fen)] (Chess.ts) *)
Definition normalizeFen (fen : string) : res string :=
  let tokens := split_sp fen in
  if (List.length tokens <? 4)%nat
  then Throw ("Invalid FEN: '" ++ fen ++ "'. FEN does not have at least 4 tokens.")
  else
    let pieces := nth 0 tokens "" in
    let color := nth 1 tokens "" in
    let castling := nth 2 tokens "" in
    let enPassant := nth 3 tokens "" in
    Ok (pieces ++ " " ++ color ++ " " ++ castling ++ " " ++ enPassant ++ " 0 1").

(** The [fenValues] record of History.ts. *)
Definition fenValues : list (ascii * Z) :=
  [("p"%char, (-1)%Z); ("n"%char, (-3)%Z); ("b"%char, (-3)%Z); ("r"%char, (-5)%Z);
   ("q"%char, (-9)%Z); ("P"%char, 1%Z); ("N"%char, 3%Z); ("B"%char, 3%Z);
   ("R"%char, 5%Z); ("Q"%char, 9%Z)].

(** [fenValues[char] || 0]: a character without an entry reads [undefined]. *)
Definition fenValue (c : ascii) : Z :=
  match List.find (fun kv => Ascii.eqb (fst kv) c) fenValues with
  | Some (_, v) => v
  | None => 0%Z
  end.

(** The [for (const char of pieces)] loop of [getMaterialDifference]. *)
Fixpoint material_loop (pieces : string) (materialDiff : Z) : Z :=
  match pieces with
  | EmptyString => materialDiff
  | String c rest => material_loop rest (materialDiff + fenValue c)%Z
  end.

(** [getMaterialDifference(fen)]: [fen.split(' ')] has at least one element. *)
Definition getMaterialDifference (fen : string) : Z :=
  let pieces := nth 0 (split_sp fen) "" in
  material_loop pieces 0%Z.

(** The same characters with the case of ASCII letters swapped: the piece
    letters of the other colour. *)
Definition swap_case (c : ascii) : ascii :=
  let n := nat_of_ascii c in
  if (65 <=? n)%nat && (n <=? 90)%nat then ascii_of_nat (n + 32)
  else if (97 <=? n)%nat && (n <=? 122)%nat then ascii_of_nat (n - 32)
  else c.
Fixpoint map_str (f : ascii -> ascii) (s : string) : string :=
  match s with
  | EmptyString => EmptyString
  | String c rest => String (f c) (map_str f rest)
  end.

(** The non-whitespace characters of a string, in order. *)
Fixpoint nonws (s : string) : string :=
  match s with
  | EmptyString => EmptyString
  | String c rest => if is_ws c then nonws rest else String c (nonws rest)
  end.

(** The [while (pointer.previous)] loop of [historyToMove], run for at most
    [fuel] iterations; [None] when it has not ended by then. *)
Fixpoint htm_loop (fuel : nat) (pointer : nat) (moves : list nat) : M (option (list nat)) :=
  match fuel with
  | 0 => ret None
  | S f => let* pm := get_mv pointer in
           match mv_previous pm with
           | None => ret (Some moves)
           | Some p => htm_loop f p (moves ++ [p])%list
           end
  end.

(** [historyToMove(move)]: each iteration visits a move of the heap, so a
    loop that has not ended after [size + 1] iterations has met a move
    twice and runs forever; [None] stands for that. *)
Definition historyToMove (move : nat) : M (option (list nat)) :=
  let* s := get in
  let* r := htm_loop (S (size (st_heap s))) move [move] in
  ret (option_map (@rev nat) r).

(** [history()]: the mainline array. *)
Definition history : M (list nat) :=
  let* s := get in get_arr (st_moves s).

(** [plyCount()] *)
Definition plyCount : M nat :=
  let* l := history in ret (List.length l).

(** [setUpFen()] *)
Definition setUpFen : M string :=
  let* s := get in ret (st_headerFen s).

(** [fen(move)] *)
Definition fen (a : jsarg) : M string :=
  let* mo := arg_or_current a in
  match mo with
  | Some id => let* m := get_mv id in ret (mv_fen m)
  | None => setUpFen
  end.

(** [normalizedFen(move)] *)
Definition normalizedFen (a : jsarg) : M string :=
  let* f := fen a in lift (normalizeFen f).

(** [fenOfPly(plyNumber)] for an integral [plyNumber]: past the end of the
    mainline [history()[plyNumber - 1]] is [undefined], and reading its
    [fen] throws. *)
Definition fenOfPly (plyNumber : Z) : M string :=
  if Z.ltb 0 plyNumber then
    let* l := history in
    match nth_error l (Z.to_nat (plyNumber - 1)) with
    | Some id => let* m := get_mv id in ret (mv_fen m)
    | None => throw TypeError
    end
  else setUpFen.

(** [load(fen)]: chess.js loads the FEN, throwing when it refuses it; then
    [new Pgn({fen})] sets the [FEN] and [SetUp] tags unless [fen] is the
    start position and builds an empty History from
    [this.header.tags.FEN || fen], which is [fen]; [setUpFen()] now reads
    [tags.FEN || FEN.start]. The current move is cleared and an
    [Initialized] event is published. *)
Definition load (E : engine) (f : string) : M unit :=
  let* pos := chess_load E f in
  let* _ := modify (fun s => with_board s pos) in
  let* _ := history_new E [] f false in
  let headerFen := if negb (String.eqb f FEN_start)
                   then (if String.eqb f "" then FEN_start else f)
                   else FEN_start in
  let* _ := modify (fun s => mkSt (st_heap s) (st_arrs s) (st_moves s) (st_cur s)
                               (st_events s) (st_fresh s) (st_setUpFen s) (st_setUpPly s)
                               (st_board s) (st_disableNullMoves s) headerFen) in
  let* _ := modify (fun s => with_cur s None) in
  publishEvent (mkEvent Initialized None None).

(* ------------------------------------------------------------------ *)
(** ** History.ts: the commands of a comment *)

(** [s.split(c)] for a one-character separator: every separator ends a
    token, so empty tokens are kept and the result is never empty. *)
Fixpoint split_ch_aux (c : ascii) (s : string) (cur : string) : list string :=
  match s with
  | EmptyString => [cur]
  | String d rest =>
      if Ascii.eqb d c then cur :: split_ch_aux c rest ""
      else split_ch_aux c rest (cur ++ String d "")
  end.
Definition split_ch (c : ascii) (s : string) : list string := split_ch_aux c s "".

(** A [DiagramComment] of the PGN parser: the four fields that
    [renderCommands] destructures, and the other entries ([rest]) in the
    order of [Object.entries], with their (string) values; JavaScript
    object keys are distinct. A field absent from the object is [None]. *)
Record DiagramComment := mkDC {
  dc_colorArrows : option (list string);
  dc_colorFields : option (list string);
  dc_comment : option string;
  dc_clk : option string;
  dc_rest : list (string * string)
}.

(** [commentDiag[k]] for a key of [rest]. *)
Definition rest_get (k : string) (rest : list (string * string)) : option string :=
  option_map snd (List.find (fun e => String.eqb (fst e) k) rest).

(** A string value is truthy when it is not empty. *)
Definition truthy (v : option string) : bool :=
  match v with Some x => negb (String.eqb x "") | None => false end.

(** [getColorFromChesscomKeypress(keypress)] *)
Definition getColorFromChesscomKeypress (keypress : option string) : string :=
  match keypress with
  | Some k => if String.eqb k "shift" then "G"
              else if String.eqb k "ctrl" then "Y"
              else if String.eqb k "alt" then "B"
              else if String.eqb k "none" then "R"
              else "R"
  | None => "R"
  end.

(** The [for (const h of highlights)] loop (and the one over [arrows]) of
    [convertChesscomHighlights], pushing onto [acc]. *)
Fixpoint chesscom_loop (entries : list string) (acc : list string) : list string :=
  match entries with
  | [] => acc
  | h :: rest =>
      let tokens := split_ch ";" h in
      let square := nth 0 tokens "" in
      let color := getColorFromChesscomKeypress (nth_error tokens 2) in
      chesscom_loop rest
        (if negb (String.eqb square "") && negb (String.eqb color "")
         then acc ++ [color ++ square] else acc)
  end.

(** [convertChesscomHighlights(commentDiag)]; the object is updated in
    place in the source and returned, here the updated record is returned. *)
Definition convertChesscomHighlights (d : option DiagramComment) : option DiagramComment :=
  match d with
  | None => None
  | Some d =>
      let highlight := rest_get "c_highlight" (dc_rest d) in
      let arrow := rest_get "c_arrow" (dc_rest d) in
      if negb (truthy highlight) && negb (truthy arrow) then Some d
      else
        let fields := match dc_colorFields d with Some l => l | None => [] end in
        let arrows := match dc_colorArrows d with Some l => l | None => [] end in
        let fields := match highlight with
                      | Some h => if truthy highlight then chesscom_loop (split_ch "," h) fields
                                  else fields
                      | None => fields
                      end in
        let arrows := match arrow with
                      | Some a => if truthy arrow then chesscom_loop (split_ch "," a) arrows
                                  else arrows
                      | None => arrows
                      end in
        Some (mkDC (Some arrows) (Some fields) (dc_comment d) (dc_clk d) (dc_rest d))
  end.

(** The [while (tokens.length < 3) tokens.unshift('00')] loop of
    [renderCommands], run for at most [fuel] iterations. *)
Fixpoint clk_pad (fuel : nat) (tokens : list string) : list string :=
  match fuel with
  | 0 => tokens
  | S f => if Nat.ltb (length tokens) 3 then clk_pad f ("00" :: tokens) else tokens
  end.

(** [renderCommands(commentDiag, options)]: [skipDrawables] and
    [skipClocks] are the options' flags ([false] when absent). *)
Definition renderCommands (d : DiagramComment) (skipDrawables skipClocks : bool) : string :=
  let result := "" in
  let result := match dc_colorArrows d with
                | Some ((_ :: _) as l) => if negb skipDrawables
                                        then result ++ "[%cal " ++ join "," l ++ "]" else result
                | _ => result
                end in
  let result := match dc_colorFields d with
                | Some ((_ :: _) as l) => if negb skipDrawables
                                        then result ++ "[%csl " ++ join "," l ++ "]" else result
                | _ => result
                end in
  let result := match dc_clk d with
                | Some c => if negb skipClocks && truthy (Some c)
                            then let tokens := clk_pad 3 (split_ch ":" c) in
                                 result ++ "[%clk " ++ join ":" tokens ++ "]"
                            else result
                | None => result
                end in
  let result := fold_left (fun result e =>
                  if truthy (Some (snd e)) then result ++ "[%" ++ fst e ++ " " ++ snd e ++ "]"
                  else result) (dc_rest d) result in
  if Nat.eqb (String.length result) 0 then "" else "{ " ++ result ++ " } ".

(** [s.repeat(k)] *)
Fixpoint str_repeat (k : nat) (s : string) : string :=
  match k with 0 => "" | S k => s ++ str_repeat k s end.

(* ------------------------------------------------------------------ *)
(** ** A concrete engine and games *)

(** [loadPgn(pgn)] after parsing: [new Pgn({pgn})] builds the History from
    the parsed moves and the setup FEN, then the current move is the last
    mainline move, the facade's position is loaded from [this.fen()] and an
    [Initialized] event is published. *)
Definition loadPgn (E : engine) (moves : list PgnMove) (setUpFen : string) : M unit :=
  let* _ := history_new E moves setUpFen false in
  let* s := get in
  let* l := get_arr (st_moves s) in
  let* _ := modify (fun s => with_cur s (last l)) in
  let* pos := match last l with
              | Some id => let* m := get_mv id in chess_load E (mv_fen m)
              | None => let* s := get in chess_load E (st_headerFen s)
              end in
  let* _ := modify (fun s => with_board s pos) in
  publishEvent (mkEvent Initialized None None).

(** The state of [new Chess()] before anything is loaded. *)
Definition st0 : St :=
  mkSt ∅ ∅ 0%nat None [] 0%nat FEN_start (JNum 1) FEN_start false FEN_start.

(** Positions of the games below, as chess.js writes them. *)
Definition fen_e4 := "rnbqkbnr/pppppppp/8/8/4P3/8/PPPP1PPP/RNBQKBNR b KQkq - 0 1".
Definition fen_d4 := "rnbqkbnr/pppppppp/8/8/3P4/8/PPP1PPPP/RNBQKBNR b KQkq - 0 1".
Definition fen_e4e5 := "rnbqkbnr/pppp1ppp/8/4p3/4P3/8/PPPP1PPP/RNBQKBNR w KQkq - 0 2".
Definition fen_e4c5 := "rnbqkbnr/pp1ppppp/8/2p5/4P3/8/PPPP1PPP/RNBQKBNR w KQkq - 0 2".
Definition fen_e4e5Nf3 := "rnbqkbnr/pppp1ppp/8/4p3/4P3/5N2/PPPP1PPP/RNBQKB1R b KQkq - 1 2".
Definition fen_e4c5Nf3 := "rnbqkbnr/pp1ppppp/8/2p5/4P3/5N2/PPPP1PPP/RNBQKB1R b KQkq - 1 2".
(** The start position with Black to move, reached by a null move. *)
Definition fen_start_null := "rnbqkbnr/pppppppp/8/8/8/8/PPPPPPPP/RNBQKBNR b KQkq - 0 1".

Definition toy_js (color from to piece san before after : string) : jsmove :=
  mkJsMove color from to piece None None san (from ++ to) before after.

(** The legal moves the engine knows, by position. *)
Definition toy_table : list jsmove :=
  [ toy_js "w" "e2" "e4" "p" "e4" FEN_start fen_e4;
    toy_js "w" "d2" "d4" "p" "d4" FEN_start fen_d4;
    toy_js "b" "e7" "e5" "p" "e5" fen_e4 fen_e4e5;
    toy_js "b" "c7" "c5" "p" "c5" fen_e4 fen_e4c5;
    toy_js "w" "g1" "f3" "n" "Nf3" fen_e4e5 fen_e4e5Nf3;
    toy_js "w" "g1" "f3" "n" "Nf3" fen_e4c5 fen_e4c5Nf3 ].

Definition toy_fens : list string :=
  [FEN_start; fen_e4; fen_d4; fen_e4e5; fen_e4c5; fen_e4e5Nf3; fen_e4c5Nf3; fen_start_null].

(** [chess.move(c, {strict})] of chess.js on these positions: SAN, or in
    the permissive parser also the coordinate form [e2e4]; an unknown
    move throws. *)
Definition toy_move (pos : string) (c : candidate) (strict : bool) : res (option jsmove) :=
  match List.find (fun jm =>
          String.eqb (jm_before jm) pos &&
          match c with
          | CSan s => String.eqb s (jm_san jm) || (negb strict && String.eqb s (jm_from jm ++ jm_to jm))
          | CObj f t p => String.eqb f (jm_from jm) && String.eqb t (jm_to jm)
                          && opt_str_eqb p (jm_promotion jm)
          end) toy_table with
  | Some jm => Ok (Some jm)
  | None => Throw ("Invalid move: " ++ match c with CSan s => s | CObj f t _ => f ++ t end)
  end.

(** The board of [chess.board()], reduced to the two kings. *)
Definition toy_board : list (list (option piece)) :=
  [[Some (mkPiece "k" "b" "e8")]; []; []; []; []; []; []; [Some (mkPiece "k" "w" "e1")]].

Definition toy : engine :=
  mkEngine (fun f => existsb (String.eqb f) toy_fens) (fun f => f) toy_move
    (fun f => nth 1 (split_ws f) "w") (fun _ => false) (fun _ => false)
    (fun _ => toy_board) (fun _ _ => None).

(** The same engine on positions where the side to move is in check. *)
Definition toy_in_check : engine :=
  mkEngine (e_valid toy) (e_fen toy) (e_move toy) (e_turn toy) (fun _ => true)
    (e_isGameOver toy) (e_board toy) (e_get toy).

Definition pm (notation : string) : PgnMove := mkPgnMove notation [].

(** [1. e4 e5 (1... c5 2. Nf3) 2. Nf3] *)
Definition game_branch : list PgnMove :=
  [pm "e4"; mkPgnMove "e5" [[pm "c5"; pm "Nf3"]]; pm "Nf3"].
(** [1. e4 (1. d4) e5] *)
Definition game_d4 : list PgnMove := [mkPgnMove "e4" [[pm "d4"]]; pm "e5"].
(** [1. e4 (1. d4 Qh4) e5]: [Qh4] is illegal after [1. d4]. *)
Definition game_bad : list PgnMove := [mkPgnMove "e4" [[pm "d4"; pm "Qh4"]]; pm "e5"].
(** [1. e4 e5 2. Nf3] *)
Definition game_line : list PgnMove := [pm "e4"; pm "e5"; pm "Nf3"].

Definition loaded (moves : list PgnMove) : St := snd (loadPgn toy moves FEN_start st0).

(* ================================================================== *)
(** * Proofs *)

(* ------------------------------------------------------------------ *)
(** ** Strings *)

(** [String.append] does not unfold by [simpl] once stdpp is loaded. *)
Lemma str_app_cons (c : ascii) (a b : string) : String c a ++ b = String c (a ++ b).
Proof. reflexivity. Qed.
Lemma str_app_nil_l (b : string) : "" ++ b = b.
Proof. reflexivity. Qed.
Create Rewrite HintDb strs.
#[local] Hint Rewrite str_app_cons str_app_nil_l : strs.

Lemma str_app_assoc (a b c : string) : (a ++ b) ++ c = a ++ (b ++ c).
Proof. induction a as [|x a IH]; autorewrite with strs; [reflexivity | now rewrite IH]. Qed.

Lemma str_app_nil_r (a : string) : a ++ "" = a.
Proof. induction a as [|x a IH]; autorewrite with strs; [reflexivity | now rewrite IH]. Qed.

Lemma rev_str_acc (s acc : string) : rev_str s acc = rev_str s "" ++ acc.
Proof.
  revert acc; induction s as [|c s IH]; intros acc; simpl; [reflexivity|].
  rewrite (IH (String c acc)), (IH (String c "")), str_app_assoc. reflexivity.
Qed.

Lemma rev_str_app (a b acc : string) : rev_str (a ++ b) acc = rev_str b (rev_str a acc).
Proof. revert acc; induction a as [|c a IH]; intros acc; simpl; auto. Qed.

Lemma rev_str_rev_str (q acc1 acc2 : string) :
  rev_str (rev_str q acc1) acc2 = rev_str acc1 (q ++ acc2).
Proof. revert acc1; induction q as [|c q IH]; intros acc1; simpl; [reflexivity | apply IH]. Qed.

Lemma all_ws_app (a b : string) : all_ws (a ++ b) = all_ws a && all_ws b.
Proof. induction a as [|c a IH]; simpl; [reflexivity | now rewrite IH, andb_assoc]. Qed.

Lemma all_ws_rev (w acc : string) : all_ws w = true -> all_ws acc = true -> all_ws (rev_str w acc) = true.
Proof.
  revert acc; induction w as [|c w IH]; intros acc Hw Hacc; simpl in *; [assumption|].
  apply andb_prop in Hw as [Hc Hw]. apply IH; [assumption|]. simpl. now rewrite Hc, Hacc.
Qed.

Lemma trim_start_ws_prefix (a b : string) : all_ws a = true -> trim_start (a ++ b) = trim_start b.
Proof.
  induction a as [|c a IH]; intros H; simpl in *; [reflexivity|].
  apply andb_prop in H as [Hc H]. rewrite Hc. auto.
Qed.

Lemma trim_start_nonws (c : ascii) (s : string) : is_ws c = false -> trim_start (String c s) = String c s.
Proof. intros H; simpl; now rewrite H. Qed.

(** Trailing whitespace after a non-whitespace character is removed. *)
Lemma trim_end_nonws (q w : string) (c : ascii) :
  is_ws c = false -> all_ws w = true -> trim_end (q ++ String c w) = q ++ String c "".
Proof.
  intros Hc Hw. unfold trim_end.
  rewrite rev_str_app. simpl. rewrite (rev_str_acc w), trim_start_ws_prefix.
  - rewrite trim_start_nonws by assumption. simpl. rewrite rev_str_rev_str. reflexivity.
  - apply all_ws_rev; auto.
Qed.

Lemma ends_ws_cons (c : ascii) (y : string) : ends_ws (String c y) -> y = "" \/ ends_ws y.
Proof.
  intros (q & d & Hq & Hd). destruct q as [|x q]; simpl in Hq; inversion Hq; subst.
  - now left.
  - right. now exists q, d.
Qed.

Lemma ends_ws_app (a b : string) : ends_ws b -> ends_ws (a ++ b).
Proof. intros (q & d & -> & Hd). exists (a ++ q), d. now rewrite str_app_assoc. Qed.

Lemma ends_ws_char (a : string) (c : ascii) : is_ws c = true -> ends_ws (a ++ String c "").
Proof. intros H. now exists a, c. Qed.

Lemma empty_or_ends_ws_app (a b : string) :
  (a = "" \/ ends_ws a) -> (b = "" \/ ends_ws b) -> (a ++ b = "" \/ ends_ws (a ++ b)).
Proof.
  intros [-> | Ha] [-> | Hb].
  - now left.
  - right. exact Hb.
  - right. now rewrite str_app_nil_r.
  - right. now apply ends_ws_app.
Qed.

(** Leading whitespace is removed up to a non-whitespace start of [r]. *)
Lemma trim_start_before (y r : string) (c : ascii) :
  (y = "" \/ ends_ws y) -> is_ws c = false ->
  exists pre, trim_start (y ++ String c r) = pre ++ String c r /\ (pre = "" \/ ends_ws pre).
Proof.
  intros Hy Hc. induction y as [|d y IH].
  - exists "". simpl. rewrite Hc. auto.
  - simpl. destruct (is_ws d) eqn:Hd.
    + apply IH. destruct Hy as [Hy | Hy]; [discriminate | now apply ends_ws_cons in Hy].
    + exists (String d y). split; [reflexivity | auto].
Qed.



Lemma split_sp_nospace (r cur : string) : has_sp r = false -> split_sp_aux r cur = [cur ++ r].
Proof.
  revert cur; induction r as [|c r IH]; intros cur H; simpl in *.
  - now rewrite str_app_nil_r.
  - apply orb_false_iff in H as [Hc H]. rewrite Hc, IH by assumption.
    now rewrite str_app_assoc.
Qed.

Lemma split_sp_last (x r cur : string) :
  has_sp r = false -> split_sp_aux (x ++ String " " r) cur = (split_sp_aux x cur ++ [r])%list.
Proof.
  revert cur; induction x as [|c x IH]; intros cur H; autorewrite with strs; simpl.
  - rewrite split_sp_nospace by assumption. reflexivity.
  - destruct (Ascii.eqb c " "%char); simpl; rewrite IH by assumption; reflexivity.
Qed.

Lemma join_snoc (sep x : string) (l : list string) :
  join sep (l ++ [x])%list = match l with [] => x | _ => join sep l ++ sep ++ x end.
Proof.
  induction l as [|a l IH]; [reflexivity|].
  destruct l as [|b l]; [reflexivity|].
  assert (E1 : join sep ((a :: b :: l) ++ [x])%list = a ++ sep ++ join sep ((b :: l) ++ [x])%list)
    by reflexivity.
  rewrite E1, IH. simpl. now rewrite !str_app_assoc.
Qed.

(** The line packing of [wrap] ends with the line holding the last word. *)
Lemma wrap_words_last (ml : Z) (r : string) (ws lines : list string) (line : string) :
  (line = "" \/ ends_ws line) ->
  exists lines' y, (y = "" \/ ends_ws y) /\
    wrap_words ml (ws ++ [r])%list lines line = (lines' ++ [trim (y ++ r ++ " ")])%list.
Proof.
  revert lines line; induction ws as [|w ws IH]; intros lines line Hl; simpl.
  - destruct (Z.ltb _ ml).
    + exists lines, line. auto.
    + exists (lines ++ [trim line])%list, "". split; auto.
  - destruct (Z.ltb _ ml); apply IH; right.
    + rewrite <- !str_app_assoc. now apply ends_ws_char.
    + now apply ends_ws_char.
Qed.

(** The four result tokens start and end with a non-whitespace character,
    and hold no space. *)
Lemma result_token_shape (r : string) :
  r = "1-0" \/ r = "0-1" \/ r = "1/2-1/2" \/ r = "*" ->
  has_sp r = false /\
  (exists q c, r = q ++ String c "" /\ is_ws c = false) /\
  (exists d r', r = String d r' /\ is_ws d = false).
Proof.
  intros [-> | [-> | [-> | ->]]]; (split; [reflexivity | split]);
    solve [ eexists _, _; split; [reflexivity | reflexivity]
          | exists "1-", "0"%char; split; reflexivity
          | exists "0-", "1"%char; split; reflexivity
          | exists "1/2-1/", "2"%char; split; reflexivity
          | exists "", "*"%char; split; reflexivity ].
Qed.

Lemma trim_before_result (y r w : string) :
  (y = "" \/ ends_ws y) -> all_ws w = true ->
  r = "1-0" \/ r = "0-1" \/ r = "1/2-1/2" \/ r = "*" ->
  exists pre, trim (y ++ r ++ w) = pre ++ r /\ (pre = "" \/ ends_ws pre).
Proof.
  intros Hy Hw Hr.
  destruct (result_token_shape r Hr) as (_ & (q & c & Hq & Hc) & (d & r' & Hd & Hdw)).
  unfold trim.
  replace (y ++ r ++ w) with ((y ++ q) ++ String c w)
    by (rewrite Hq, !str_app_assoc; reflexivity).
  rewrite trim_end_nonws by assumption.
  rewrite str_app_assoc, <- Hq, Hd.
  now apply trim_start_before.
Qed.

Lemma wrap_result (h r : string) (ml : Z) :
  r = "1-0" \/ r = "0-1" \/ r = "1/2-1/2" \/ r = "*" ->
  exists pre, wrap (h ++ " " ++ r) ml = pre ++ r /\ (pre = "" \/ ends_ws pre).
Proof.
  intros Hr. destruct (result_token_shape r Hr) as (Hsp & _ & _).
  unfold wrap. destruct (Z.leb ml 0).
  - replace (h ++ " " ++ r) with ((h ++ " ") ++ r ++ "")
      by now rewrite str_app_nil_r, str_app_assoc.
    apply trim_before_result; auto.
    right. now apply ends_ws_char.
  - unfold split_sp. replace (" " ++ r) with (String " " r) by reflexivity.
    rewrite split_sp_last by assumption.
    destruct (wrap_words_last ml r (split_sp_aux h "") [] "" (or_introl eq_refl))
      as (lines' & y & Hy & ->).
    destruct (trim_before_result y r " " Hy eq_refl Hr) as (pre & -> & Hpre).
    rewrite join_snoc. destruct lines' as [|l0 lines'].
    + exists pre. auto.
    + exists (join newline (l0 :: lines') ++ newline ++ pre).
      rewrite !str_app_assoc. split; [reflexivity|].
      right. destruct Hpre as [-> | Hpre].
      * rewrite str_app_nil_r. now apply ends_ws_char.
      * rewrite <- str_app_assoc. now apply ends_ws_app.
Qed.

Lemma renderHeader_ends (sk : bool) (t : string) (f : option string) :
  renderHeader sk t f = "" \/ ends_ws (renderHeader sk t f).
Proof.
  unfold renderHeader. destruct sk; simpl.
  - destruct f as [f|]; [|now left].
    destruct (negb _ && negb _); [|now left].
    right. rewrite <- !str_app_assoc. now apply ends_ws_char.
  - right. now apply ends_ws_char.
Qed.

Lemma renderGameComment_ends (sk : bool) (c : option string) (cmds : string) :
  renderGameComment sk c cmds = "" \/ ends_ws (renderGameComment sk c cmds).
Proof.
  unfold renderGameComment. destruct sk; [now left|].
  match goal with |- context [if Nat.ltb 0 (String.length ?x) then _ else _] =>
    destruct (Nat.ltb 0 (String.length x)) eqn:Hl end.
  - right. now apply ends_ws_char.
  - left. apply Nat.ltb_ge in Hl. destruct (_ ++ cmds); [reflexivity | simpl in Hl; lia].
Qed.

Lemma renderResult_token (result : option string) :
  let r := renderResult result in r = "1-0" \/ r = "0-1" \/ r = "1/2-1/2" \/ r = "*".
Proof.
  unfold renderResult. destruct result as [v|]; [|auto].
  destruct (String.eqb_spec v "1-0"); [subst; auto|].
  destruct (String.eqb_spec v "0-1"); [subst; auto|].
  destruct (String.eqb_spec v "1/2-1/2"); [subst; auto|]. simpl. auto.
Qed.

(** C10: the rendered PGN always ends with one result token from
    [{1-0, 0-1, 1/2-1/2, *}], preceded by whitespace or by nothing; a
    [Result] tag that is absent or holds any other value renders as [*]. *)
Theorem pgn_render_ends_with_result (skipHeader : bool) (headerText : string)
    (fenTag : option string) (skipComments : bool) (comment : option string)
    (commands history : string) (result : option string) (width : option Z) :
  let r := renderResult result in
  (r = "1-0" \/ r = "0-1" \/ r = "1/2-1/2" \/ r = "*") /\
  (match result with
   | Some v => v <> "1-0" -> v <> "0-1" -> v <> "1/2-1/2" -> r = "*"
   | None => r = "*"
   end) /\
  exists pre, pgn_render skipHeader headerText fenTag skipComments comment commands
                history result width = pre ++ r /\ (pre = "" \/ ends_ws pre).
Proof.
  intros r. split; [apply renderResult_token|]. split.
  - subst r. unfold renderResult. destruct result as [v|]; [|reflexivity]. intros H1 H2 H3.
    apply String.eqb_neq in H1, H2, H3. now rewrite H1, H2, H3.
  - unfold pgn_render.
    destruct (wrap_result history r
                (match width with Some w => if Z.eqb w 0 then (-1)%Z else w | None => (-1)%Z end)
                (renderResult_token result)) as (pre & Hw & Hpre).
    fold r. rewrite Hw.
    exists ((renderHeader skipHeader headerText fenTag ++ renderGameComment skipComments comment commands) ++ pre).
    split; [now rewrite !str_app_assoc|].
    apply empty_or_ends_ws_app; [|assumption].
    destruct Hpre as [-> | Hpre].
    + apply empty_or_ends_ws_app; [apply renderHeader_ends | apply renderGameComment_ends].
    + apply empty_or_ends_ws_app; [apply renderHeader_ends | apply renderGameComment_ends].
Qed.

(* ------------------------------------------------------------------ *)
(** ** FEN fields and null moves *)

Lemma split_ws_tok (t rest cur : string) :
  no_ws t = true -> split_ws_aux (t ++ rest) cur false = split_ws_aux rest (cur ++ t) false.
Proof.
  revert cur; induction t as [|c t IH]; intros cur H.
  - now rewrite str_app_nil_r.
  - simpl in H. apply andb_prop in H as [Hc H]. apply negb_true_iff in Hc.
    rewrite str_app_cons. simpl. rewrite Hc, IH by assumption.
    now rewrite str_app_assoc.
Qed.

Lemma split_ws_aux_ws (c : ascii) (x cur : string) :
  is_ws c = true -> split_ws_aux (String c x) cur false = cur :: split_ws_aux x "" true.
Proof. intros H. simpl. now rewrite H. Qed.

Lemma split_ws_aux_flag (c : ascii) (x cur : string) :
  is_ws c = false -> split_ws_aux (String c x) cur true = split_ws_aux (String c x) cur false.
Proof. intros H. simpl. now rewrite H. Qed.

Lemma join_cons_head (sep : string) (c : ascii) (u : string) (ts : list string) :
  exists z, join sep (String c u :: ts) = String c z.
Proof. destruct ts; eexists; reflexivity. Qed.

Lemma split_ws_join (t : string) (ts : list string) :
  Forall field_ok (t :: ts) -> split_ws_aux (join " " (t :: ts)) "" false = t :: ts.
Proof.
  revert t; induction ts as [|t' ts IH]; intros t Hall;
    inversion Hall as [|? ? [Hne Ht] Hrest]; subst.
  - replace (join " " [t]) with (t ++ "") by apply str_app_nil_r.
    rewrite split_ws_tok by assumption. reflexivity.
  - change (join " " (t :: t' :: ts)) with (t ++ " " ++ join " " (t' :: ts)).
    rewrite split_ws_tok by assumption.
    rewrite str_app_cons, !str_app_nil_l, split_ws_aux_ws by reflexivity.
    inversion Hrest as [|? ? [Hne' Ht'] _]; subst.
    destruct t' as [|c u]; [congruence|].
    destruct (join_cons_head " " c u ts) as [z Hz]. rewrite Hz.
    simpl in Ht'. apply andb_prop in Ht' as [Hc _]. apply negb_true_iff in Hc.
    rewrite split_ws_aux_flag by assumption.
    rewrite <- Hz, (IH (String c u) Hrest). reflexivity.
Qed.

(** [switchTurn] on a six-field FEN flips the side to move and clears the
    en-passant field. *)
Lemma switchTurn_fields (t0 t1 t2 t3 t4 t5 : string) :
  Forall field_ok [t0; t1; t2; t3; t4; t5] ->
  switchTurn (join " " [t0; t1; t2; t3; t4; t5]) =
    Ok (join " " [t0; if String.eqb t1 "w" then "b" else "w"; t2; "-"; t4; t5]).
Proof.
  intros H. unfold switchTurn, split_ws. rewrite split_ws_join by assumption.
  reflexivity.
Qed.

(** The king scan of [getNullMove] without a square filter finds both kings
    when the board holds a king of each colour. *)
Lemma scan_kings_found (color : string) (sqs : list (option piece)) (from to : option string)
    (own oth : piece) :
  pc_type own = KING -> pc_color own = color ->
  pc_type oth = KING -> pc_color oth <> color ->
  (from = None -> In (Some own) sqs) -> (to = None -> In (Some oth) sqs) ->
  (from = None \/ to = None) ->
  exists f t, scan_kings color None sqs from to = ScanFound f t.
Proof.
  intros Hot Hoc Hxt Hxc. revert from to.
  induction sqs as [|[p|] sqs IH]; intros from to Hf Ht Hft; simpl.
  - destruct Hft as [H | H]; [apply Hf in H | apply Ht in H]; destruct H.
  - destruct (String.eqb_spec (pc_type p) KING) as [Hk|Hk].
    + destruct (String.eqb_spec (pc_color p) color) as [Hc|Hc].
      * destruct to as [t|]; [eauto|].
        apply IH; [discriminate | | auto].
        intros _. destruct (Ht eq_refl) as [Heq | Hin]; [|assumption].
        inversion Heq; subst. congruence.
      * destruct from as [f|]; [eauto|].
        apply IH; [| discriminate | auto].
        intros _. destruct (Hf eq_refl) as [Heq | Hin]; [|assumption].
        inversion Heq; subst. congruence.
    + apply IH; auto.
      * intros H. destruct (Hf H) as [Heq | Hin]; [inversion Heq; subst; congruence | assumption].
      * intros H. destruct (Ht H) as [Heq | Hin]; [inversion Heq; subst; congruence | assumption].
  - apply IH; auto.
    + intros H. destruct (Hf H) as [Heq | Hin]; [discriminate | assumption].
    + intros H. destruct (Ht H) as [Heq | Hin]; [discriminate | assumption].
Qed.

Lemma getNullMove_reject (E : engine) (pos : string) (options : MovesOptions) :
  e_isCheck E pos = true \/ e_isGameOver E pos = true -> getNullMove E pos options = Ok None.
Proof.
  intros H. unfold getNullMove.
  destruct (_ || _); [reflexivity|].
  destruct H as [H|H]; rewrite H; [reflexivity | now rewrite orb_true_r].
Qed.

Lemma getNullMove_accept (E : engine) (pos : string) (t0 t1 t2 t3 t4 t5 : string) (own oth : piece) :
  e_fen E pos = join " " [t0; t1; t2; t3; t4; t5] ->
  Forall field_ok [t0; t1; t2; t3; t4; t5] ->
  e_isCheck E pos = false -> e_isGameOver E pos = false ->
  In (Some own) (concat (e_board E pos)) -> pc_type own = KING -> pc_color own = e_turn E pos ->
  In (Some oth) (concat (e_board E pos)) -> pc_type oth = KING -> pc_color oth <> e_turn E pos ->
  e_valid E (join " " [t0; if String.eqb t1 "w" then "b" else "w"; t2; "-"; t4; t5]) = true ->
  exists from to,
    getNullMove E pos noOptions =
      Ok (Some (mkJsMove (e_turn E pos) from to KING None None "Z0" "Z0" (e_fen E pos)
                 (join " " [t0; if String.eqb t1 "w" then "b" else "w"; t2; "-"; t4; t5]))).
Proof.
  intros Hfen Hf Hc Hg Hown Hot Hoc Hoth Hxt Hxc Hv.
  destruct (scan_kings_found (e_turn E pos) (concat (e_board E pos)) None None own oth)
    as (f & t & Hs); auto.
  exists f, t. unfold getNullMove. simpl. rewrite Hc, Hg. simpl.
  rewrite Hfen at 1. rewrite switchTurn_fields by assumption.
  rewrite Hs, Hv. rewrite Hfen. reflexivity.
Qed.

Lemma bind_ok {S A B} (m : MS S A) (k : A -> MS S B) (s s' : S) (a : A) :
  m s = (Ok a, s') -> bind m k s = k a s'.
Proof. intros H. unfold bind. now rewrite H. Qed.

Lemma bind_throw {S A B} (m : MS S A) (k : A -> MS S B) (s s' : S) (e : string) :
  m s = (Throw e, s') -> bind m k s = (Throw e, s').
Proof. intros H. unfold bind. now rewrite H. Qed.

(** [vm_load] reads the state and leaves it unchanged. *)
Lemma vm_load_state (E : engine) (previous : option nat) (s : St) :
  snd (vm_load E previous s) = s.
Proof.
  unfold vm_load, bind, get_mv, get, chess_load, ret, throw.
  destruct previous as [p|].
  - destruct (st_heap s !! p) as [pm|]; [|reflexivity]. destruct (e_valid E _); reflexivity.
  - destruct (String.eqb _ _); [reflexivity|]. destruct (e_valid E _); reflexivity.
Qed.

Lemma vm_load_prev (E : engine) (p : nat) (s s' : St) (pos : string) :
  vm_load E (Some p) s = (Ok pos, s') -> exists pm, st_heap s !! p = Some pm.
Proof.
  unfold vm_load, bind, get_mv. destruct (st_heap s !! p) as [pm|]; [eauto | discriminate].
Qed.

(** Once the position is loaded, [validateMove] is the chess.js answer for
    that position, made into a detached move; it leaves the state unchanged. *)
Lemma validateMove_loaded (E : engine) (c : candidate) (previous : option nat)
    (dnm strict : bool) (s : St) (pos : string) :
  vm_load E previous s = (Ok pos, s) ->
  exists ply,
    validateMove E c previous dnm strict s =
      (Ok (match (if isNullMove E c pos then getNullMove E pos (mkOpts dnm None None)
                  else e_move E pos c strict) with
           | Ok (Some jm) => Some (getMove ply jm)
           | _ => None
           end), s).
Proof.
  intros Hl. unfold validateMove. rewrite (bind_ok _ _ _ _ _ Hl).
  exists (match previous with
          | Some p => match st_heap s !! p with
                      | Some pm => jadd (mv_ply pm) (JNum 1) | None => JNaN end
          | None => st_setUpPly s end).
  unfold try_catch, lift, bind.
  destruct (if isNullMove E c pos then _ else _) as [[jm|]|e]; try reflexivity.
  destruct previous as [p|]; unfold get_mv, get, ret; [|reflexivity].
  destruct (vm_load_prev E p s s pos Hl) as [pm Hpm]. now rewrite Hpm.
Qed.

(** C9: a null move [Z0] is rejected ([getNullMove] and [validateMove]
    return null) from a position in check or after the game has ended;
    from any other position (both kings on the board, the switched FEN
    accepted by chess.js) it is accepted, and the resulting FEN is the
    prior one with the side to move flipped and the en-passant field set
    to [-], the other fields unchanged. *)
Theorem null_move_Z0 (E : engine) (pos : string) :
  ((e_isCheck E pos = true \/ e_isGameOver E pos = true) ->
     (forall options, getNullMove E pos options = Ok None) /\
     (forall previous dnm strict s, vm_load E previous s = (Ok pos, s) ->
        validateMove E (CSan "Z0") previous dnm strict s = (Ok None, s))) /\
  (forall (t0 t1 t2 t3 t4 t5 : string) (own oth : piece),
     e_fen E pos = join " " [t0; t1; t2; t3; t4; t5] ->
     Forall field_ok [t0; t1; t2; t3; t4; t5] ->
     e_isCheck E pos = false -> e_isGameOver E pos = false ->
     In (Some own) (concat (e_board E pos)) -> pc_type own = KING -> pc_color own = e_turn E pos ->
     In (Some oth) (concat (e_board E pos)) -> pc_type oth = KING -> pc_color oth <> e_turn E pos ->
     e_valid E (join " " [t0; if String.eqb t1 "w" then "b" else "w"; t2; "-"; t4; t5]) = true ->
     (exists from to,
        getNullMove E pos noOptions =
          Ok (Some (mkJsMove (e_turn E pos) from to KING None None "Z0" "Z0" (e_fen E pos)
                     (join " " [t0; if String.eqb t1 "w" then "b" else "w"; t2; "-"; t4; t5])))) /\
     (forall previous strict s, vm_load E previous s = (Ok pos, s) ->
        exists mv, validateMove E (CSan "Z0") previous false strict s = (Ok (Some mv), s) /\
          mv_fen mv = join " " [t0; if String.eqb t1 "w" then "b" else "w"; t2; "-"; t4; t5] /\
          mv_isNullMove mv = true)).
Proof.
  split.
  - intros H. split.
    + intros options. now apply getNullMove_reject.
    + intros previous dnm strict s Hl.
      destruct (validateMove_loaded E (CSan "Z0") previous dnm strict s pos Hl) as [ply ->].
      simpl. now rewrite getNullMove_reject.
  - intros t0 t1 t2 t3 t4 t5 own oth Hfen Hf Hc Hg Hown Hot Hoc Hoth Hxt Hxc Hv.
    destruct (getNullMove_accept E pos t0 t1 t2 t3 t4 t5 own oth) as (f & t & Hn); auto.
    split; [eauto|].
    intros previous strict s Hl.
    destruct (validateMove_loaded E (CSan "Z0") previous false strict s pos Hl) as [ply ->].
    simpl. change (mkOpts false None None) with noOptions. rewrite Hn.
    eexists. split; [reflexivity|]. split; reflexivity.
Qed.

(** The two cases of [null_move_Z0] from the start position: a null move is
    accepted there, and rejected when the engine reports check. *)
Lemma null_move_Z0_witness :
  (exists mv, validateMove toy (CSan "Z0") None false false st0 = (Ok (Some mv), st0) /\
     mv_fen mv = fen_start_null /\ mv_isNullMove mv = true) /\
  validateMove toy_in_check (CSan "Z0") None false false st0 = (Ok None, st0).
Proof.
  split.
  - destruct (null_move_Z0 toy FEN_start) as [_ Hacc].
    refine (proj2 (Hacc "rnbqkbnr/pppppppp/8/8/8/8/PPPPPPPP/RNBQKBNR" "w" "KQkq" "-" "0" "1"
                    (mkPiece "k" "w" "e1") (mkPiece "k" "b" "e8") _ _ _ _ _ _ _ _ _ _ _)
                  None false st0 _).
    + reflexivity.
    + repeat constructor; discriminate.
    + reflexivity.
    + reflexivity.
    + simpl. tauto.
    + reflexivity.
    + reflexivity.
    + simpl. tauto.
    + reflexivity.
    + discriminate.
    + reflexivity.
    + reflexivity.
  - destruct (null_move_Z0 toy_in_check FEN_start) as [Hrej _].
    apply (proj2 (Hrej (or_introl eq_refl)) None false false st0).
    reflexivity.
Defined.

(* ------------------------------------------------------------------ *)
(** ** validateMove *)

Lemma chess_validateMove_unfold (E : engine) (c : candidate) (a : jsarg) (dnm : option bool)
    (strict : bool) (s : St) :
  chess_validateMove E c a dnm strict s =
    validateMove E c (match a with Undef => st_cur s | Arg m => m end)
      (match dnm with Some b => b | None => st_disableNullMoves s end) strict s.
Proof. destruct a, dnm; reflexivity. Qed.

(** [validateMove] either throws the error of its initial [load], or
    returns the engine's answer made into a detached move; in both cases the
    state is unchanged. *)
Lemma validateMove_cases (E : engine) (c : candidate) (previous : option nat)
    (dnm strict : bool) (s : St) :
  (exists pos ply, vm_load E previous s = (Ok pos, s) /\
     validateMove E c previous dnm strict s =
       (Ok (match (if isNullMove E c pos then getNullMove E pos (mkOpts dnm None None)
                   else e_move E pos c strict) with
            | Ok (Some jm) => Some (getMove ply jm)
            | _ => None
            end), s)) \/
  (exists e, vm_load E previous s = (Throw e, s) /\
     validateMove E c previous dnm strict s = (Throw e, s)).
Proof.
  pose proof (vm_load_state E previous s) as Hs.
  destruct (vm_load E previous s) as [[pos|e] s0] eqn:Hl; simpl in Hs; subst s0.
  - left. destruct (validateMove_loaded E c previous dnm strict s pos Hl) as [ply Hv]. eauto.
  - right. exists e. split; [reflexivity|]. unfold validateMove. now apply bind_throw.
Qed.

(** C8 (amended): [validateMove] leaves the program state unchanged (the
    History's moves, every move's fields, the current move, the event log);
    a move it returns is detached ([next], [previous] and [variation]
    unset, no variations); it throws exactly when its initial [load] of
    the previous move's FEN or of the setup FEN throws, never for an
    illegal or malformed candidate; and once that position is loaded, it
    returns the Move built from chess.js's answer when chess.js accepts
    the candidate (a legal move), and null when chess.js returns null or
    throws (an illegal or malformed candidate). *)
Theorem validateMove_frame (E : engine) (c : candidate) (previousArg : jsarg)
    (dnm : option bool) (strict : bool) (s : St) :
  snd (chess_validateMove E c previousArg dnm strict s) = s /\
  (forall mv, fst (chess_validateMove E c previousArg dnm strict s) = Ok (Some mv) ->
     mv_next mv = None /\ mv_previous mv = None /\ mv_variation mv = None /\ mv_variations mv = []) /\
  (forall e, fst (chess_validateMove E c previousArg dnm strict s) = Throw e <->
     fst (vm_load E (match previousArg with Undef => st_cur s | Arg m => m end) s) = Throw e) /\
  (forall pos, vm_load E (match previousArg with Undef => st_cur s | Arg m => m end) s = (Ok pos, s) ->
     let answer := if isNullMove E c pos
                   then getNullMove E pos (mkOpts (match dnm with Some b => b | None => st_disableNullMoves s end) None None)
                   else e_move E pos c strict in
     (forall jm, answer = Ok (Some jm) ->
        exists ply, fst (chess_validateMove E c previousArg dnm strict s) = Ok (Some (getMove ply jm))) /\
     ((answer = Ok None \/ exists e, answer = Throw e) ->
        fst (chess_validateMove E c previousArg dnm strict s) = Ok None)).
Proof.
  rewrite chess_validateMove_unfold.
  refine ((fun H N => conj (proj1 H) (conj (proj1 (proj2 H)) (conj (proj2 (proj2 H)) N))) _ _).
  2:{ intros pos Hl. cbv zeta.
      destruct (validateMove_loaded E c _ (match dnm with Some b => b | None => st_disableNullMoves s end)
                  strict s pos Hl) as [ply ->].
      destruct (if isNullMove E c pos then _ else _) as [[jm|]|e]; split; simpl.
      - intros jm' H. injection H as <-. exists ply. reflexivity.
      - intros [H | [e H]]; discriminate.
      - intros jm H; discriminate.
      - reflexivity.
      - intros jm H; discriminate.
      - reflexivity. }
  destruct (validateMove_cases E c (match previousArg with Undef => st_cur s | Arg m => m end)
              (match dnm with Some b => b | None => st_disableNullMoves s end) strict s)
    as [(pos & ply & Hl & ->) | (e & Hl & ->)]; rewrite Hl; simpl.
  - split; [reflexivity|]. split.
    + intros mv Hmv. destruct (if isNullMove E c pos then _ else _) as [[jm|]|e];
        inversion Hmv; subst; simpl; auto.
    + intros e. split; discriminate.
  - split; [reflexivity|]. split; [discriminate|].
    intros e0. split; intros H; inversion H; reflexivity.
Qed.

Lemma validateMove_frame_witness :
  vm_load toy None (loaded []) = (Ok FEN_start, loaded []) /\
  (exists jm ply, e_move toy FEN_start (CSan "e4") false = Ok (Some jm) /\
     fst (chess_validateMove toy (CSan "e4") (Arg None) None false (loaded [])) = Ok (Some (getMove ply jm))) /\
  e_move toy FEN_start (CSan "a1") false = Throw "Invalid move: a1" /\
  fst (chess_validateMove toy (CSan "a1") (Arg None) None false (loaded [])) = Ok None.
Proof.
  assert (Hl : vm_load toy None (loaded []) = (Ok FEN_start, loaded [])) by (vm_compute; reflexivity).
  destruct (e_move toy FEN_start (CSan "e4") false) as [[jm|]|e] eqn:He;
    pose proof He as He2; vm_compute in He2; try discriminate.
  injection He2 as <-.
  assert (Hi : e_move toy FEN_start (CSan "a1") false = Throw "Invalid move: a1") by (vm_compute; reflexivity).
  split; [exact Hl|]. split; [|split; [exact Hi|]].
  - destruct (validateMove_frame toy (CSan "e4") (Arg None) None false (loaded [])) as (_ & _ & _ & H4).
    destruct (proj1 (H4 FEN_start Hl) _ He) as [ply Hply].
    eexists _, ply. split; [exact He | exact Hply].
  - destruct (validateMove_frame toy (CSan "a1") (Arg None) None false (loaded [])) as (_ & _ & _ & H4).
    exact (proj2 (H4 FEN_start Hl) (or_intror (ex_intro _ _ Hi))).
Defined.

(** C8 counterexample: after loading a game with a [FEN] tag that chess.js
    refuses and no [SetUp] tag (the facade then starts from the standard
    position, so loading succeeds), [validateMove] throws for the legal
    candidate [e4] instead of returning a move or null. *)
Lemma validateMove_throws_on_bad_setup :
  let s := snd (loadPgn toy [] "x" st0) in
  fst (loadPgn toy [] "x" st0) = Ok tt /\
  fst (chess_validateMove toy (CSan "e4") Undef None false s) = Throw "Invalid FEN: x".
Proof. vm_compute. split; reflexivity. Qed.

(* ------------------------------------------------------------------ *)
(** ** Repeated moves *)

(** C7 (code bug): on a new game, [move('e2e4', {previousMove: null})]
    called twice returns two different moves, and the second call adds a
    variation: chess.js (non-strict) accepts [e2e4] and records it with the
    SAN [e4], which [candidateMatches] compares against the raw string
    [e2e4]. The first call makes move 2 the first mainline move; the
    second makes move 3, also [e4], in the new variation array 4 of move 2.
    With the SAN [e4] itself, the second call returns the existing move. *)
Theorem move_twice_uci_duplicates :
  let r1 := chess_move toy (CSan "e2e4") (Arg None) false false false None (loaded []) in
  let r2 := chess_move toy (CSan "e2e4") (Arg None) false false false None (snd r1) in
  fst r1 = Ok (Some 2) /\ fst r2 = Ok (Some 3) /\
  option_map (fun m => jm_san (mv_js m)) (st_heap (snd r2) !! 2) = Some "e4" /\
  option_map (fun m => jm_san (mv_js m)) (st_heap (snd r2) !! 3) = Some "e4" /\
  option_map mv_variations (st_heap (snd r2) !! 2) = Some [4] /\
  st_arrs (snd r2) !! 4 = Some [3] /\
  (let q1 := chess_move toy (CSan "e4") (Arg None) false false false None (loaded []) in
   let q2 := chess_move toy (CSan "e4") (Arg None) false false false None (snd q1) in
   fst q1 = Ok (Some 2) /\ fst q2 = Ok (Some 2) /\
   option_map mv_variations (st_heap (snd q2) !! 2) = Some []).
Proof. vm_compute. repeat split; reflexivity. Qed.

(* ------------------------------------------------------------------ *)
(** ** Deletion with variations *)

(** C1 (code bug): in [1. e4 e5 (1... c5 2. Nf3) 2. Nf3] (moves 3, 4, 5 in
    the mainline array 2; c5 = 7 and its Nf3 = 8 in array 6, a variation of
    e5), [delete(e5)] moves c5 and Nf3 into the mainline array, but only c5
    gets [variation] set to it: move 8 is an element of the mainline array 2
    while its [variation] is still array 6, which also still holds it. *)
Theorem delete_leaves_stale_variation :
  let s := loaded game_branch in
  let r := chess_delete toy (Arg (Some 4)) s in
  st_arrs s !! 2 = Some [3; 4; 5] /\ st_arrs s !! 6 = Some [7; 8] /\
  option_map mv_variation (st_heap s !! 8) = Some (Some 6) /\
  fst r = Ok tt /\
  st_moves (snd r) = 2 /\
  st_arrs (snd r) !! 2 = Some [3; 7; 8] /\
  st_arrs (snd r) !! 6 = Some [7; 8] /\
  option_map mv_variation (st_heap (snd r) !! 7) = Some (Some 2) /\
  option_map mv_variation (st_heap (snd r) !! 8) = Some (Some 6).
Proof. vm_compute. repeat split; reflexivity. Qed.

(* ------------------------------------------------------------------ *)
(** ** Promotion *)

(** C2 counterexample: in [1. e4 (1. d4) e5] (e4 = 3 and e5 = 4 in the
    mainline array 2, d4 = 6 in array 5, the only variation of e4),
    [promoteVariation(d4)] with the default [intoMainline = false] does
    nothing: d4 is already the first variation of a mainline move, so
    [canPromoteVariation] is false. *)
Lemma promote_default_noop :
  fst (canPromoteVariation (Arg (Some 6)) false (loaded game_d4)) = Ok false /\
  promoteVariation (Arg (Some 6)) false (loaded game_d4) = (Ok tt, loaded game_d4).
Proof. vm_compute. split; reflexivity. Qed.

(** C2 (amended): in [1. e4 (1. d4) e5], [promoteVariation(d4, true)]
    makes d4 the first (and only) move of the mainline, and d4 gets a
    single variation, the array [e4, e5], whose moves refer to it. *)
Theorem promote_into_mainline_d4 :
  let r := promoteVariation (Arg (Some 6)) true (loaded game_d4) in
  fst r = Ok tt /\
  st_arrs (snd r) !! st_moves (snd r) = Some [6] /\
  option_map mv_variation (st_heap (snd r) !! 6) = Some (Some (st_moves (snd r))) /\
  (exists a, option_map mv_variations (st_heap (snd r) !! 6) = Some [a] /\
             st_arrs (snd r) !! a = Some [3; 4] /\
             option_map mv_variation (st_heap (snd r) !! 3) = Some (Some a) /\
             option_map mv_variation (st_heap (snd r) !! 4) = Some (Some a) /\
             option_map mv_previous (st_heap (snd r) !! 3) = Some None).
Proof. vm_compute. split; [reflexivity|]. split; [reflexivity|]. split; [reflexivity|].
  exists 7%nat. repeat split; reflexivity. Qed.

(* ------------------------------------------------------------------ *)
(** ** Illegal moves *)

Lemma bind_ro {A B} (m : M A) (k : A -> M B) (s : St) :
  (forall s, snd (m s) = s) -> (forall a s, snd (k a s) = s) -> snd (bind m k s) = s.
Proof.
  intros Hm Hk. unfold bind. specialize (Hm s).
  destruct (m s) as [[a|e] s'] eqn:E; simpl in *; subst; auto.
Qed.

Lemma ret_ro {A} (a : A) (s : St) : snd (ret a s) = s. Proof. reflexivity. Qed.
Lemma get_ro s : snd (get s) = s. Proof. reflexivity. Qed.
Lemma get_mv_ro id s : snd (get_mv id s) = s.
Proof. unfold get_mv. destruct (st_heap s !! id); reflexivity. Qed.
Lemma get_arr_ro a s : snd (get_arr a s) = s.
Proof. unfold get_arr. destruct (st_arrs s !! a); reflexivity. Qed.

Lemma nextMove_ro m s : snd (nextMove m s) = s.
Proof.
  destruct m; unfold nextMove, firstMove.
  - apply bind_ro; [apply get_mv_ro | intros; apply ret_ro].
  - apply bind_ro; [apply get_ro| intros; apply bind_ro; [apply get_arr_ro | intros; apply ret_ro]].
Qed.

Lemma candidateMatches_ro c m s : snd (candidateMatches c m s) = s.
Proof.
  destruct m; unfold candidateMatches; [|reflexivity].
  apply bind_ro; [apply get_mv_ro | intros; apply ret_ro].
Qed.

Lemma find_variation_ro c vs s : snd (find_variation c vs s) = s.
Proof.
  revert s; induction vs as [|v vs IH]; intros s; [reflexivity|]. cbn [find_variation].
  apply bind_ro; [apply get_arr_ro|]. intros [|x l] s'; [apply IH|].
  apply bind_ro; [apply candidateMatches_ro|]. intros [|] s''; [apply ret_ro|apply IH].
Qed.

Lemma getVariation_ro c m s : snd (getVariation c m s) = s.
Proof.
  unfold getVariation. apply bind_ro; [apply nextMove_ro|].
  intros [n|] s'; [|apply ret_ro].
  apply bind_ro; [apply get_mv_ro| intros; apply find_variation_ro].
Qed.

Lemma ro_pair {A} (m : M A) s a : snd (m s) = s -> fst (m s) = a -> m s = (a, s).
Proof. intros H1 H2. rewrite (surjective_pairing (m s)), H1, H2. reflexivity. Qed.

Lemma validateMove_ro (E : engine) c prev d strict s : snd (validateMove E c prev d strict s) = s.
Proof.
  destruct (validateMove_cases E c prev d strict s) as [(? & ? & _ & ->) | (? & _ & ->)]; reflexivity.
Qed.

(** When the candidate matches neither the next move nor the first move of
    one of its variations, [Chess.move] returns null if [existingOnly], and
    otherwise runs [addMove] inside its [try]. *)
Lemma chess_move_nomatch (E : engine) c pa strict eo sk dnm s nx :
  fst (nextMove (arg_value pa s) s) = Ok nx ->
  fst (candidateMatches c nx s) = Ok false ->
  fst (getVariation c (arg_value pa s) s) = Ok None ->
  chess_move E c pa strict eo sk dnm s =
   (if eo then (Ok None, s) else
    try_catch
      (let* r := addMove E c (arg_value pa s) (dnm_value dnm s) strict in
       if sk then ret (Some r)
       else let* _ := publishEvent (mkEvent NewVariation (Some r) (arg_value pa s)) in
            seek E (Some r))
      (fun _ => let* _ := publishEvent (mkEvent IllegalMove None (arg_value pa s)) in
                ret None) s).
Proof.
  intros H1 H2 H3.
  pose proof (ro_pair _ _ _ (nextMove_ro _ s) H1) as H1'.
  pose proof (ro_pair _ _ _ (candidateMatches_ro c nx s) H2) as H2'.
  pose proof (ro_pair _ _ _ (getVariation_ro c _ s) H3) as H3'.
  assert (Ha : arg_or_current pa s = (Ok (arg_value pa s), s)) by (destruct pa; reflexivity).
  unfold chess_move. rewrite (bind_ok _ _ _ _ _ Ha).
  assert (Hd : (match dnm with Some b => ret b | None => let* s := get in ret (st_disableNullMoves s) end) s
               = (Ok (dnm_value dnm s), s)) by (destruct dnm; reflexivity).
  rewrite (bind_ok _ _ _ _ _ Hd), (bind_ok _ _ _ _ _ H1'), (bind_ok _ _ _ _ _ H2'), (bind_ok _ _ _ _ _ H3').
  destruct eo; reflexivity.
Qed.

(** C6 counterexample: on a new game, the legal candidate [e4] with
    [existingOnly] makes [Chess.move] return null. *)
Lemma move_existing_only_legal_null :
  (exists mv, fst (validateMove toy (CSan "e4") None false false (loaded [])) = Ok (Some mv)) /\
  chess_move toy (CSan "e4") (Arg None) false true false None (loaded []) = (Ok None, loaded []).
Proof. vm_compute. split; [eexists; reflexivity | reflexivity]. Qed.

(* ------------------------------------------------------------------ *)
(** ** Illegal moves in parsed variations *)

Lemma st_rel_refl n s : st_rel n s s.
Proof. repeat split; auto. Qed.

Lemma st_rel_trans n s1 s2 s3 : st_rel n s1 s2 -> st_rel n s2 s3 -> st_rel n s1 s3.
Proof.
  intros (H1 & H2 & H3) (H4 & H5 & H6). split; [congruence|]. split; [lia|].
  intros id Hid. rewrite H6, H3 by exact Hid. reflexivity.
Qed.

Lemma ts_rel_refl n ts : ts_rel n ts ts.
Proof. destruct ts as [[s stk] mv]. split; [reflexivity|apply st_rel_refl]. Qed.

Lemma ts_rel_trans n t1 t2 t3 : ts_rel n t1 t2 -> ts_rel n t2 t3 -> ts_rel n t1 t3.
Proof.
  destruct t1 as [[s1 k1] m1], t2 as [[s2 k2] m2], t3 as [[s3 k3] m3]; simpl.
  intros [-> H1] [-> H2]. split; [reflexivity|]. eapply st_rel_trans; eauto.
Qed.

Lemma ts_rel_fresh n s stk mv ts' : ts_rel n (s, stk, mv) ts' -> st_fresh s <= st_fresh (fst (fst ts')).
Proof. destruct ts' as [[s' k'] m']. intros [_ (_ & H & _)]. exact H. Qed.

Lemma bind_st_rel {A B} n (m : M A) (k : A -> M B) s :
  st_rel n s (snd (m s)) ->
  (forall a s1, m s = (Ok a, s1) -> st_rel n s1 (snd (k a s1))) ->
  st_rel n s (snd (bind m k s)).
Proof.
  intros H1 H2. unfold bind. destruct (m s) as [[a|e] s1] eqn:Hm; simpl in *; [|exact H1].
  eapply st_rel_trans; [exact H1|]. eapply H2; reflexivity.
Qed.

Lemma bind_ts_rel {A B} n (m : MS TS A) (k : A -> MS TS B) ts :
  ts_rel n ts (snd (m ts)) ->
  (forall a ts1, m ts = (Ok a, ts1) -> ts_rel n ts ts1 -> ts_rel n ts1 (snd (k a ts1))) ->
  ts_rel n ts (snd (bind m k ts)).
Proof.
  intros H1 H2. unfold bind. destruct (m ts) as [[a|e] ts1] eqn:Hm; simpl in *; [|exact H1].
  eapply ts_rel_trans; [exact H1|]. eapply H2; auto.
Qed.

Lemma hist_ts_rel {A} n (m : M A) s stk mv :
  st_rel n s (snd (m s)) -> ts_rel n (s, stk, mv) (snd (hist m (s, stk, mv))).
Proof. unfold hist. destruct (m s) as [r s']. simpl. intros H. split; [reflexivity|exact H]. Qed.

Lemma hist_ok {A} (m : M A) s stk mv a ts1 :
  hist m (s, stk, mv) = (Ok a, ts1) -> exists s1, m s = (Ok a, s1) /\ ts1 = (s1, stk, mv).
Proof. unfold hist. destruct (m s) as [r s']. intros H. inversion H; subst. eauto. Qed.

Lemma get_mv_rel n id s : st_rel n s (snd (get_mv id s)).
Proof. rewrite get_mv_ro. apply st_rel_refl. Qed.

Lemma put_mv_rel n id m s : n <= id -> st_rel n s (snd (put_mv id m s)).
Proof.
  intros Hn. split; [reflexivity|]. split; [simpl; lia|].
  intros x Hx. simpl. rewrite lookup_insert_ne by lia. reflexivity.
Qed.

Lemma upd_mv_rel n id f s : n <= id -> st_rel n s (snd (upd_mv id f s)).
Proof.
  intros Hn. unfold upd_mv. apply bind_st_rel; [apply get_mv_rel|]. intros; now apply put_mv_rel.
Qed.

Lemma put_mv_same_vars n id m m0 s :
  st_heap s !! id = Some m0 -> mv_variations m = mv_variations m0 -> st_rel n s (snd (put_mv id m s)).
Proof.
  intros Hm Hv. split; [reflexivity|]. split; [simpl; lia|].
  intros x Hx. simpl. destruct (decide (x = id)) as [->|Hne].
  - rewrite lookup_insert, Hm. destruct (decide (id = id)); simpl; congruence.
  - rewrite lookup_insert_ne by congruence. reflexivity.
Qed.

Lemma new_mv_rel n m s : n <= st_fresh s -> st_rel n s (snd (new_mv m s)).
Proof.
  intros Hn. split; [reflexivity|]. split; [simpl; lia|].
  intros x Hx. simpl. rewrite lookup_insert_ne by lia. reflexivity.
Qed.

Lemma push_arr_rel n a xs s : st_rel n s (snd (push_arr a xs s)).
Proof.
  unfold push_arr. apply bind_st_rel; [rewrite get_arr_ro; apply st_rel_refl|].
  intros. split; [reflexivity|]. split; [simpl; lia|]. reflexivity.
Qed.

Lemma new_arr_rel n l s : st_rel n s (snd (new_arr l s)).
Proof. split; [reflexivity|]. split; [simpl; lia|]. reflexivity. Qed.

Lemma lift_state {S A} (r : res A) (s : S) : snd (lift r s) = s.
Proof. destruct r; reflexivity. Qed.

Lemma for_each_push_rel n (f : list PgnMove -> Frame) (pvs : list (list PgnMove)) ts :
  ts_rel n ts (snd (for_each (fun pv => push_frame (f pv)) pvs ts)).
Proof.
  revert ts; induction pvs as [|pv pvs IH]; intros ts; [apply ts_rel_refl|]. cbn [for_each].
  apply bind_ts_rel.
  - destruct ts as [[s stk] mv]. split; [reflexivity|apply st_rel_refl].
  - intros; apply IH.
Qed.

Lemma ts_rel_le n s stk mv ts' : ts_rel n (s, stk, mv) ts' -> n <= st_fresh s -> n <= st_fresh (fst (fst ts')).
Proof. intros H Hn. pose proof (ts_rel_fresh _ _ _ _ _ H). lia. Qed.

Lemma trav_moves_rel (E : engine) strict fen varr pms :
  forall pos prev ply n ts, n <= st_fresh (fst (fst ts)) ->
  ts_rel n ts (snd (trav_moves E strict fen varr pos prev ply pms ts)).
Proof.
  induction pms as [|pm rest IH]; intros pos prev ply n ts Hn; [apply ts_rel_refl|].
  cbn [trav_moves]. apply bind_ts_rel.
  { rewrite lift_state. apply ts_rel_refl. }
  intros r ts1 Hr _. pose proof (f_equal snd Hr) as Hr'. rewrite lift_state in Hr'. simpl in Hr'. subst ts1.
  destruct r as [jm|]; [|apply ts_rel_refl].
  destruct ts as [[s stk] mv]; simpl in Hn.
  apply bind_ts_rel; [apply hist_ts_rel, new_mv_rel; exact Hn|].
  intros id ts2 H2 R2. destruct (hist_ok _ _ _ _ _ _ H2) as (s2 & Hs2 & ->).
  unfold new_mv in Hs2. inversion Hs2; subst id s2. clear Hs2 H2.
  apply bind_ts_rel.
  { apply hist_ts_rel. destruct prev as [p|]; [|apply st_rel_refl].
    apply bind_st_rel; [apply upd_mv_rel; simpl; lia|]. intros _ s3 _.
    apply bind_st_rel; [apply get_mv_rel|]. intros pmv s4 Hg.
    unfold get_mv in Hg. destruct (st_heap s3 !! p) as [pm0|] eqn:Hp; inversion Hg; subst.
    destruct (mv_next pmv); [apply st_rel_refl|]. eapply put_mv_same_vars; [exact Hp|reflexivity]. }
  intros _ ts3 _ R3. pose proof (ts_rel_le _ _ _ _ _ R2 Hn) as Hn2.
  destruct ts3 as [[s3 stk3] mv3]. pose proof (ts_rel_le _ _ _ _ _ R3 Hn2) as Hn3. simpl in Hn2, Hn3.
  apply bind_ts_rel.
  { destruct (pm_variations pm) as [|pv pvs]; [apply ts_rel_refl|].
    apply bind_ts_rel.
    - apply hist_ts_rel. rewrite bind_ro; [apply st_rel_refl| apply get_arr_ro|].
      intros l s'. destruct (last l); [apply bind_ro; [apply get_mv_ro|intros; apply ret_ro]|apply ret_ro].
    - intros; apply for_each_push_rel. }
  intros _ ts4 _ R4. pose proof (ts_rel_le _ _ _ _ _ R4 Hn3) as Hn4.
  destruct ts4 as [[s4 stk4] mv4]. simpl in Hn4.
  apply bind_ts_rel; [apply hist_ts_rel, upd_mv_rel; simpl in *; lia|].
  intros _ ts5 _ R5. pose proof (ts_rel_le _ _ _ _ _ R5 Hn4) as Hn5.
  destruct ts5 as [[s5 stk5] mv5]. simpl in Hn5.
  apply bind_ts_rel; [apply hist_ts_rel, push_arr_rel|].
  intros _ ts6 _ R6. apply IH. pose proof (ts_rel_le _ _ _ _ _ R6 Hn5). exact H.
Qed.

Lemma upd_mv_throw id f s e s' : upd_mv id f s = (Throw e, s') -> s' = s.
Proof. unfold upd_mv, bind, get_mv, put_mv, modify. destruct (st_heap s !! id); congruence. Qed.

Lemma trav_frame_throw (E : engine) strict fr s stk mv e ts' :
  trav_frame E strict fr (s, stk, mv) = (Throw e, ts') -> ts_rel (st_fresh s) (s, stk, mv) ts'.
Proof.
  set (s1 := with_fresh (with_arrs s (<[st_fresh s := []]> (st_arrs s))) (S (st_fresh s))).
  assert (Hn : hist (new_arr []) (s, stk, mv) = (Ok (st_fresh s), (s1, stk, mv))) by reflexivity.
  assert (R1 : ts_rel (st_fresh s) (s, stk, mv) (s1, stk, mv)).
  { change (s1, stk, mv) with (snd (hist (new_arr []) (s, stk, mv))). apply hist_ts_rel, new_arr_rel. }
  unfold trav_frame. rewrite (bind_ok _ _ _ _ _ Hn).
  pose proof (trav_moves_rel E strict (fr_fen fr) (st_fresh s) (fr_pgnMoves fr) (fr_fen fr) (fr_parent fr)
                (fr_ply fr) (st_fresh s) (s1, stk, mv) ltac:(simpl; lia)) as R2.
  unfold bind at 1.
  destruct (trav_moves E strict (fr_fen fr) (st_fresh s) (fr_fen fr) (fr_parent fr) (fr_ply fr)
              (fr_pgnMoves fr) (s1, stk, mv)) as [[u|e'] ts2] eqn:Ht; simpl in R2.
  - destruct (fr_mainVariant fr) as [mv0|].
    + destruct ts2 as [[s2 stk2] mv2]. unfold hist.
      destruct (upd_mv mv0 _ s2) as [r s3] eqn:Hu. intros H; inversion H; subst.
      apply upd_mv_throw in Hu. subst. eapply ts_rel_trans; eauto.
    + destruct ts2 as [[s2 stk2] mv2]. discriminate.
  - intros H; inversion H; subst. eapply ts_rel_trans; eauto.
Qed.

Lemma trav_loop_skip (E : engine) strict n fr s stk mv e ts' :
  trav_frame E strict fr (s, stk, mv) = (Throw e, ts') ->
  trav_loop E strict (S n) (s, fr :: stk, mv) = trav_loop E strict n ts'.
Proof.
  intros H. cbn [trav_loop]. unfold bind at 1, try_catch.
  assert (Hp : pop_frame (s, fr :: stk, mv) = (Ok (Some fr), (s, stk, mv))) by reflexivity.
  rewrite (bind_ok _ _ _ _ _ Hp), H. reflexivity.
Qed.

Lemma trav_loop_ok (E : engine) strict n : forall ts, fst (trav_loop E strict n ts) = Ok tt.
Proof.
  induction n as [|n IH]; intros ts; [reflexivity|].
  destruct ts as [[s [|f stk]] mv]; [reflexivity|]. cbn [trav_loop]. unfold bind at 1.
  destruct (try_catch _ _ _) as [[u|e] ts1] eqn:Htc; [apply IH|].
  exfalso. unfold try_catch in Htc. destruct (bind pop_frame _ _) as [[?|?] ?]; discriminate.
Qed.

Lemma traverse_ok (E : engine) props strict s :
  e_valid E (fr_fen props) = true -> exists a s', traverse E props strict s = (Ok a, s').
Proof.
  intros Hv. unfold traverse.
  assert (Hn : new_arr [] s = (Ok (st_fresh s), with_fresh (with_arrs s (<[st_fresh s := []]> (st_arrs s))) (S (st_fresh s)))) by reflexivity.
  rewrite (bind_ok _ _ _ _ _ Hn). unfold bind at 1, chess_load. rewrite Hv. unfold ret.
  match goal with |- context [trav_loop E strict ?f ?ts] =>
    pose proof (trav_loop_ok E strict f ts) as Hl; destruct (trav_loop E strict f ts) as [r [[s' stk'] mv']] end.
  simpl in Hl. subst r. eauto.
Qed.

(** C3 (amended): when a move of a parsed variation is illegal, the frame
    that [History.traverse] was building is discarded as a whole: the
    failing frame leaves [History.moves], the local [moves] array and the
    [variations] of every move that existed before it unchanged, so none of
    the moves built before the failure is attached; the loop then goes on
    with the remaining frames; the loop never throws, and [traverse] throws
    only when chess.js refuses the initial FEN. *)
Theorem traverse_discards_failed_branch (E : engine) (strict : bool) :
  (forall fr s stk mv e s' stk' mv',
     trav_frame E strict fr (s, stk, mv) = (Throw e, (s', stk', mv')) ->
     mv' = mv /\ st_moves s' = st_moves s /\
     (forall id, id < st_fresh s ->
        option_map mv_variations (st_heap s' !! id) = option_map mv_variations (st_heap s !! id))) /\
  (forall n fr s stk mv e ts', trav_frame E strict fr (s, stk, mv) = (Throw e, ts') ->
     trav_loop E strict (S n) (s, fr :: stk, mv) = trav_loop E strict n ts') /\
  (forall n ts, fst (trav_loop E strict n ts) = Ok tt) /\
  (forall props s, e_valid E (fr_fen props) = true ->
     exists a s', traverse E props strict s = (Ok a, s')).
Proof.
  split; [|split; [|split]].
  - intros fr s stk mv e s' stk' mv' H.
    destruct (trav_frame_throw E strict fr s stk mv e _ H) as (-> & Hm & _ & Hv). auto.
  - intros n fr s stk mv e ts' H. eapply trav_loop_skip; exact H.
  - apply trav_loop_ok.
  - intros props s. apply traverse_ok.
Qed.

(** C3 counterexample: loading [1. e4 (1. d4 Qh4) 1... e5], whose variation
    has the legal [d4] followed by the illegal [Qh4], succeeds, but e4 has
    no variation: the branch is not kept truncated to [d4]. The move d4 was
    built (identity 6) and left unattached. *)
Lemma load_bad_branch_dropped :
  fst (loadPgn toy game_bad FEN_start st0) = Ok tt /\
  st_arrs (loaded game_bad) !! st_moves (loaded game_bad) = Some [3; 4] /\
  option_map mv_variations (st_heap (loaded game_bad) !! 3) = Some [] /\
  option_map (fun m => jm_san (mv_js m)) (st_heap (loaded game_bad) !! 6) = Some "d4".
Proof. vm_compute. repeat split; reflexivity. Qed.

(* ------------------------------------------------------------------ *)
(** ** Plies *)

Lemma ext_refl s : ext s s.
Proof. split; [reflexivity|]. split; [lia|]. intros id m H. eauto. Qed.

Lemma ext_trans s1 s2 s3 : ext s1 s2 -> ext s2 s3 -> ext s1 s3.
Proof.
  intros (A1 & B1 & C1) (A2 & B2 & C2). split; [congruence|]. split; [lia|].
  intros id m H. destruct (C1 _ _ H) as (m2 & H2 & P2 & Q2). destruct (C2 _ _ H2) as (m3 & H3 & P3 & Q3).
  exists m3. split; [exact H3|]. split; congruence.
Qed.

Lemma ply_link_ext s s' prev ply : ext s s' -> ply_link s prev ply -> ply_link s' prev ply.
Proof.
  intros (A & _ & C). destruct prev as [p|]; simpl.
  - intros (pm & Hp & ->). destruct (C _ _ Hp) as (pm' & Hp' & P & _). exists pm'. split; [exact Hp'|]. congruence.
  - intros ->. congruence.
Qed.

Lemma frames_ok_ext s s' stk : ext s s' -> frames_ok s stk -> frames_ok s' stk.
Proof. intros He H. eapply Forall_impl; [exact H|]. intros f. apply ply_link_ext, He. Qed.

Lemma safe_ro {A} (m : M A) s : snd (m s) = s -> safe_at m s.
Proof. intros H Hi. rewrite H. split; [exact Hi|apply ext_refl]. Qed.

Lemma bind_safe_at {A B} (m : M A) (k : A -> M B) s :
  safe_at m s -> (forall a s1, m s = (Ok a, s1) -> safe_at (k a) s1) -> safe_at (bind m k) s.
Proof.
  intros H1 H2 Hi. specialize (H1 Hi). unfold bind. destruct (m s) as [[a|e] s1] eqn:Hm; simpl in *.
  - destruct H1 as [I1 E1]. destruct (H2 a s1 eq_refl I1) as [I2 E2].
    split; [exact I2|]. eapply ext_trans; eauto.
  - exact H1.
Qed.

(** A heap update keeping the fields [ply] and [previous], at an existing
    identity. *)
Lemma put_mv_safe_at id m m0 s :
  st_heap s !! id = Some m0 -> mv_ply m = mv_ply m0 -> mv_previous m = mv_previous m0 ->
  safe_at (put_mv id m) s.
Proof.
  intros H0 P Q Hi.
  assert (He : ext s (snd (put_mv id m s))).
  { split; [reflexivity|]. split; [simpl; lia|]. intros x mx Hx. simpl.
    destruct (decide (x = id)) as [->|Hne].
    - rewrite lookup_insert. destruct (decide (id = id)); [|congruence].
      rewrite H0 in Hx. inversion Hx; subst. eauto.
    - rewrite lookup_insert_ne by congruence. eauto. }
  split; [|exact He]. destruct Hi as [Hp Hf]. split.
  - intros x mx Hx. simpl in Hx. destruct (decide (x = id)) as [->|Hne].
    + rewrite lookup_insert in Hx. destruct (decide (id = id)); [|congruence]. inversion Hx; subst.
      rewrite P, Q. apply (ply_link_ext s); [exact He|]. apply (Hp id). exact H0.
    + rewrite lookup_insert_ne in Hx by congruence. apply (ply_link_ext s); [exact He|]. eapply Hp; eauto.
  - intros x mx Hx. simpl in Hx. destruct (decide (x = id)) as [->|Hne].
    + simpl. eapply Hf; eauto.
    + rewrite lookup_insert_ne in Hx by congruence. simpl. eapply Hf; eauto.
Qed.

Lemma upd_mv_safe_at id f s :
  (forall x, mv_ply (f x) = mv_ply x /\ mv_previous (f x) = mv_previous x) -> safe_at (upd_mv id f) s.
Proof.
  intros Hf. unfold upd_mv. apply bind_safe_at; [apply safe_ro, get_mv_ro|].
  intros m s1 Hg. unfold get_mv in Hg. destruct (st_heap s !! id) eqn:Hs; inversion Hg; subst.
  eapply put_mv_safe_at; [exact Hs| apply Hf | apply Hf].
Qed.

Lemma arrs_safe_at (f : St -> St) s :
  st_heap (f s) = st_heap s -> st_setUpPly (f s) = st_setUpPly s -> st_fresh s <= st_fresh (f s) ->
  safe_at (modify f) s.
Proof.
  intros Hh Hu Hfr [Hp Hf]. simpl.
  assert (He : ext s (f s)).
  { split; [exact Hu|]. split; [exact Hfr|]. intros x m Hx. rewrite Hh. eauto. }
  split; [|exact He]. split.
  - intros x m Hx. rewrite Hh in Hx. eapply ply_link_ext; [exact He|]. eapply Hp; eauto.
  - intros x m Hx. rewrite Hh in Hx. pose proof (Hf _ _ Hx). lia.
Qed.

Lemma put_arr_safe_at a l s : safe_at (put_arr a l) s.
Proof. apply arrs_safe_at; simpl; auto. Qed.

Lemma push_arr_safe_at a xs s : safe_at (push_arr a xs) s.
Proof. unfold push_arr. apply bind_safe_at; [apply safe_ro, get_arr_ro|]. intros; apply put_arr_safe_at. Qed.

Lemma new_arr_safe_at l s : safe_at (new_arr l) s.
Proof.
  intros [Hp Hf]. simpl.
  assert (He : ext s (with_fresh (with_arrs s (<[st_fresh s:=l]> (st_arrs s))) (S (st_fresh s)))).
  { split; [reflexivity|]. split; [simpl; lia|]. intros x m Hx. simpl. eauto. }
  split; [|exact He]. split.
  - intros x m Hx. simpl in Hx. eapply ply_link_ext; [exact He|]. eapply Hp; eauto.
  - intros x m Hx. simpl in Hx. pose proof (Hf _ _ Hx). simpl. lia.
Qed.

Lemma tsafe_ro {A} (m : MS TS A) ts : snd (m ts) = ts -> tsafe_at m ts.
Proof. intros H Hi Hf. rewrite H. split; [exact Hi|]. split; [exact Hf|apply ext_refl]. Qed.

Lemma bind_tsafe_at {A B} (m : MS TS A) (k : A -> MS TS B) ts :
  tsafe_at m ts ->
  (forall a ts1, m ts = (Ok a, ts1) -> inv (fst (fst ts1)) -> frames_ok (fst (fst ts1)) (snd (fst ts1)) ->
     ext (fst (fst ts)) (fst (fst ts1)) -> tsafe_at (k a) ts1) ->
  tsafe_at (bind m k) ts.
Proof.
  intros H1 H2 Hi Hf. specialize (H1 Hi Hf). unfold bind.
  destruct (m ts) as [[a|e] ts1] eqn:Hm; simpl in *; [|exact H1].
  destruct H1 as (I1 & F1 & E1). destruct (H2 a ts1 eq_refl I1 F1 E1 I1 F1) as (I2 & F2 & E2).
  split; [exact I2|]. split; [exact F2|]. eapply ext_trans; eauto.
Qed.

Lemma hist_tsafe_at {A} (m : M A) s stk mv : safe_at m s -> tsafe_at (hist m) (s, stk, mv).
Proof.
  intros H Hi Hf. simpl in Hi, Hf. specialize (H Hi). unfold hist.
  destruct (m s) as [r s'] eqn:Hm. simpl in *. destruct H as [I E1].
  split; [exact I|]. split; [eapply frames_ok_ext; eauto|exact E1].
Qed.

Lemma for_each_push_tsafe (f : list PgnMove -> Frame) (pvs : list (list PgnMove)) :
  forall ts, (forall pv, ply_link (fst (fst ts)) (fr_parent (f pv)) (fr_ply (f pv))) ->
  tsafe_at (for_each (fun pv => push_frame (f pv)) pvs) ts.
Proof.
  induction pvs as [|pv pvs IH]; intros ts Hl; [apply tsafe_ro; reflexivity|]. cbn [for_each].
  apply bind_tsafe_at.
  - destruct ts as [[s stk] mv]. intros Hi Hf. simpl in *. split; [exact Hi|]. split; [|apply ext_refl].
    constructor; [apply Hl|exact Hf].
  - intros u ts1 H _ _ _. destruct ts as [[s stk] mv]. simpl in H. inversion H; subst. apply IH. exact Hl.
Qed.

Lemma tsafe_after {A} (k : MS TS A) s s2 stk mv :
  tsafe_at k (s2, stk, mv) -> inv s2 -> frames_ok s2 stk -> ext s s2 ->
  inv (fst (fst (snd (k (s2, stk, mv))))) /\
  frames_ok (fst (fst (snd (k (s2, stk, mv))))) (snd (fst (snd (k (s2, stk, mv))))) /\
  ext s (fst (fst (snd (k (s2, stk, mv))))).
Proof.
  intros T I F E. destruct (T I F) as (I' & F' & E'). split; [exact I'|]. split; [exact F'|]. eapply ext_trans; eauto.
Qed.

Lemma insert_new_inv s s' id m :
  inv s -> st_heap s !! id = None -> st_heap s' = <[id := m]> (st_heap s) ->
  st_setUpPly s' = st_setUpPly s -> st_fresh s <= st_fresh s' -> id < st_fresh s' ->
  ply_link s (mv_previous m) (mv_ply m) -> inv s' /\ ext s s'.
Proof.
  intros [Hp Hf] Hn Hh Hu Hfr Hid Hl.
  assert (He : ext s s').
  { split; [exact Hu|]. split; [exact Hfr|]. intros x mx Hx. rewrite Hh.
    rewrite lookup_insert_ne by congruence. eauto. }
  split; [|exact He]. split.
  - intros x mx Hx. rewrite Hh in Hx. destruct (decide (x = id)) as [->|Hne].
    + rewrite lookup_insert in Hx. destruct (decide (id = id)); [|congruence]. inversion Hx; subst.
      eapply ply_link_ext; eauto.
    + rewrite lookup_insert_ne in Hx by congruence. eapply ply_link_ext; [exact He|]. eapply Hp; eauto.
  - intros x mx Hx. rewrite Hh in Hx. destruct (decide (x = id)) as [->|Hne]; [exact Hid|].
    rewrite lookup_insert_ne in Hx by congruence. pose proof (Hf _ _ Hx). lia.
Qed.

Lemma fresh_none s : inv s -> st_heap s !! st_fresh s = None.
Proof.
  intros [_ Hf]. destruct (st_heap s !! st_fresh s) eqn:H; [|reflexivity].
  pose proof (Hf _ _ H). lia.
Qed.

Lemma create_ok s stk mv prev ply jm :
  inv s -> ply_link s prev ply ->
  hist (new_mv (getMove ply jm)) (s, stk, mv) =
    (Ok (st_fresh s), (with_fresh (with_heap s (<[st_fresh s := getMove ply jm]> (st_heap s))) (S (st_fresh s)), stk, mv)) /\
  exists s2,
    hist (match prev with
          | Some p =>
              let* _ := upd_mv (st_fresh s) (fun x => set_previous x (Some p)) in
              let* pmv := get_mv p in
              match mv_next pmv with
              | None => put_mv p (set_next pmv (Some (st_fresh s)))
              | Some _ => ret tt
              end
          | None => ret tt
          end) (with_fresh (with_heap s (<[st_fresh s := getMove ply jm]> (st_heap s))) (S (st_fresh s)), stk, mv)
      = (Ok tt, (s2, stk, mv)) /\
    inv s2 /\ ext s s2 /\ exists m, st_heap s2 !! st_fresh s = Some m /\ mv_ply m = ply.
Proof.
  intros Hi Hl. split; [reflexivity|].
  set (id := st_fresh s). set (s1 := with_fresh (with_heap s (<[id := getMove ply jm]> (st_heap s))) (S id)).
  pose proof (fresh_none s Hi) as Hn. fold id in Hn.
  destruct prev as [p|].
  - destruct Hl as (pm & Hpm & Hply).
    assert (Hpid : p <> id) by congruence.
    set (s1' := with_heap s1 (<[id := set_previous (getMove ply jm) (Some p)]> (st_heap s1))).
    assert (Hu : upd_mv id (fun x => set_previous x (Some p)) s1 = (Ok tt, s1')).
    { unfold upd_mv, bind, get_mv. simpl. rewrite lookup_insert. destruct (decide (id = id)); [reflexivity|congruence]. }
    assert (Hg : get_mv p s1' = (Ok pm, s1')).
    { unfold get_mv. simpl. rewrite !lookup_insert_ne by congruence. rewrite Hpm. reflexivity. }
    assert (I1 : inv s1' /\ ext s s1').
    { apply (insert_new_inv s s1' id (set_previous (getMove ply jm) (Some p))); auto.
      - simpl. rewrite insert_insert. destruct (decide (id = id)); [reflexivity|congruence].
      - simpl. lia.
      - simpl. exists pm. split; [exact Hpm|exact Hply]. }
    destruct I1 as [I1 E1].
    assert (Hs : safe_at (match mv_next pm with
                          | None => put_mv p (set_next pm (Some id))
                          | Some _ => ret tt
                          end) s1').
    { destruct (mv_next pm); [apply safe_ro; reflexivity|].
      apply (put_mv_safe_at p (set_next pm (Some id)) pm); [|reflexivity|reflexivity].
      simpl. rewrite !lookup_insert_ne by congruence. exact Hpm. }
    destruct (Hs I1) as [I2 E2].
    exists (snd ((match mv_next pm with
                  | None => put_mv p (set_next pm (Some id))
                  | Some _ => ret tt
                  end) s1')).
    split.
    + unfold hist. rewrite (bind_ok _ _ _ _ _ Hu), (bind_ok _ _ _ _ _ Hg).
      destruct (mv_next pm); reflexivity.
    + split; [exact I2|]. split; [eapply ext_trans; eauto|].
      assert (Hid : st_heap s1' !! id = Some (set_previous (getMove ply jm) (Some p))).
      { simpl. rewrite lookup_insert. destruct (decide (id = id)); [reflexivity|congruence]. }
      destruct E2 as (_ & _ & C2). destruct (C2 _ _ Hid) as (m' & Hm' & P & _).
      exists m'. split; [exact Hm'|]. rewrite P. reflexivity.
  - exists s1. split; [reflexivity|].
    destruct (insert_new_inv s s1 id (getMove ply jm)) as [I1 E1];
      [exact Hi|exact Hn|reflexivity|reflexivity|simpl; lia|simpl; lia|exact Hl|].
    split; [exact I1|]. split; [exact E1|]. exists (getMove ply jm). split; [|reflexivity].
    simpl. rewrite lookup_insert. destruct (decide (id = id)); [reflexivity|congruence].
Qed.

Lemma trav_moves_inv (E : engine) strict fen varr pms :
  forall pos prev ply ts, ply_link (fst (fst ts)) prev ply ->
  tsafe_at (trav_moves E strict fen varr pos prev ply pms) ts.
Proof.
  induction pms as [|pm rest IH]; intros pos prev ply ts Hl; [apply tsafe_ro; reflexivity|].
  cbn [trav_moves]. apply bind_tsafe_at; [apply tsafe_ro, lift_state|].
  intros r ts1 Hr _ _ _. pose proof (f_equal snd Hr) as Hr'. rewrite lift_state in Hr'. simpl in Hr'. subst ts1.
  destruct r as [jm|]; [|apply tsafe_ro; reflexivity].
  destruct ts as [[s stk] mv]. simpl in Hl. intros Hi Hfr. simpl in Hi, Hfr.
  destruct (create_ok s stk mv prev ply jm Hi Hl) as (H1 & s2 & H2 & I2 & E2 & m & Hm & Pm).
  rewrite (bind_ok _ _ _ _ _ H1). cbv beta. rewrite (bind_ok _ _ _ _ _ H2).
  apply tsafe_after; [|exact I2|eapply frames_ok_ext; eauto|exact E2].
  assert (Hl2 : ply_link s2 prev ply) by (eapply ply_link_ext; eauto).
  assert (Hid2 : ply_link s2 (Some (st_fresh s)) (jadd ply (JNum 1))) by (exists m; split; [exact Hm|congruence]).
  clear H1 H2 Hm Pm.
  apply bind_tsafe_at.
  - destruct (pm_variations pm) as [|pv pvs]; [apply tsafe_ro; reflexivity|].
    apply bind_tsafe_at.
    + apply hist_tsafe_at, safe_ro. apply bind_ro; [apply get_arr_ro|].
      intros l s'. destruct (last l); [apply bind_ro; [apply get_mv_ro|intros; apply ret_ro]|apply ret_ro].
    + intros lastFen ts3 _ _ _ E3. apply for_each_push_tsafe. intros pv'. simpl.
      eapply ply_link_ext; [exact E3|exact Hl2].
  - intros u ts4 _ _ _ E4. destruct ts4 as [[s4 stk4] mv4]. simpl in E4.
    apply bind_tsafe_at; [apply hist_tsafe_at, upd_mv_safe_at; intros; split; reflexivity|].
    intros u5 ts5 _ _ _ E5. destruct ts5 as [[s5 stk5] mv5]. simpl in E5.
    apply bind_tsafe_at; [apply hist_tsafe_at, push_arr_safe_at|].
    intros u6 ts6 _ _ _ E6. apply IH. simpl in E6.
    eapply ply_link_ext; [exact E6|]. eapply ply_link_ext; [exact E5|]. eapply ply_link_ext; [exact E4|exact Hid2].
Qed.

Lemma bind_safe_at_ext {A B} (m : M A) (k : A -> M B) s :
  safe_at m s -> (forall a s1, m s = (Ok a, s1) -> inv s1 -> ext s s1 -> safe_at (k a) s1) ->
  safe_at (bind m k) s.
Proof.
  intros H1 H2 Hi. specialize (H1 Hi). unfold bind. destruct (m s) as [[a|e] s1] eqn:Hm; simpl in *.
  - destruct H1 as [I1 E1]. destruct (H2 a s1 eq_refl I1 E1 I1) as [I2 E2].
    split; [exact I2|]. eapply ext_trans; eauto.
  - exact H1.
Qed.

Lemma trav_frame_inv (E : engine) strict fr ts :
  ply_link (fst (fst ts)) (fr_parent fr) (fr_ply fr) -> tsafe_at (trav_frame E strict fr) ts.
Proof.
  intros Hl. unfold trav_frame. destruct ts as [[s stk] mv].
  apply bind_tsafe_at; [apply hist_tsafe_at, new_arr_safe_at|].
  intros varr ts1 _ _ _ E1.
  apply bind_tsafe_at; [apply trav_moves_inv; eapply ply_link_ext; [exact E1|exact Hl]|].
  intros u ts2 _ _ _ _. destruct ts2 as [[s2 stk2] mv2].
  destruct (fr_mainVariant fr) as [mv0|].
  - apply hist_tsafe_at, upd_mv_safe_at. intros; split; reflexivity.
  - intros Hi Hf. simpl in *. split; [exact Hi|]. split; [exact Hf|apply ext_refl].
Qed.

Lemma try_catch_tsafe {A} (m : MS TS A) (h : string -> MS TS A) ts :
  tsafe_at m ts -> (forall e ts', m ts = (Throw e, ts') -> tsafe_at (h e) ts') -> tsafe_at (try_catch m h) ts.
Proof.
  intros H1 H2 Hi Hf. specialize (H1 Hi Hf). unfold try_catch.
  destruct (m ts) as [[a|e] ts1] eqn:Hm; simpl in *; [exact H1|].
  destruct H1 as (I1 & F1 & E1). destruct (H2 e ts1 eq_refl I1 F1) as (I2 & F2 & E2).
  split; [exact I2|]. split; [exact F2|]. eapply ext_trans; eauto.
Qed.

Lemma trav_loop_inv (E : engine) strict n : forall ts, tsafe_at (trav_loop E strict n) ts.
Proof.
  induction n as [|n IH]; intros ts; [apply tsafe_ro; reflexivity|].
  destruct ts as [[s [|f stk]] mv]; [apply tsafe_ro; reflexivity|]. cbn [trav_loop].
  apply bind_tsafe_at; [|intros; apply IH].
  apply try_catch_tsafe; [|intros; apply tsafe_ro; reflexivity].
  intros Hi Hf. simpl in Hi, Hf.
  assert (Hp : pop_frame (s, f :: stk, mv) = (Ok (Some f), (s, stk, mv))) by reflexivity.
  rewrite (bind_ok _ _ _ _ _ Hp). inversion Hf; subst.
  apply (trav_frame_inv E strict f (s, stk, mv)); assumption.
Qed.

Lemma traverse_inv (E : engine) props strict s :
  ply_link s (fr_parent props) (fr_ply props) -> safe_at (traverse E props strict) s.
Proof.
  intros Hl. unfold traverse. apply bind_safe_at_ext; [apply new_arr_safe_at|].
  intros moves s1 _ _ E1. apply bind_safe_at_ext.
  { apply safe_ro. unfold chess_load. destruct (e_valid E _); reflexivity. }
  intros u s2 _ _ E2. intros Hi.
  pose proof (trav_loop_inv E strict (frames_of (fr_pgnMoves props)) (s2, [props], moves)) as T.
  unfold tsafe_at in T.
  destruct (trav_loop E strict (frames_of (fr_pgnMoves props)) (s2, [props], moves)) as [r [[s' stk'] mv']].
  cbn [fst snd] in T. destruct T as (I' & _ & E'); [exact Hi| |].
  { constructor; [|constructor]. eapply ply_link_ext; [exact E2|]. eapply ply_link_ext; [exact E1|exact Hl]. }
  destruct r; simpl; split; assumption.
Qed.

Lemma inv_empty s : st_heap s = ∅ -> inv s.
Proof. intros H. split; intros id m Hm; rewrite H, lookup_empty in Hm; discriminate. Qed.

Lemma history_new_inv (E : engine) moves setUpFen strict s :
  st_heap s = ∅ -> inv (snd (history_new E moves setUpFen strict s)).
Proof.
  intros H0. unfold history_new.
  set (s1 := with_fresh (with_arrs s (<[st_fresh s := []]> (st_arrs s))) (S (st_fresh s))).
  assert (Hn : new_arr [] s = (Ok (st_fresh s), s1)) by reflexivity.
  rewrite (bind_ok _ _ _ _ _ Hn). cbv beta zeta.
  match goal with |- context [bind (modify ?f) ?k s1] =>
    assert (Hm : modify f s1 = (Ok tt, f s1)) by reflexivity; rewrite (bind_ok _ _ _ _ _ Hm) end.
  match goal with |- inv (snd (?m ?s2)) =>
    assert (I2 : inv s2) by (apply inv_empty; exact H0);
    enough (Hs : safe_at m s2) by (exact (proj1 (Hs I2))) end.
  destruct moves as [|pm pms].
  - apply bind_safe_at; [apply new_arr_safe_at|]. intros; apply arrs_safe_at; simpl; auto.
  - apply bind_safe_at; [apply traverse_inv; reflexivity|]. intros; apply arrs_safe_at; simpl; auto.
Qed.

Lemma validateMove_ply (E : engine) c prev d strict s mv :
  fst (validateMove E c prev d strict s) = Ok (Some mv) -> ply_link s prev (mv_ply mv).
Proof.
  pose proof (vm_load_state E prev s) as Hs.
  destruct (vm_load E prev s) as [[pos|e] s0] eqn:Hl; simpl in Hs; subst s0.
  2: { unfold validateMove. rewrite (bind_throw _ _ _ _ _ Hl). discriminate. }
  unfold validateMove. rewrite (bind_ok _ _ _ _ _ Hl). unfold try_catch, lift, bind.
  destruct (if isNullMove E c pos then _ else _) as [[jm|]|e]; simpl; try discriminate.
  destruct prev as [p|]; unfold get_mv, get, ret.
  - destruct (vm_load_prev E p s s pos Hl) as [pm Hpm]. rewrite Hpm. simpl.
    intros H; inversion H; subst. exists pm. split; [exact Hpm|reflexivity].
  - simpl. intros H; inversion H; reflexivity.
Qed.

Lemma new_mv_safe_at m s : ply_link s (mv_previous m) (mv_ply m) -> safe_at (new_mv m) s.
Proof.
  intros Hl Hi. apply (insert_new_inv s _ (st_fresh s) m);
    [exact Hi|apply fresh_none, Hi|reflexivity|reflexivity|simpl; lia|simpl; lia|exact Hl].
Qed.

Lemma get_mv_ok id s m s1 : get_mv id s = (Ok m, s1) -> st_heap s !! id = Some m /\ s1 = s.
Proof. unfold get_mv. destruct (st_heap s !! id); intros H; inversion H; subst; auto. Qed.

Ltac safe_auto :=
  repeat match goal with
  | |- safe_at (bind _ _) _ => apply bind_safe_at; [| intros ? ? ?]
  | |- safe_at (get_mv _) _ => apply safe_ro, get_mv_ro
  | |- safe_at (get_arr _) _ => apply safe_ro, get_arr_ro
  | |- safe_at (ret _) _ => apply safe_ro; reflexivity
  | |- safe_at get _ => apply safe_ro; reflexivity
  | |- safe_at (throw _) _ => apply safe_ro; reflexivity
  | |- safe_at (new_arr _) _ => apply new_arr_safe_at
  | |- safe_at (push_arr _ _) _ => apply push_arr_safe_at
  | |- safe_at (upd_mv _ _) _ => apply upd_mv_safe_at; intros; split; reflexivity
  end.

Lemma addMove_inv (E : engine) c prev d strict s :
  inv s -> inv (snd (addMove E c prev d strict s)).
Proof.
  intros Hi. enough (Hs : safe_at (addMove E c prev d strict) s) by exact (proj1 (Hs Hi)).
  unfold addMove. apply bind_safe_at; [apply safe_ro, validateMove_ro|].
  intros r s1 Hv. pose proof (f_equal snd Hv) as Hs1. rewrite validateMove_ro in Hs1. simpl in Hs1. subst s1.
  destruct r as [mv|]; [|apply safe_ro; reflexivity].
  apply bind_safe_at_ext.
  { apply new_mv_safe_at. simpl. apply (validateMove_ply E c prev d strict s). rewrite Hv. reflexivity. }
  intros id s2 _ _ _. destruct prev as [p|].
  - apply bind_safe_at; [apply safe_ro, get_mv_ro|]. intros pm s3 Hg.
    destruct (get_mv_ok _ _ _ _ Hg) as [Hpm ->].
    destruct (mv_next pm) as [nx|]; [safe_auto|].
    apply bind_safe_at; [apply (put_mv_safe_at p _ pm); [exact Hpm|reflexivity|reflexivity]|].
    intros. safe_auto. destruct (mv_variation pm); safe_auto.
  - safe_auto. match goal with |- safe_at (match ?l with _ => _ end) _ => destruct l end; safe_auto.
Qed.

(** C4 (amended): a move's ply is [previous.ply + 1] when it has a
    previous move and the History's [setUpPly] (not [setUpPly + 1]) when it
    has none. This holds for every move built by [new History(...)] (from
    an empty heap), for the move returned by [validateMove], and it is kept
    by [addMove] on a state where it holds. *)
Theorem ply_invariant (E : engine) :
  (forall moves setUpFen strict s, st_heap s = ∅ ->
     ply_ok (snd (history_new E moves setUpFen strict s)) /\
     fresh_ok (snd (history_new E moves setUpFen strict s))) /\
  (forall c prev d strict s mv, fst (validateMove E c prev d strict s) = Ok (Some mv) ->
     ply_link s prev (mv_ply mv)) /\
  (forall c prev d strict s, ply_ok s -> fresh_ok s ->
     ply_ok (snd (addMove E c prev d strict s)) /\ fresh_ok (snd (addMove E c prev d strict s))).
Proof.
  split; [|split].
  - intros moves setUpFen strict s H. exact (history_new_inv E moves setUpFen strict s H).
  - intros c prev d strict s mv H. exact (validateMove_ply E c prev d strict s mv H).
  - intros c prev d strict s Hp Hf. exact (addMove_inv E c prev d strict s (conj Hp Hf)).
Qed.

(** C4 counterexample: after loading [1. e4 e5 2. Nf3] from the standard
    position, whose [setUpPly] is 1, the first move e4 (identity 3) has no
    previous move and ply 1, not [setUpPly + 1]. *)
Lemma root_ply_is_setup_ply :
  st_setUpPly (loaded game_line) = JNum 1 /\
  option_map mv_previous (st_heap (loaded game_line) !! 3) = Some None /\
  option_map mv_ply (st_heap (loaded game_line) !! 3) = Some (JNum 1).
Proof. vm_compute. repeat split; reflexivity. Qed.

(* ------------------------------------------------------------------ *)
(** ** Deletion resets the current move *)

Lemma wfb_parts E s : wfb E s = true ->
  (forall x mx, st_heap s !! x = Some mx -> live s x = true -> move_wfb E s x mx = true) /\
  (forall x mx v, st_heap s !! x = Some mx -> In v (mv_variations mx) -> is_Some (st_arrs s !! v)) /\
  (forall a l x, st_arrs s !! a = Some l -> x ∈ l -> live s x = true -> owns s a x = true ->
     arr_wfb s a None l = true) /\
  main_wfb s = true /\ e_valid E (st_headerFen s) = true.
Proof.
  unfold wfb. rewrite !andb_true_iff, !forallb_forall. intros [[[H1 H2] H3] H4].
  repeat split; auto.
  - intros x mx Hx Hl. specialize (H1 (x, mx) ltac:(apply list_elem_of_In, elem_of_map_to_list, Hx)).
    simpl in H1. rewrite Hl in H1. apply andb_true_iff in H1 as [H1 _]. exact H1.
  - intros x mx v Hx Hv. specialize (H1 (x, mx) ltac:(apply list_elem_of_In, elem_of_map_to_list, Hx)).
    simpl in H1. apply andb_true_iff in H1 as [_ H1]. rewrite forallb_forall in H1.
    apply (bool_decide_eq_true_1 _ (H1 v Hv)).
  - intros a l x Ha Hx Hl Ho. specialize (H2 (a, l) ltac:(apply list_elem_of_In, elem_of_map_to_list, Ha)).
    simpl in H2. apply orb_true_iff in H2 as [H2|H2]; [|exact H2].
    apply negb_true_iff in H2. rewrite <- not_true_iff_false, existsb_exists in H2.
    exfalso. apply H2. exists x. split; [apply list_elem_of_In, Hx|]. rewrite Hl, Ho. reflexivity.
Qed.

Lemma in_own_array_facts s x mx : in_own_array s x mx = true ->
  exists a l, mv_variation mx = Some a /\ st_arrs s !! a = Some l /\ x ∈ l.
Proof.
  unfold in_own_array. destruct (mv_variation mx) as [a|]; [|discriminate].
  destruct (st_arrs s !! a) as [l|] eqn:Hl; [|discriminate]. intros H.
  apply bool_decide_eq_true in H. eauto.
Qed.

Lemma move_wfb_facts E s x mx : move_wfb E s x mx = true ->
  (exists z, mv_ply mx = JNum z) /\ ply_link s (mv_previous mx) (mv_ply mx) /\
  (exists a l, mv_variation mx = Some a /\ st_arrs s !! a = Some l /\ x ∈ l) /\
  (forall n, mv_next mx = Some n ->
     exists mn, st_heap s !! n = Some mn /\ mv_variation mn = mv_variation mx) /\
  (forall v, In v (mv_variations mx) -> mv_variation mx <> Some v /\
     exists h t mh, st_arrs s !! v = Some (h :: t) /\ st_heap s !! h = Some mh /\
                    mv_previous mh = mv_previous mx /\ mv_variation mh = Some v /\
                    mv_ply mh = mv_ply mx) /\
  e_valid E (mv_fen mx) = true.
Proof.
  unfold move_wfb. rewrite !andb_true_iff, forallb_forall.
  intros [[[[[H1 H2] H3] H4] H5] H6]. repeat split; auto.
  - destruct (mv_ply mx); [eauto | discriminate].
  - unfold ply_link. destruct (mv_previous mx) as [p|].
    + destruct (st_heap s !! p) as [pm|] eqn:Hp; [|discriminate].
      apply bool_decide_eq_true in H2. eauto.
    + apply bool_decide_eq_true in H2. exact H2.
  - apply in_own_array_facts, H3.
  - intros n Hn. rewrite Hn in H4.
    destruct (st_heap s !! n) as [mn|]; [|discriminate].
    apply bool_decide_eq_true in H4. eauto.
  - intros Hv. specialize (H5 v H). apply andb_true_iff in H5 as [H5 _].
    rewrite Hv in H5. rewrite bool_decide_eq_true_2 in H5 by reflexivity. discriminate.
  - specialize (H5 v H). apply andb_true_iff in H5 as [_ H5].
    destruct (st_arrs s !! v) as [[|h t]|] eqn:Hv; try discriminate.
    destruct (st_heap s !! h) as [mh|] eqn:Hh; [|discriminate].
    rewrite !andb_true_iff, !bool_decide_eq_true in H5. destruct H5 as [[H5 H7] H8]. eauto 10.
Qed.

Lemma arr_wfb_pos s a prev l : arr_wfb s a prev l = true ->
  forall i x, l !! i = Some x ->
  exists mx, st_heap s !! x = Some mx /\ mv_variation mx = Some a /\
    match i with
    | 0 => forall y, prev = Some y -> mv_previous mx = Some y
    | S j => exists y, l !! j = Some y /\ mv_previous mx = Some y
    end.
Proof.
  revert prev. induction l as [|x0 t IH]; intros prev H i x Hi; [discriminate|].
  simpl in H. destruct (st_heap s !! x0) as [mx0|] eqn:H0; [|discriminate].
  rewrite !andb_true_iff in H. destruct H as [[Hv Hp] Ht].
  apply bool_decide_eq_true in Hv.
  destruct i as [|i]; simpl in Hi.
  - injection Hi as <-. exists mx0. repeat split; auto.
    intros y ->. apply bool_decide_eq_true in Hp. exact Hp.
  - destruct (IH _ Ht i x Hi) as (mx & Hx & Hxv & Hxp). exists mx. repeat split; auto.
    destruct i as [|j]; simpl.
    + exists x0. split; auto.
    + exact Hxp.
Qed.


Lemma iter_prev_add s a b x :
  iter_prev s (a + b) x = match iter_prev s a x with Some y => iter_prev s b y | None => None end.
Proof.
  revert x. induction a as [|a IH]; intros x; simpl; [reflexivity|].
  destruct (st_heap s !! x) as [mx|]; [|reflexivity].
  destruct (mv_previous mx); [apply IH | reflexivity].
Qed.

Lemma ply_link_same s prev z1 z2 :
  ply_link s prev z1 -> ply_link s prev z2 -> z1 = z2.
Proof.
  destruct prev; simpl.
  - intros (pm & H1 & ->) (pm' & H2 & ->). congruence.
  - congruence.
Qed.

Lemma rooted_mono f s x : rooted f s x = true -> rooted (S f) s x = true.
Proof.
  revert x. induction f as [|f IH]; intros x H; [discriminate|].
  cbn [rooted] in *. destruct (st_heap s !! x) as [mx|]; [|discriminate].
  rewrite andb_true_iff in *. destruct H as [H1 H2]. split; auto.
  destruct (mv_previous mx); auto.
Qed.

Lemma live_prev s x mx p : live s x = true -> st_heap s !! x = Some mx ->
  mv_previous mx = Some p -> live s p = true.
Proof.
  unfold live. intros H Hx Hp. cbn [rooted] in H. rewrite Hx, Hp, andb_true_iff in H.
  apply rooted_mono, H.
Qed.

Lemma live_own s x mx : live s x = true -> st_heap s !! x = Some mx -> in_own_array s x mx = true.
Proof.
  unfold live. intros H Hx. cbn [rooted] in H. rewrite Hx, andb_true_iff in H. apply H.
Qed.

Lemma live_iter s k x y : iter_prev s k x = Some y -> live s x = true -> live s y = true.
Proof.
  revert x. induction k as [|k IH]; intros x Hk Hx; simpl in Hk; [congruence|].
  destruct (st_heap s !! x) as [mx|] eqn:Hmx; [|discriminate].
  destruct (mv_previous mx) as [p|] eqn:Hp; [|discriminate].
  exact (IH p Hk (live_prev s x mx p Hx Hmx Hp)).
Qed.

Section Chains.
Context (E : engine) (s : St) (Hwf : wfb E s = true).

Lemma wf_move x mx : st_heap s !! x = Some mx -> live s x = true -> move_wfb E s x mx = true.
Proof. apply (proj1 (wfb_parts E s Hwf)). Qed.

(** The array of a move of the tree is well formed. *)
Lemma wf_arr x mx : st_heap s !! x = Some mx -> live s x = true ->
  exists a l i, mv_variation mx = Some a /\ st_arrs s !! a = Some l /\ l !! i = Some x /\
    arr_wfb s a None l = true.
Proof.
  intros Hx Hl. destruct (in_own_array_facts _ _ _ (live_own s x mx Hl Hx)) as (a & l & Ha & Hal & Hin).
  pose proof Hin as Hin'. apply list_elem_of_lookup in Hin' as [i Hi].
  exists a, l, i. repeat split; auto.
  apply (proj1 (proj2 (proj2 (wfb_parts E s Hwf))) a l x Hal Hin Hl).
  unfold owns. rewrite Hx, Ha. apply bool_decide_eq_true_2. reflexivity.
Qed.

(** Along a chain of [previous] links of length [k], the ply drops by [k]. *)
Lemma chain_ply k x y my :
  live s x = true -> iter_prev s k x = Some y -> st_heap s !! y = Some my ->
  exists mx zx zy, st_heap s !! x = Some mx /\ mv_ply mx = JNum zx /\ mv_ply my = JNum zy /\
                   zx = (zy + Z.of_nat k)%Z.
Proof.
  revert x. induction k as [|k IH]; intros x Hlx Hk Hy.
  - injection Hk as ->. destruct (move_wfb_facts _ _ _ _ (wf_move _ _ Hy Hlx)) as [[z Hz] _].
    exists my, z, z. repeat split; auto. lia.
  - simpl in Hk. destruct (st_heap s !! x) as [mx|] eqn:Hx; [|discriminate].
    destruct (mv_previous mx) as [p|] eqn:Hp; [|discriminate].
    destruct (IH p (live_prev s x mx p Hlx Hx Hp) Hk Hy) as (mp & zp & zy & Hmp & Hzp & Hzy & Hzz).
    destruct (move_wfb_facts _ _ _ _ (wf_move _ _ Hx Hlx)) as [_ [Hl _]].
    rewrite Hp in Hl. destruct Hl as (pm & Hpm & Hply). rewrite Hmp in Hpm. injection Hpm as <-.
    rewrite Hzp in Hply. simpl in Hply. exists mx, (zp + 1)%Z, zy. repeat split; auto. lia.
Qed.

(** Inside a well-formed array, [previous] walks back one position. *)
Lemma arr_prev a l i x j :
  arr_wfb s a None l = true -> l !! i = Some x -> j <= i -> iter_prev s j x = l !! (i - j).
Proof.
  intros Ha. pose proof (arr_wfb_pos _ _ _ _ Ha) as Hpos.
  revert i x. induction j as [|j IH]; intros i x Hi Hj.
  - rewrite Nat.sub_0_r. simpl. auto.
  - destruct i as [|i]; [lia|].
    destruct (Hpos (S i) x Hi) as (mx & Hx & _ & y & Hy & Hp).
    simpl. rewrite Hx, Hp. apply IH; auto. lia.
Qed.

(** A chain from a move of array [a] to a move outside [a] leaves [a]
    through its first element, which has a [previous]. *)
Lemma leave_array a l i x k mid m :
  arr_wfb s a None l = true -> l !! i = Some x -> iter_prev s k x = Some mid ->
  st_heap s !! mid = Some m -> mv_variation m <> Some a ->
  exists h mh y, head l = Some h /\ i < k /\ iter_prev s i x = Some h /\
    st_heap s !! h = Some mh /\ mv_previous mh = Some y /\ iter_prev s (k - i - 1) y = Some mid.
Proof.
  intros Ha Hi Hk Hm Hv.
  pose proof (arr_wfb_pos _ _ _ _ Ha) as Hpos.
  destruct (Nat.lt_ge_cases i k) as [Hik|Hki].
  - assert (Hh : iter_prev s i x = l !! 0) by (rewrite (arr_prev a l i x i Ha Hi) by lia; f_equal; lia).
    destruct l as [|h t]; [discriminate|]. simpl in Hh.
    destruct (Hpos 0 h eq_refl) as (mh & Hmh & _).
    replace k with (i + S (k - i - 1)) in Hk by lia.
    rewrite iter_prev_add, Hh in Hk. simpl in Hk. rewrite Hmh in Hk.
    destruct (mv_previous mh) as [y|] eqn:Hy; [|discriminate].
    exists h, mh, y. repeat split; auto.
  - rewrite (arr_prev a l i x k Ha Hi Hki) in Hk.
    destruct (Hpos _ _ Hk) as (m' & Hm' & Hv' & _). congruence.
Qed.

(** A move whose [previous] chain reaches a move outside [History.moves]
    is not in [History.moves]. *)
Lemma below_not_main k y my B mid m :
  live s y = true -> iter_prev s k y = Some mid -> st_heap s !! y = Some my ->
  mv_variation my = Some B -> st_heap s !! mid = Some m -> mv_variation m <> Some B ->
  B <> st_moves s.
Proof.
  intros Hly Hk Hy HB Hm HmB ->.
  destruct (wf_arr _ _ Hy Hly) as (a & l & i & Ha & Hl & Hi & Hwa).
  rewrite HB in Ha. injection Ha as <-.
  destruct (leave_array _ _ _ _ _ _ _ Hwa Hi Hk Hm HmB) as (h & mh & y' & Hh & _ & _ & Hmh & Hp & _).
  pose proof (proj1 (proj2 (proj2 (proj2 (wfb_parts E s Hwf))))) as Hmain. unfold main_wfb in Hmain.
  rewrite Hl, andb_true_iff, Hh, Hmh in Hmain. destruct Hmain as [_ Hmain].
  apply bool_decide_eq_true in Hmain. congruence.
Qed.

End Chains.

(** A move of the chain to [mid] is not a move with the ply of [mid] other
    than [mid]. *)
Lemma chain_not_r E s k c mid m x mr : wfb E s = true -> live s c = true ->
  iter_prev s k c = Some mid -> st_heap s !! mid = Some m -> st_heap s !! x = Some mr ->
  mv_ply mr = mv_ply m -> x <> mid -> c <> x.
Proof.
  intros Hwf Hlc Hk Hm Hx Hp Hne ->.
  destruct (chain_ply E s Hwf k x mid m Hlc Hk Hm) as (mx & zx & zy & Hmx & Hzx & Hzy & Hz).
  rewrite Hx in Hmx. injection Hmx as <-.
  rewrite Hp, Hzy in Hzx. injection Hzx as ->.
  destruct k; [simpl in Hk; congruence | lia].
Qed.

(** [n] distinct keys of a map bound its size. *)
Lemma size_ge_inj {V} (h : gmap nat V) (g : nat -> nat) n :
  (forall j, j < n -> is_Some (h !! g j)) ->
  (forall i j, i < n -> j < n -> g i = g j -> i = j) -> n <= size h.
Proof.
  revert h. induction n as [|n IH]; intros h Hin Hinj; [lia|].
  assert (Hn : is_Some (h !! g n)) by (apply Hin; lia).
  assert (n <= size (delete (g n) h)).
  { apply IH.
    - intros j Hj. rewrite lookup_delete_ne; [apply Hin; lia|].
      intros Heq. specialize (Hinj n j ltac:(lia) ltac:(lia) Heq). lia.
    - intros i j Hi Hj. apply Hinj; lia. }
  rewrite map_size_delete_Some in H by exact Hn.
  destruct Hn as [v Hv]. assert (size h <> 0).
  { intros H0. apply map_size_empty_inv in H0. subst. rewrite lookup_empty in Hv. discriminate. }
  lia.
Qed.

(** A chain of [k] [previous] links visits [k + 1] distinct moves. *)
Lemma chain_fuel E s (h : gmap nat Move) k c mid m : wfb E s = true -> live s c = true ->
  iter_prev s k c = Some mid -> st_heap s !! mid = Some m ->
  (forall x mx, st_heap s !! x = Some mx -> is_Some (h !! x)) -> k < S (size h).
Proof.
  intros Hwf Hlc Hk Hm Hh.
  set (g := fun j => match iter_prev s j c with Some x => x | None => 0 end).
  assert (Hg : forall j, j <= k -> exists mx zx zm, iter_prev s j c = Some (g j) /\
                 st_heap s !! g j = Some mx /\ mv_ply mx = JNum zx /\ mv_ply m = JNum zm /\
                 zx = (zm + Z.of_nat (k - j))%Z).
  { intros j Hj. replace k with (j + (k - j)) in Hk by lia. rewrite iter_prev_add in Hk.
    unfold g. destruct (iter_prev s j c) as [x|] eqn:Ej; [|discriminate].
    destruct (chain_ply E s Hwf (k - j) x mid m (live_iter s j c x Ej Hlc) Hk Hm) as (mx & zx & zm & Hmx & H1 & H2 & H3).
    exists mx, zx, zm. auto. }
  enough (S k <= size h) by lia.
  apply (size_ge_inj h g).
  - intros j Hj. destruct (Hg j ltac:(lia)) as (mx & _ & _ & _ & Hmx & _). eapply Hh, Hmx.
  - intros i j Hi Hj Heq.
    destruct (Hg i ltac:(lia)) as (mi & zi & zm & _ & Hmi & Hzi & Hzm & Hi').
    destruct (Hg j ltac:(lia)) as (mj & zj & zm' & _ & Hmj & Hzj & Hzm' & Hj').
    rewrite Heq, Hmj in Hmi. injection Hmi as ->. rewrite Hzm in Hzm'. injection Hzm' as <-.
    rewrite Hzi in Hzj. injection Hzj as ->. lia.
Qed.

Section Climb.
Context (E : engine) (s s1 : St) (mid : nat) (m : Move) (A : nat) (r : option nat).
Hypothesis Hwf : wfb E s = true.
Hypothesis Hm : st_heap s !! mid = Some m.
Hypothesis HA : mv_variation m = Some A.
Hypothesis Hpost : del_post s s1 A r.
Hypothesis Hr : forall x, r = Some x ->
  exists mr, st_heap s !! x = Some mr /\ mv_ply mr = mv_ply m /\ x <> mid.
Hypothesis HAms : A <> st_moves s.
Hypothesis Hcur : isInMainline (st_cur s1) s1 = (Ok false, s1).

(** A move on a chain to [mid] keeps its fields in [s1]. *)
Lemma member_kept k c mc : live s c = true -> iter_prev s k c = Some mid -> st_heap s !! c = Some mc ->
  exists mc1, st_heap s1 !! c = Some mc1 /\ mv_previous mc1 = mv_previous mc /\
              mv_variation mc1 = mv_variation mc.
Proof.
  intros Hlc Hk Hc. destruct Hpost as [Hh _].
  destruct (Hh c mc Hc) as (mc1 & H1 & H2 & _ & _ & H5). exists mc1. repeat split; auto.
  rewrite H5. destruct r as [x|] eqn:Er; [|reflexivity].
  destruct (Hr x eq_refl) as (mr & Hx & Hp & Hne).
  pose proof (chain_not_r E s k c mid m x mr Hwf Hlc Hk Hm Hx Hp Hne) as Hcx.
  simpl. destruct (Nat.eqb_spec x c); [congruence | reflexivity].
Qed.

(** [isInMainline] on a move of the heap. *)
Lemma isInMainline_some t x mx : st_heap t !! x = Some mx ->
  isInMainline (Some x) t = (Ok (opt_eqb (mv_variation mx) (Some (st_moves t))), t).
Proof. intros H. unfold isInMainline, bind, get_mv, get, ret. rewrite H. reflexivity. Qed.

(** The arrays met by the loop of [isDescendant] on the way up to [A] are
    not [History.moves]. *)
Lemma first_not_main k y my B :
  live s y = true -> iter_prev s k y = Some mid -> st_heap s !! y = Some my ->
  mv_variation my = Some B -> isInMainline_first B s1 = (Ok false, s1).
Proof.
  intros Hly Hk Hy HB. destruct Hpost as (_ & Harr & (l1 & Hl1 & Hhd) & Hms & _ & _).
  unfold isInMainline_first, bind, get_arr.
  destruct (decide (B = A)) as [->|Hne].
  - rewrite Hl1. destruct (head l1) as [h|] eqn:Eh.
    + destruct (Hhd h eq_refl) as (mh1 & Hmh1 & Hv). rewrite (isInMainline_some _ _ _ Hmh1), Hv, Hms.
      simpl. destruct (Nat.eqb_spec A (st_moves s)); [congruence | reflexivity].
    + exact Hcur.
  - rewrite (Harr B Hne).
    destruct (wf_arr E s Hwf _ _ Hy Hly) as (a & l & i & Ha & Hl & Hi & Hwa).
    rewrite HB in Ha. injection Ha as <-. rewrite Hl.
    assert (HmA : mv_variation m <> Some B) by congruence.
    destruct (leave_array s B l i y k mid m Hwa Hi Hk Hm HmA)
      as (h & mh & y' & Hh & _ & Hih & Hmh & Hp & Hk').
    rewrite Hh.
    assert (Hkh : iter_prev s (S (k - i - 1)) h = Some mid) by (simpl; rewrite Hmh, Hp; exact Hk').
    destruct (member_kept _ _ _ (live_iter s i y h Hih Hly) Hkh Hmh) as (mh1 & Hmh1 & _ & Hv1).
    rewrite (isInMainline_some _ _ _ Hmh1), Hv1, Hms.
    pose proof (arr_wfb_pos _ _ _ _ Hwa) as Hpos.
    destruct l as [|h0 t]; [discriminate|]. simpl in Hh. injection Hh as ->.
    destruct (Hpos 0 h eq_refl) as (mh' & Hmh' & Hvh & _). rewrite Hmh in Hmh'. injection Hmh' as <-.
    rewrite Hvh. simpl. destruct (Nat.eqb_spec B (st_moves s)) as [HBm|]; [|reflexivity].
    pose proof (proj1 (proj2 (proj2 (proj2 (wfb_parts E s Hwf))))) as Hmain. unfold main_wfb in Hmain.
    rewrite <- HBm, Hl, andb_true_iff in Hmain. destruct Hmain as [_ Hmain].
    simpl in Hmain. rewrite Hmh in Hmain.
    apply bool_decide_eq_true in Hmain. congruence.
Qed.

(** The loop of [isDescendant], started from the array of a move whose
    [previous] chain reaches [mid] within [k < fuel] steps, reaches [A]. *)
Lemma climb f : forall k c mc B, k < f -> live s c = true -> iter_prev s k c = Some mid ->
  st_heap s !! c = Some mc -> mv_variation mc = Some B ->
  desc_loop f (Some A) (Some B) s1 = (Ok true, s1).
Proof.
  induction f as [|f IH]; intros k c mc B Hkf Hlc Hk Hc HB; [lia|].
  cbn [desc_loop]. change (opt_eqb (Some B) (Some A)) with (Nat.eqb B A).
  destruct (Nat.eqb_spec B A) as [->|Hne]; [reflexivity|].
  destruct Hpost as (_ & Harr & _ & _ & _ & _).
  destruct (wf_arr E s Hwf _ _ Hc Hlc) as (a & l & i & Ha & Hl & Hi & Hwa).
  rewrite HB in Ha. injection Ha as <-.
  assert (HmA : mv_variation m <> Some B) by congruence.
  destruct (leave_array s B l i c k mid m Hwa Hi Hk Hm HmA)
    as (h & mh & y & Hh & Hik & Hih & Hmh & Hp & Hk').
  assert (Hkh : iter_prev s (S (k - i - 1)) h = Some mid) by (simpl; rewrite Hmh, Hp; exact Hk').
  pose proof (live_iter s i c h Hih Hlc) as Hlh.
  pose proof (live_prev s h mh y Hlh Hmh Hp) as Hly.
  destruct (member_kept _ _ _ Hlh Hkh Hmh) as (mh1 & Hmh1 & Hp1 & _).
  destruct (move_wfb_facts _ _ _ _ (wf_move E s Hwf _ _ Hmh Hlh)) as (_ & Hlink & _).
  rewrite Hp in Hlink. destruct Hlink as (my & Hmy & _).
  destruct (move_wfb_facts _ _ _ _ (wf_move E s Hwf _ _ Hmy Hly)) as (_ & _ & (By & ly & HBy & _) & _).
  destruct (member_kept _ _ _ Hly Hk' Hmy) as (my1 & Hmy1 & _ & Hvy1).
  rewrite (bind_ok _ _ s1 s1 l) by (unfold deref_arr, get_arr; rewrite (Harr B Hne), Hl; reflexivity).
  cbv beta. rewrite Hh. cbv iota.
  rewrite (bind_ok _ _ s1 s1 (Some By)); cycle 1.
  { unfold bind, get_mv. rewrite Hmh1, Hp1, Hp. unfold variation_of, bind, get_mv, ret.
    rewrite Hmy1, Hvy1, HBy. reflexivity. }
  cbv beta iota.
  rewrite (bind_ok _ _ s1 s1 false) by exact (first_not_main _ _ _ _ Hly Hk' Hmy HBy).
  cbv beta iota. apply (IH (k - i - 1) y my By); auto. lia.
Qed.

End Climb.

(** After the structural part of [delete], [isDescendant(move)] holds
    whenever the current move was [move] or a descendant of it. *)
Lemma isDescendant_post E s s1 mid m A r c k :
  wfb E s = true -> st_heap s !! mid = Some m -> mv_variation m = Some A -> del_post s s1 A r ->
  (forall x, r = Some x ->
     exists mr, st_heap s !! x = Some mr /\ mv_ply mr = mv_ply m /\ x <> mid) ->
  st_cur s = Some c -> live s c = true -> iter_prev s k c = Some mid ->
  isDescendant mid Undef s1 = (Ok true, s1).
Proof.
  intros Hwf Hm HA Hpost Hr Hc Hlc Hk.
  pose proof Hpost as (Hh & _ & _ & Hms & Hcur & _).
  unfold isDescendant.
  idtac.
  rewrite (bind_ok _ _ s1 s1 (Some c))
    by (unfold arg_or_current, bind, get, ret; rewrite Hcur, Hc; reflexivity).
  cbv beta iota. destruct (Nat.eqb_spec mid c) as [->|Hne]; [reflexivity|].
  destruct (chain_ply E s Hwf k c mid m Hlc Hk Hm) as (mc & zc & zm & Hmc & Hzc & Hzm & Hz).
  pose proof (live_iter s k c mid Hk Hlc) as Hlm.
  destruct (member_kept E s s1 mid m A r Hwf Hm Hpost Hr k c mc Hlc Hk Hmc) as (mc1 & Hmc1 & _ & Hvc1).
  destruct (member_kept E s s1 mid m A r Hwf Hm Hpost Hr 0 mid m Hlm eq_refl Hm) as (m1 & Hm1 & _ & Hvm1).
  destruct (Hh c mc Hmc) as (mc1' & Hmc1' & _ & Hpc & _). rewrite Hmc1 in Hmc1'. injection Hmc1' as <-.
  destruct (Hh mid m Hm) as (m1' & Hm1' & _ & Hpm & _). rewrite Hm1 in Hm1'. injection Hm1' as <-.
  rewrite (bind_ok _ _ s1 s1 mc1) by (unfold get_mv; rewrite Hmc1; reflexivity). cbv beta.
  rewrite (bind_ok _ _ s1 s1 m1) by (unfold get_mv; rewrite Hm1; reflexivity). cbv beta.
  rewrite Hpc, Hpm, Hzc, Hzm. unfold jlt.
  replace (Z.ltb zc zm) with false by (symmetry; apply Z.ltb_ge; lia). cbv iota.
  rewrite (bind_ok _ _ s1 s1 (opt_eqb (mv_variation m1) (Some (st_moves s1))))
    by exact (isInMainline_some _ _ _ Hm1).
  cbv beta. rewrite Hvm1, HA, Hms.
  change (opt_eqb (Some A) (Some (st_moves s))) with (Nat.eqb A (st_moves s)).
  destruct (Nat.eqb_spec A (st_moves s)) as [HAm|HAm]; [reflexivity|]. cbv iota.
  destruct (move_wfb_facts _ _ _ _ (wf_move E s Hwf _ _ Hmc Hlc)) as (_ & _ & (Bc & _ & HBc & _) & _).
  assert (HBm : Bc <> st_moves s).
  { destruct (decide (Bc = A)) as [->|HBA]; [exact HAm|].
    apply (below_not_main E s Hwf k c mc Bc mid m Hlc Hk Hmc HBc Hm). congruence. }
  assert (Hb2 : isInMainline (Some c) s1 = (Ok false, s1)).
  { rewrite (isInMainline_some _ _ _ Hmc1), Hvc1, HBc, Hms. simpl.
    destruct (Nat.eqb_spec Bc (st_moves s)); [congruence | reflexivity]. }
  rewrite (bind_ok _ _ s1 s1 false) by exact Hb2. cbv beta iota.
  rewrite (bind_ok _ _ s1 s1 s1) by reflexivity. cbv beta.
  rewrite Hvc1, HBc.
  apply (climb E s s1 mid m A r Hwf Hm HA Hpost Hr HAm) with (k := k) (c := c) (mc := mc); auto.
  - rewrite Hcur, Hc. exact Hb2.
  - apply (chain_fuel E s _ k c mid m Hwf Hlc Hk Hm).
    intros x mx Hx. destruct (Hh x mx Hx) as (mx1 & Hx1 & _). eauto.
Qed.


(** The state accessors on present entries. *)
Lemma get_mv_some t id mm : st_heap t !! id = Some mm -> get_mv id t = (Ok mm, t).
Proof. intros H. unfold get_mv. rewrite H. reflexivity. Qed.
Lemma get_arr_some t a l : st_arrs t !! a = Some l -> get_arr a t = (Ok l, t).
Proof. intros H. unfold get_arr. rewrite H. reflexivity. Qed.
Lemma upd_mv_ok t id f mm : st_heap t !! id = Some mm ->
  upd_mv id f t = (Ok tt, with_heap t (<[id := f mm]> (st_heap t))).
Proof. intros H. unfold upd_mv, bind, get_mv. rewrite H. reflexivity. Qed.
Lemma splice_ok t a z l : st_arrs t !! a = Some l ->
  splice a z t = (Ok (skipn (splice_start (length l) z) l),
                  with_arrs t (<[a := firstn (splice_start (length l) z) l]> (st_arrs t))).
Proof. intros H. unfold splice, bind, get_arr. rewrite H. reflexivity. Qed.

(** [findIndex] over moves of the heap returns. *)
Lemma findIndexM_ok t (pr : Move -> bool) l : (forall x, x ∈ l -> is_Some (st_heap t !! x)) ->
  exists z, findIndexM (fun e => let* em := get_mv e in ret (pr em)) l t = (Ok z, t).
Proof.
  induction l as [|x l IH]; intros Hl; [eexists; reflexivity|].
  destruct (Hl x ltac:(set_solver)) as [mx Hx]. cbn [findIndexM].
  rewrite (bind_ok _ _ t t (pr mx)) by (unfold bind, get_mv, ret; rewrite Hx; reflexivity).
  destruct (pr mx); [eexists; reflexivity|].
  destruct IH as [z Hz]; [intros y Hy; apply Hl; set_solver|].
  rewrite (bind_ok _ _ t t z Hz). eexists; reflexivity.
Qed.

(** [findIndex] stops at a first element that satisfies the test. *)
Lemma findIndexM_head t (pr : Move -> bool) x l mx : st_heap t !! x = Some mx -> pr mx = true ->
  findIndexM (fun e => let* em := get_mv e in ret (pr em)) (x :: l) t = (Ok 0%Z, t).
Proof.
  intros Hx Hp. cbn [findIndexM].
  rewrite (bind_ok _ _ t t (pr mx)) by (unfold bind, get_mv, ret; rewrite Hx; reflexivity).
  rewrite Hp. reflexivity.
Qed.

(** [variations.filter((v) => v.length > 0)] over arrays of the store. *)
Lemma filter_nonempty_ok t vs : (forall v, In v vs -> is_Some (st_arrs t !! v)) ->
  exists r, filter_nonempty vs t = (Ok r, t).
Proof.
  induction vs as [|v vs IH]; intros Hv; [eexists; reflexivity|].
  destruct (Hv v (or_introl eq_refl)) as [l Hl]. cbn [filter_nonempty].
  rewrite (bind_ok _ _ t t l) by (apply get_arr_some, Hl).
  destruct IH as [r Hr]; [intros w Hw; apply Hv; right; exact Hw|].
  rewrite (bind_ok _ _ t t r Hr). eexists; reflexivity.
Qed.

(** [heap_kept] holds of the unchanged heap and is kept by updates of
    other fields. *)
Lemma heap_kept_refl s a : heap_kept s s None a.
Proof. intros x mx H. exists mx. auto. Qed.

Lemma heap_kept_upd s t r a x mx f : heap_kept s t r a -> st_heap t !! x = Some mx ->
  mv_previous (f mx) = mv_previous mx -> mv_ply (f mx) = mv_ply mx ->
  mv_fen (f mx) = mv_fen mx -> mv_variation (f mx) = mv_variation mx ->
  heap_kept s (with_heap t (<[x := f mx]> (st_heap t))) r a.
Proof.
  intros Hk Hx H1 H2 H3 H4 y my Hy. destruct (Hk y my Hy) as (my1 & Hy1 & Hp & Hl & Hf & Hv).
  simpl. destruct (decide (x = y)) as [->|Hne].
  - rewrite lookup_insert. destruct (decide (y = y)); [|congruence].
    rewrite Hy1 in Hx. injection Hx as <-. exists (f my1). repeat split; congruence.
  - rewrite lookup_insert_ne by exact Hne. eauto.
Qed.

(** Moving the promoted first move [x] of a variation into array [a]. *)
Lemma heap_kept_set_r s t a x mx : heap_kept s t None a -> st_heap t !! x = Some mx ->
  heap_kept s (with_heap t (<[x := set_variation mx (Some a)]> (st_heap t))) (Some x) a.
Proof.
  intros Hk Hx y my Hy. destruct (Hk y my Hy) as (my1 & Hy1 & Hp & Hl & Hf & Hv).
  simpl. destruct (decide (x = y)) as [->|Hne].
  - rewrite lookup_insert. destruct (decide (y = y)); [|congruence].
    rewrite Hy1 in Hx. injection Hx as <-. exists (set_variation my1 (Some a)).
    simpl. rewrite Nat.eqb_refl. repeat split; auto.
  - rewrite lookup_insert_ne by exact Hne. exists my1. repeat split; auto.
    simpl. destruct (Nat.eqb_spec x y); [congruence|]. exact Hv.
Qed.


(** [seek(prev)] to a move with a valid FEN, or to the setup position. *)
Lemma seek_ok E t prev :
  match prev with
  | Some p => exists pm, st_heap t !! p = Some pm /\ e_valid E (mv_fen pm) = true
  | None => e_valid E (st_headerFen t) = true
  end ->
  exists t', seek E prev t = (Ok prev, t') /\ st_cur t' = prev /\ Some (st_board t') = fen_at t prev.
Proof.
  destruct prev as [p|]; intros H.
  - destruct H as (pm & Hp & Hv).
    unfold seek, bind, get_mv, chess_load, get, modify, publishEvent, ret. rewrite Hp. simpl.
    rewrite Hv. eexists; repeat split. simpl. rewrite Hp. reflexivity.
  - unfold seek, bind, chess_load, get, modify, publishEvent, ret. simpl.
    rewrite H. eexists; repeat split.
Qed.

(** A kept move of array [A], or the promoted move, is recorded in [A]. *)
Lemma kept_var_A s s1 r A h mh : heap_kept s s1 r A -> st_heap s !! h = Some mh ->
  mv_variation mh = Some A \/ r = Some h ->
  exists mh1, st_heap s1 !! h = Some mh1 /\ mv_variation mh1 = Some A.
Proof.
  intros Hk Hh Hv. destruct (Hk h mh Hh) as (mh1 & H1 & _ & _ & _ & Hv1).
  exists mh1. split; auto. rewrite Hv1.
  destruct Hv as [Hv | ->]; [|simpl; rewrite Nat.eqb_refl; reflexivity].
  destruct (opt_eqb r (Some h)); auto.
Qed.

(** The end of [delete]: the reset of the current move and the event. *)
Lemma delete_tail E s s1 mid m A r c k :
  wfb E s = true -> st_heap s !! mid = Some m -> mv_variation m = Some A -> del_post s s1 A r ->
  (forall x, r = Some x ->
     exists mr, st_heap s !! x = Some mr /\ mv_ply mr = mv_ply m /\ x <> mid) ->
  st_cur s = Some c -> live s c = true -> iter_prev s k c = Some mid ->
  exists s', (let* d := isDescendant mid Undef in
              let* _ := if d then let* _ := seek E (mv_previous m) in ret tt else ret tt in
              publishEvent (mkEvent DeleteMove (Some mid) (mv_previous m))) s1 = (Ok tt, s') /\
             st_cur s' = mv_previous m /\ Some (st_board s') = fen_at s (mv_previous m).
Proof.
  intros Hwf Hm HA Hpost Hr Hc Hlc Hk.
  pose proof (live_iter s k c mid Hk Hlc) as Hlm.
  rewrite (bind_ok _ _ s1 s1 true)
    by exact (isDescendant_post E s s1 mid m A r c k Hwf Hm HA Hpost Hr Hc Hlc Hk).
  cbv beta iota.
  destruct (seek_ok E s1 (mv_previous m)) as (t' & Hs & Ht' & Hb).
  { pose proof Hpost as (Hh & _ & _ & _ & _ & Hfen0).
    destruct (move_wfb_facts _ _ _ _ (wf_move E s Hwf _ _ Hm Hlm)) as (_ & Hl & _).
    destruct (mv_previous m) as [p|] eqn:Hp.
    - destruct Hl as (pm & Hpm & _). destruct (Hh p pm Hpm) as (pm1 & Hpm1 & _ & _ & Hf & _).
      exists pm1. rewrite Hf. split; auto.
      apply (move_wfb_facts _ _ _ _ (wf_move E s Hwf _ _ Hpm (live_prev s mid m p Hlm Hm Hp))).
    - rewrite Hfen0. apply (wfb_parts E s Hwf). }
  rewrite (bind_ok _ _ s1 t' tt) by (rewrite (bind_ok _ _ s1 t' _ Hs); reflexivity).
  cbv beta. eexists; split; [reflexivity|]. split; [exact Ht'|]. change (Some (st_board t') = fen_at s (mv_previous m)). rewrite Hb.
  pose proof Hpost as (Hh & _ & _ & _ & _ & Hfen0).
  destruct (move_wfb_facts _ _ _ _ (wf_move E s Hwf _ _ Hm Hlm)) as (_ & Hl & _).
  destruct (mv_previous m) as [p|]; simpl; [|congruence].
  destruct Hl as (pm & Hpm & _). destruct (Hh p pm Hpm) as (pm1 & Hpm1 & _ & _ & Hf & _).
  rewrite Hpm1, Hpm. simpl. congruence.
Qed.


(** [bind] over a nested [bind] whose first step returns. *)
Lemma bind_bind_ok {S A B C} (m : MS S A) (k1 : A -> MS S B) (k2 : B -> MS S C) s s' a :
  m s = (Ok a, s') -> bind (bind m k1) k2 s = bind (k1 a) k2 s'.
Proof. intros H. unfold bind. rewrite H. reflexivity. Qed.

(** Cutting array [A] back to a prefix gives [del_post]. *)
Lemma del_post_prefix s A l kk H : arr_wfb s A None l = true -> st_arrs s !! A = Some l ->
  heap_kept s (with_heap (with_arrs s (<[A := firstn kk l]> (st_arrs s))) H) None A ->
  del_post s (with_heap (with_arrs s (<[A := firstn kk l]> (st_arrs s))) H) A None.
Proof.
  intros Hwa Hl Hk. repeat split; auto.
  - intros b Hb. simpl. rewrite lookup_insert_ne by congruence. reflexivity.
  - exists (firstn kk l). simpl. rewrite lookup_insert. destruct (decide (A = A)); [|congruence].
    split; [reflexivity|]. intros h Hh.
    pose proof (arr_wfb_pos _ _ _ _ Hwa) as Hpos.
    destruct l as [|h0 t]; [destruct kk; discriminate|]. destruct kk as [|kk]; [discriminate|].
    simpl in Hh. injection Hh as <-. destruct (Hpos 0 h0 eq_refl) as (mh & Hmh & Hv & _).
    exact (kept_var_A _ _ _ _ _ _ Hk Hmh (or_introl Hv)).
Qed.

(** The branch of [delete] that drops the empty variations of the main
    line move. *)
Lemma filter_branch_ok t mm mmv : st_heap t !! mm = Some mmv ->
  (forall v, In v (mv_variations mmv) -> is_Some (st_arrs t !! v)) ->
  exists vs, (let* mmv := get_mv mm in
              let* vs := filter_nonempty (mv_variations mmv) in
              upd_mv mm (fun x => set_variations x vs)) t
             = (Ok tt, with_heap t (<[mm := set_variations mmv vs]> (st_heap t))).
Proof.
  intros Hmm Hv. destruct (filter_nonempty_ok t _ Hv) as [vs Hvs]. exists vs.
  rewrite (bind_ok _ _ t t mmv) by (apply get_mv_some, Hmm).
  rewrite (bind_ok _ _ t t vs Hvs). exact (upd_mv_ok t mm (fun x => set_variations x vs) mmv Hmm).
Qed.

(** [delete(move)] on a well-formed tree, with the current move [c] in the
    tree and [k] [previous] links below [move]: the call returns, the
    current move becomes [move.previous] and the board its position (the
    setup position when [move.previous] is null). *)
Lemma delete_resets_current (E : engine) (s : St) (mid c k : nat) (m : Move) :
  wfb E s = true -> st_heap s !! mid = Some m -> st_cur s = Some c -> live s c = true ->
  iter_prev s k c = Some mid ->
  exists s', chess_delete E (Arg (Some mid)) s = (Ok tt, s') /\ st_cur s' = mv_previous m /\
             Some (st_board s') = fen_at s (mv_previous m).
Proof.
  intros Hwf Hm Hc Hlc Hk.
  pose proof (live_iter s k c mid Hk Hlc) as Hlmid.
  destruct (move_wfb_facts _ _ _ _ (wf_move E s Hwf _ _ Hm Hlmid)) as (Hzm & Hlm & _ & _ & Hvars & _).
  destruct (wf_arr E s Hwf _ _ Hm Hlmid) as (A & l & i0 & HA & Hl & Hi0 & Hwa).
  pose proof (arr_wfb_pos _ _ _ _ Hwa) as Hpos.
  assert (Hlh : forall x, x ∈ l -> is_Some (st_heap s !! x)).
  { intros x Hx. apply list_elem_of_lookup in Hx as [i Hi].
    destruct (Hpos i x Hi) as (mx & Hmx & _). eauto. }
  destruct (findIndexM_ok s (fun em => jeqb (mv_ply em) (mv_ply m)) l Hlh) as [idx Hidx].
  unfold chess_delete.
  rewrite (bind_ok _ _ s s (Some mid)) by reflexivity. cbv beta iota.
  rewrite (bind_ok _ _ s s m) by (apply get_mv_some, Hm). cbv beta.
  rewrite (bind_ok _ _ s s A) by (unfold lift; rewrite HA; reflexivity). cbv beta.
  rewrite (bind_ok _ _ s s l) by (apply get_arr_some, Hl). cbv beta.
  rewrite (bind_ok _ _ s s idx Hidx). cbv beta.
  rewrite (bind_ok _ _ s _ _ (splice_ok s A idx l Hl)). cbv beta.
  set (kk := splice_start (length l) idx).
  set (s_sp := with_arrs s (<[A := firstn kk l]> (st_arrs s))).
  assert (Hsp : del_post s (with_heap s_sp (st_heap s)) A None)
    by (apply (del_post_prefix s A l kk); auto; intros x mx Hx; exists mx; auto).
  destruct (mv_previous m) as [p|] eqn:Hprev.
  - (* [move.previous] is set: the main line continues at [previous.next] *)
    destruct Hlm as (pm & Hpm & _).
    rewrite (bind_ok _ _ s_sp s_sp (mv_next pm))
      by (unfold bind, get_mv, ret; simpl; rewrite Hpm; reflexivity).
    cbv beta.
    destruct (move_wfb_facts _ _ _ _ (wf_move E s Hwf _ _ Hpm (live_prev s mid m p Hlmid Hm Hprev)))
      as (_ & _ & _ & Hnp & _).
    destruct (opt_eqb (mv_next pm) (Some mid)) eqn:Eml.
    + (* [move] is [previous.next]: the first variation takes its place *)
      assert (Hpn : mv_next pm = Some mid).
      { destruct (mv_next pm) as [n|]; simpl in Eml; [|discriminate].
        apply Nat.eqb_eq in Eml. congruence. }
      destruct (Hnp mid Hpn) as (mm & Hmm & Hvpm). rewrite Hm in Hmm. injection Hmm as <-.
      rewrite HA in Hvpm. symmetry in Hvpm.
      cbv iota.
      rewrite (bind_bind_ok _ _ _ s_sp _ tt (upd_mv_ok s_sp p _ pm Hpm)). cbv beta.
      set (s_a := with_heap s_sp (<[p := set_next pm None]> (st_heap s_sp))).
      assert (Hka : heap_kept s s_a None A).
      { apply (heap_kept_upd s s_sp None A p pm (fun x => set_next x None)); auto.
        intros x mx Hx. exists mx. auto. }
      destruct (mv_variations m) as [|v0 vrest] eqn:Hvs.
      * rewrite (bind_ok _ _ s_a s_a tt) by reflexivity. cbv beta.
        pose proof (delete_tail E s s_a mid m A None c k Hwf Hm HA) as T.
        rewrite Hprev in T. apply T; auto; [|intros x Hx; discriminate].
        apply (del_post_prefix s A l kk); auto.
      * destruct (Hvars v0 (or_introl eq_refl)) as (Hv0 & rr & t & mr & Hv0l & Hmr & Hpr & Hvr & Hplr).
        assert (HvA : v0 <> A) by congruence.
        assert (Hrp : rr <> p) by (intros ->; rewrite Hpm in Hmr; injection Hmr as <-; congruence).
        assert (Hrm : rr <> mid) by (intros ->; rewrite Hm in Hmr; injection Hmr as <-; congruence).
        rewrite (bind_bind_ok _ _ _ s_a s_a (Some rr)); cycle 1.
        { unfold arr_first, bind, get_arr, ret. unfold s_a, s_sp. simpl.
          rewrite lookup_insert_ne by congruence. rewrite Hv0l. reflexivity. }
        cbv beta.
        set (pm2 := set_next (set_next pm None) (Some rr)).
        set (s_b := with_heap s_a (<[p := pm2]> (st_heap s_a))).
        rewrite (bind_bind_ok _ _ _ s_a s_b tt); cycle 1.
        { apply (upd_mv_ok s_a p (fun x => set_next x (Some rr)) (set_next pm None)).
          unfold s_a. simpl. rewrite lookup_insert. destruct (decide (p = p)); congruence. }
        cbv beta.
        rewrite (bind_bind_ok _ _ _ s_b s_b pm2); cycle 1.
        { apply get_mv_some. unfold s_b. simpl. rewrite lookup_insert.
          destruct (decide (p = p)); congruence. }
        cbv beta. change (mv_variation pm2) with (mv_variation pm). rewrite Hvpm.
        rewrite (bind_bind_ok _ _ _ s_b s_b (firstn kk l)); cycle 1.
        { unfold deref_arr. apply get_arr_some. unfold s_b, s_a, s_sp. simpl.
          rewrite lookup_insert. destruct (decide (A = A)); congruence. }
        cbv beta.
        rewrite (bind_bind_ok _ _ _ s_b s_b (Some v0)); cycle 1.
        { unfold variation_of. rewrite (bind_ok _ _ s_b s_b mr); [rewrite Hvr; reflexivity|].
          apply get_mv_some. unfold s_b, s_a, s_sp. simpl.
          rewrite !lookup_insert_ne by congruence. exact Hmr. }
        cbv beta.
        rewrite (bind_bind_ok _ _ _ s_b s_b (rr :: t)); cycle 1.
        { unfold deref_arr. apply get_arr_some. unfold s_b, s_a, s_sp. simpl.
          rewrite lookup_insert_ne by congruence. exact Hv0l. }
        cbv beta iota.
        set (s_c := with_arrs s_b (<[A := (firstn kk l ++ rr :: t)%list]> (st_arrs s_b))).
        rewrite (bind_bind_ok _ _ _ s_b s_c tt) by reflexivity. cbv beta.
        rewrite (bind_bind_ok _ _ _ s_c s_c rr) by reflexivity. cbv beta.
        set (s_d := with_heap s_c (<[rr := set_variation mr (Some A)]> (st_heap s_c))).
        assert (Hmrc : st_heap s_c !! rr = Some mr).
        { unfold s_c, s_b, s_a, s_sp. simpl. rewrite !lookup_insert_ne by congruence. exact Hmr. }
        rewrite (bind_bind_ok _ _ _ s_c s_d tt)
          by exact (upd_mv_ok s_c rr (fun x => set_variation x (Some A)) mr Hmrc).
        cbv beta.
        assert (Hmrd : st_heap s_d !! rr = Some (set_variation mr (Some A))).
        { unfold s_d. simpl. rewrite lookup_insert. destruct (decide (rr = rr)); congruence. }
        rewrite (bind_ok _ _ s_d _ tt (upd_mv_ok s_d rr (fun x => set_variations x vrest) _ Hmrd)).
        cbv beta.
        pose proof (delete_tail E s
          (with_heap s_d (<[rr := set_variations (set_variation mr (Some A)) vrest]> (st_heap s_d)))
          mid m A (Some rr) c k Hwf Hm HA) as T.
        rewrite Hprev in T. apply T; auto; cycle 1.
        { intros x Hx. injection Hx as <-. exists mr. auto. }
        assert (Hkd : heap_kept s s_d (Some rr) A).
        { apply (heap_kept_set_r s s_c A rr mr); auto.
          apply (heap_kept_upd s s_a None A p (set_next pm None) (fun x => set_next x (Some rr))); auto.
          unfold s_a. simpl. rewrite lookup_insert. destruct (decide (p = p)); congruence. }
        assert (Hk1 : heap_kept s (with_heap s_d (<[rr := set_variations (set_variation mr (Some A)) vrest]>
                                    (st_heap s_d))) (Some rr) A).
        { apply (heap_kept_upd s s_d (Some rr) A rr _ (fun x => set_variations x vrest)); auto. }
        repeat split; auto.
        -- intros b Hb. unfold s_d, s_c, s_b, s_a, s_sp. simpl.
           rewrite !lookup_insert_ne by congruence. reflexivity.
        -- exists ((firstn kk l ++ rr :: t)%list). unfold s_d, s_c. simpl.
           rewrite lookup_insert. destruct (decide (A = A)); [|congruence]. split; [reflexivity|].
           intros h Hh. destruct (firstn kk l) as [|h0 t0] eqn:Hf; simpl in Hh; injection Hh as <-.
           ++ exact (kept_var_A _ _ _ _ _ _ Hk1 Hmr (or_intror eq_refl)).
           ++ destruct l as [|x0 l0]; [destruct kk; discriminate|].
              destruct kk as [|kk']; [discriminate|]. simpl in Hf. injection Hf as -> _.
              destruct (Hpos 0 h0 eq_refl) as (mh & Hmh & Hvh & _).
              exact (kept_var_A _ _ _ _ _ _ Hk1 Hmh (or_introl Hvh)).
    + cbv iota.
      destruct (Z.eqb idx 0).
      * destruct (mv_next pm) as [mm|] eqn:Hpn.
        -- destruct (Hnp mm eq_refl) as (mmv & Hmm & _).
           destruct (filter_branch_ok s_sp mm mmv Hmm) as [vs Hfb].
           { intros v Hv. unfold s_sp. simpl.
             destruct (proj1 (proj2 (wfb_parts E s Hwf)) mm mmv v Hmm Hv) as [lv Hvl].
             destruct (decide (A = v)) as [->|Hne].
             - rewrite lookup_insert. destruct (decide (v = v)); [eauto|congruence].
             - rewrite lookup_insert_ne by exact Hne. rewrite Hvl. eauto. }
           rewrite (bind_ok _ _ s_sp _ tt Hfb). cbv beta.
           pose proof (delete_tail E s (with_heap s_sp (<[mm := set_variations mmv vs]> (st_heap s_sp)))
             mid m A None c k Hwf Hm HA) as T.
           rewrite Hprev in T. apply T; auto; [|intros x Hx; discriminate].
           apply (del_post_prefix s A l kk); auto.
           apply (heap_kept_upd s s_sp None A mm mmv (fun x => set_variations x vs)); auto.
           intros x mx Hx. exists mx. auto.
        -- rewrite (bind_ok _ _ s_sp s_sp tt) by reflexivity. cbv beta.
           pose proof (delete_tail E s s_sp mid m A None c k Hwf Hm HA) as T.
           rewrite Hprev in T. apply T; auto. intros x Hx; discriminate.
      * rewrite (bind_ok _ _ s_sp s_sp tt) by reflexivity. cbv beta.
        pose proof (delete_tail E s s_sp mid m A None c k Hwf Hm HA) as T.
        rewrite Hprev in T. apply T; auto. intros x Hx; discriminate.
  - (* [move.previous] is null: [firstMove()] is read after the splice *)
    pose proof (proj1 (proj2 (proj2 (proj2 (wfb_parts E s Hwf))))) as Hmain. unfold main_wfb in Hmain.
    destruct (st_arrs s !! st_moves s) as [lm|] eqn:Hlm0; [|discriminate].
    apply andb_true_iff in Hmain as [Hwm _].
    assert (Hms : exists lms, st_arrs s_sp !! st_moves s = Some lms /\
                  (forall h, head lms = Some h -> exists mh, st_heap s !! h = Some mh /\
                             mv_variation mh = Some (st_moves s)) /\
                  (st_moves s = A -> lms = firstn kk l)).
    { destruct (decide (A = st_moves s)) as [<-|Hne].
      - exists (firstn kk l). unfold s_sp. simpl. rewrite lookup_insert.
        destruct (decide (A = A)); [|congruence]. repeat split; auto.
        intros h Hh. destruct l as [|h0 t]; [destruct kk; discriminate|].
        destruct kk as [|kk']; [discriminate|]. simpl in Hh. injection Hh as <-.
        destruct (Hpos 0 h0 eq_refl) as (mh & Hmh & Hvh & _). eauto.
      - exists lm. unfold s_sp. simpl. rewrite lookup_insert_ne by exact Hne.
        repeat split; auto; [|congruence].
        intros h Hh. destruct lm as [|h0 t]; [discriminate|]. simpl in Hh. injection Hh as <-.
        destruct (arr_wfb_pos _ _ _ _ Hwm 0 h0 eq_refl)
          as (mh & Hmh & Hvh & _). eauto. }
    destruct Hms as (lms & Hlms & Hhms & Hmsl).
    rewrite (bind_ok _ _ s_sp s_sp (head lms)); cycle 1.
    { unfold firstMove. rewrite (bind_ok _ _ s_sp s_sp s_sp) by reflexivity.
      rewrite (bind_ok _ _ s_sp s_sp lms) by (apply get_arr_some, Hlms). reflexivity. }
    cbv beta.
    assert (Hfm : opt_eqb (head lms) (Some mid) = false).
    { destruct (head lms) as [h|] eqn:Hh; [|reflexivity]. simpl.
      destruct (Nat.eqb_spec h mid) as [->|]; [|reflexivity].
      destruct (Hhms mid eq_refl) as (mh & Hmh & Hvh). rewrite Hm in Hmh. injection Hmh as <-.
      rewrite HA in Hvh. injection Hvh as HAm. specialize (Hmsl (eq_sym HAm)). subst lms.
      rename i0 into i, Hi0 into Hi.
      destruct (Hpos i mid Hi) as (mx & Hmx & _ & Hpi). rewrite Hm in Hmx. injection Hmx as <-.
      destruct i as [|j]; [|destruct Hpi as (y & _ & Hy); congruence].
      destruct l as [|x0 l0]; [discriminate|]. simpl in Hi. injection Hi as ->.
      assert (Hjq : jeqb (mv_ply m) (mv_ply m) = true).
      { destruct Hzm as [z ->]. simpl. apply Z.eqb_refl. }
      pose proof (findIndexM_head s (fun em => jeqb (mv_ply em) (mv_ply m)) mid l0 m Hm Hjq) as H0.
      cbv beta in H0, Hidx. rewrite Hidx in H0. injection H0 as ->. discriminate. }
    rewrite Hfm. cbv iota.
    destruct (Z.eqb idx 0).
    + destruct (head lms) as [mm|] eqn:Hhm.
      * destruct (Hhms mm eq_refl) as (mmv & Hmm & _).
        destruct (filter_branch_ok s_sp mm mmv Hmm) as [vs Hfb].
        { intros v Hv. unfold s_sp. simpl.
          destruct (proj1 (proj2 (wfb_parts E s Hwf)) mm mmv v Hmm Hv) as [lv Hvl].
          destruct (decide (A = v)) as [->|Hne].
          - rewrite lookup_insert. destruct (decide (v = v)); [eauto|congruence].
          - rewrite lookup_insert_ne by exact Hne. rewrite Hvl. eauto. }
        rewrite (bind_ok _ _ s_sp _ tt Hfb). cbv beta.
        pose proof (delete_tail E s (with_heap s_sp (<[mm := set_variations mmv vs]> (st_heap s_sp)))
          mid m A None c k Hwf Hm HA) as T.
        rewrite Hprev in T. apply T; auto; [|intros x Hx; discriminate].
        apply (del_post_prefix s A l kk); auto.
        apply (heap_kept_upd s s_sp None A mm mmv (fun x => set_variations x vs)); auto.
        intros x mx Hx. exists mx. auto.
      * rewrite (bind_ok _ _ s_sp s_sp tt) by reflexivity. cbv beta.
        pose proof (delete_tail E s s_sp mid m A None c k Hwf Hm HA) as T.
        rewrite Hprev in T. apply T; auto. intros x Hx; discriminate.
    + rewrite (bind_ok _ _ s_sp s_sp tt) by reflexivity. cbv beta.
      pose proof (delete_tail E s s_sp mid m A None c k Hwf Hm HA) as T.
      rewrite Hprev in T. apply T; auto. intros x Hx; discriminate.
Qed.

(** C5: for the game [1. e4 e5 2. Nf3] (e4, e5 and Nf3 are the moves 3, 4
    and 5, none with variations), [delete(e5)] returns, leaves
    [History.moves] with one move, and sets [e4.next] to null. And for any
    [delete(move)] on a well-formed move tree, when the current move is
    [move] or a descendant of it ([k] [previous] links below it, in the
    tree), the call returns with the current move reset to [move.previous]
    and the board to its position, or to the setup position when
    [move.previous] is null. *)
Theorem delete_resets_to_previous :
  (let s := loaded game_line in
   let s' := snd (chess_delete toy (Arg (Some 4)) s) in
   map (fun x => option_map (fun mv => (jm_san (mv_js mv), mv_variations mv)) (st_heap s !! x)) [3; 4; 5]
     = [Some ("e4", []); Some ("e5", []); Some ("Nf3", [])] /\
   st_arrs s !! st_moves s = Some [3; 4; 5] /\
   fst (chess_delete toy (Arg (Some 4)) s) = Ok tt /\
   option_map length (st_arrs s' !! st_moves s') = Some 1 /\
   option_map mv_next (st_heap s' !! 3) = Some None) /\
  (forall (E : engine) (s : St) (mid c k : nat) (m : Move),
     wfb E s = true -> st_heap s !! mid = Some m -> st_cur s = Some c -> live s c = true ->
     iter_prev s k c = Some mid ->
     exists s', chess_delete E (Arg (Some mid)) s = (Ok tt, s') /\ st_cur s' = mv_previous m /\
                Some (st_board s') = fen_at s (mv_previous m)).
Proof.
  split.
  - vm_compute. repeat split; reflexivity.
  - exact delete_resets_current.
Qed.

(** The hypotheses of C5 hold on [1. e4 e5 2. Nf3] with the current move
    Nf3, one link below e5: [delete(e5)] moves the current move to e4. *)
Lemma delete_resets_to_previous_witness :
  wfb toy (loaded game_line) = true /\ st_cur (loaded game_line) = Some 5 /\
  live (loaded game_line) 5 = true /\ iter_prev (loaded game_line) 1 5 = Some 4 /\
  exists s', chess_delete toy (Arg (Some 4)) (loaded game_line) = (Ok tt, s') /\ st_cur s' = Some 3.
Proof.
  assert (Hw : wfb toy (loaded game_line) = true) by (vm_compute; reflexivity).
  assert (Hc : st_cur (loaded game_line) = Some 5) by (vm_compute; reflexivity).
  assert (Hl : live (loaded game_line) 5 = true) by (vm_compute; reflexivity).
  assert (Hk : iter_prev (loaded game_line) 1 5 = Some 4) by (vm_compute; reflexivity).
  assert (Hp : option_map mv_previous (st_heap (loaded game_line) !! 4) = Some (Some 3))
    by (vm_compute; reflexivity).
  split; [exact Hw|]. split; [exact Hc|]. split; [exact Hl|]. split; [exact Hk|].
  destruct (st_heap (loaded game_line) !! 4) as [m|] eqn:Hm; [|discriminate].
  injection Hp as Hp.
  destruct (proj2 delete_resets_to_previous toy (loaded game_line) 4 5 1 m Hw Hm Hc Hl Hk)
    as (s' & Hd & Hcur & _).
  exists s'. split; [exact Hd|]. rewrite Hcur. exact Hp.
Defined.

(* ------------------------------------------------------------------ *)
(** ** FEN helpers: normalizeFen, getMaterialDifference, switchTurn *)

Lemma has_sp_app (a b : string) : has_sp (a ++ b) = has_sp a || has_sp b.
Proof. induction a as [|c a IH]; autorewrite with strs; simpl; [reflexivity|]. now rewrite IH, orb_assoc. Qed.

(** The tokens of [split(' ')] hold no space. *)
Lemma split_sp_aux_nosp (s cur : string) : has_sp cur = false ->
  Forall (fun t => has_sp t = false) (split_sp_aux s cur).
Proof.
  revert cur; induction s as [|c s IH]; intros cur H; simpl.
  - constructor; [exact H | constructor].
  - destruct (Ascii.eqb c " "%char) eqn:Hc.
    + constructor; [exact H | apply IH; reflexivity].
    + apply IH. rewrite has_sp_app, H. simpl. now rewrite Hc.
Qed.

Lemma split_sp_tok (t r cur : string) : has_sp t = false ->
  split_sp_aux (t ++ r) cur = split_sp_aux r (cur ++ t).
Proof.
  revert cur; induction t as [|c t IH]; intros cur H; autorewrite with strs; simpl in *.
  - now rewrite str_app_nil_r.
  - apply orb_false_iff in H as [Hc H]. rewrite Hc, IH by assumption.
    now rewrite str_app_assoc.
Qed.

(** [join(' ')] then [split(' ')] gives back tokens without spaces. *)
Lemma split_sp_join_aux (t : string) (ts : list string) (cur : string) :
  Forall (fun t => has_sp t = false) (t :: ts) ->
  split_sp_aux (join " " (t :: ts)) cur = (cur ++ t) :: ts.
Proof.
  revert t cur; induction ts as [|t' ts IH]; intros t cur H;
    inversion H as [|? ? Ht Hts]; subst.
  - simpl. rewrite split_sp_nospace by assumption. reflexivity.
  - change (join " " (t :: t' :: ts)) with (t ++ " " ++ join " " (t' :: ts)).
    rewrite split_sp_tok by assumption.
    replace (" " ++ join " " (t' :: ts)) with (String " " (join " " (t' :: ts))) by reflexivity.
    cbn [split_sp_aux]. simpl Ascii.eqb. cbv iota.
    rewrite IH by assumption. reflexivity.
Qed.

Lemma normalizeFen_ok (f g : string) : normalizeFen f = Ok g ->
  exists t0 t1 t2 t3 rest, split_sp f = t0 :: t1 :: t2 :: t3 :: rest /\
    g = join " " [t0; t1; t2; t3; "0"; "1"] /\
    Forall (fun t => has_sp t = false) [t0; t1; t2; t3; "0"; "1"].
Proof.
  unfold normalizeFen. pose proof (split_sp_aux_nosp f "" eq_refl) as Hn. fold (split_sp f) in Hn.
  destruct (split_sp f) as [|t0 [|t1 [|t2 [|t3 rest]]]] eqn:Hs; simpl; try discriminate.
  intros [= <-]. exists t0, t1, t2, t3, rest. split; [reflexivity|]. split; [reflexivity|].
  rewrite List.Forall_forall in Hn |- *. intros x Hx.
  destruct Hx as [<-|[<-|[<-|[<-|[<-|[<-|[]]]]]]]; try reflexivity; apply Hn; simpl; auto.
Qed.

(** X1: [normalizeFen(fen)] throws exactly when [fen.split(' ')] has fewer
    than four tokens; otherwise the tokens of its result are the first
    four tokens of [fen] followed by [0] and [1]. *)
Theorem normalizeFen_tokens (f : string) :
  match normalizeFen f with
  | Ok g => 4 <= length (split_sp f) /\ split_sp g = (firstn 4 (split_sp f) ++ ["0"; "1"])%list
  | Throw _ => length (split_sp f) < 4
  end.
Proof.
  destruct (normalizeFen f) as [g|e] eqn:Hn.
  - destruct (normalizeFen_ok f g Hn) as (t0 & t1 & t2 & t3 & rest & Hs & -> & Hf).
    rewrite Hs. split; [simpl; lia|]. unfold split_sp. rewrite split_sp_join_aux by exact Hf.
    reflexivity.
  - unfold normalizeFen in Hn. cbv zeta in Hn.
    destruct (length (split_sp f) <? 4)%nat eqn:Hl; [apply Nat.ltb_lt, Hl | discriminate].
Qed.

(** X2: [normalizeFen] is idempotent: a normalized FEN normalizes to itself. *)
Theorem normalizeFen_idempotent (f g : string) :
  normalizeFen f = Ok g -> normalizeFen g = Ok g.
Proof.
  intros H. destruct (normalizeFen_ok f g H) as (t0 & t1 & t2 & t3 & rest & _ & -> & Hf).
  unfold normalizeFen, split_sp. rewrite split_sp_join_aux by exact Hf. reflexivity.
Qed.

Lemma normalizeFen_idempotent_witness :
  normalizeFen fen_e4e5Nf3 = Ok "rnbqkbnr/pppp1ppp/8/4p3/4P3/5N2/PPPP1PPP/RNBQKB1R b KQkq - 0 1" /\
  normalizeFen "rnbqkbnr/pppp1ppp/8/4p3/4P3/5N2/PPPP1PPP/RNBQKB1R b KQkq - 0 1" =
    Ok "rnbqkbnr/pppp1ppp/8/4p3/4P3/5N2/PPPP1PPP/RNBQKB1R b KQkq - 0 1".
Proof.
  split; [reflexivity|].
  apply (normalizeFen_idempotent fen_e4e5Nf3). reflexivity.
Defined.

Lemma fenValue_swap (c : ascii) : fenValue (swap_case c) = (- fenValue c)%Z.
Proof. destruct c as [[] [] [] [] [] [] [] []]; vm_compute; reflexivity. Qed.

Lemma swap_case_space (c : ascii) : Ascii.eqb (swap_case c) " "%char = Ascii.eqb c " "%char.
Proof. destruct c as [[] [] [] [] [] [] [] []]; vm_compute; reflexivity. Qed.

Lemma map_str_app (f : ascii -> ascii) (a b : string) :
  map_str f (a ++ b) = map_str f a ++ map_str f b.
Proof. induction a as [|c a IH]; autorewrite with strs; simpl; [reflexivity|]. now rewrite IH. Qed.

(** A character map that keeps spaces commutes with [split(' ')]. *)
Lemma split_sp_map (f : ascii -> ascii)
    (Hf : forall c, Ascii.eqb (f c) " "%char = Ascii.eqb c " "%char) (s cur : string) :
  split_sp_aux (map_str f s) (map_str f cur) = map (map_str f) (split_sp_aux s cur).
Proof.
  revert cur; induction s as [|c s IH]; intros cur; simpl; [reflexivity|].
  rewrite Hf. destruct (Ascii.eqb c " "%char); simpl.
  - f_equal. apply (IH "").
  - rewrite <- IH, map_str_app. reflexivity.
Qed.

Lemma material_loop_acc (s : string) (a : Z) : material_loop s a = (a + material_loop s 0)%Z.
Proof.
  revert a; induction s as [|c s IH]; intros a; simpl; [lia|].
  rewrite IH, (IH (0 + fenValue c)%Z). lia.
Qed.

Lemma material_loop_swap (s : string) :
  material_loop (map_str swap_case s) 0 = (- material_loop s 0)%Z.
Proof.
  induction s as [|c s IH]; simpl; [reflexivity|].
  rewrite material_loop_acc, (material_loop_acc s), IH, fenValue_swap. lia.
Qed.

(** X3: swapping the colours of all pieces (the case of every letter)
    negates [getMaterialDifference]. *)
Theorem getMaterialDifference_swap (f : string) :
  getMaterialDifference (map_str swap_case f) = (- getMaterialDifference f)%Z.
Proof.
  unfold getMaterialDifference, split_sp.
  pose proof (split_sp_map swap_case swap_case_space f "") as H. cbn [map_str] in H.
  rewrite H. destruct (split_sp_aux f "") as [|t l]; simpl; [reflexivity|].
  apply material_loop_swap.
Qed.

(** X4: on a six-field FEN whose side to move is [w] or [b], two
    [switchTurn]s give back the FEN with its en-passant field cleared. *)
Theorem switchTurn_twice (t0 t1 t2 t3 t4 t5 : string) :
  Forall field_ok [t0; t1; t2; t3; t4; t5] -> t1 = "w" \/ t1 = "b" ->
  match switchTurn (join " " [t0; t1; t2; t3; t4; t5]) with
  | Ok g => switchTurn g
  | Throw e => Throw e
  end = Ok (join " " [t0; t1; t2; "-"; t4; t5]).
Proof.
  intros H Ht1.
  assert (Hk : forall u, u = "w" \/ u = "b" ->
            Forall field_ok [t0; u; t2; "-"; t4; t5]).
  { intros u Hu. rewrite List.Forall_forall in H |- *. intros x Hx. simpl in Hx.
    destruct Hx as [<-|[<-|[<-|[<-|[<-|[<-|[]]]]]]];
      try (apply H; simpl; tauto);
      (destruct Hu as [-> | ->] || idtac); split; (discriminate || reflexivity). }
  rewrite switchTurn_fields by exact H.
  destruct Ht1 as [-> | ->];
    rewrite switchTurn_fields by (apply Hk; (left; reflexivity) || (right; reflexivity));
    reflexivity.
Qed.

Lemma switchTurn_twice_witness :
  Forall field_ok ["rnbqkbnr/pppppppp/8/8/4P3/8/PPPP1PPP/RNBQKBNR"; "b"; "KQkq"; "e3"; "0"; "1"] /\
  ("b" = "w" \/ "b" = "b") /\
  match switchTurn "rnbqkbnr/pppppppp/8/8/4P3/8/PPPP1PPP/RNBQKBNR b KQkq e3 0 1" with
  | Ok g => switchTurn g
  | Throw e => Throw e
  end = Ok "rnbqkbnr/pppppppp/8/8/4P3/8/PPPP1PPP/RNBQKBNR b KQkq - 0 1".
Proof.
  assert (Hf : Forall field_ok ["rnbqkbnr/pppppppp/8/8/4P3/8/PPPP1PPP/RNBQKBNR"; "b"; "KQkq"; "e3"; "0"; "1"])
    by (repeat constructor; (discriminate || reflexivity)).
  split; [exact Hf|]. split; [right; reflexivity|].
  exact (switchTurn_twice "rnbqkbnr/pppppppp/8/8/4P3/8/PPPP1PPP/RNBQKBNR" "b" "KQkq" "e3" "0" "1"
           Hf (or_intror eq_refl)).
Defined.

(* ------------------------------------------------------------------ *)
(** ** Pgn.ts: the line wrapping *)

Lemma str_length_app (a b : string) : String.length (a ++ b) = String.length a + String.length b.
Proof. induction a as [|c a IH]; autorewrite with strs; simpl; [reflexivity|]. now rewrite IH. Qed.

Lemma rev_str_length (s acc : string) : String.length (rev_str s acc) = String.length s + String.length acc.
Proof. revert acc; induction s as [|c s IH]; intros acc; simpl; [reflexivity|]. rewrite IH. simpl. lia. Qed.

Lemma trim_start_length (s : string) : String.length (trim_start s) <= String.length s.
Proof. induction s as [|c s IH]; simpl; [lia|]. destruct (is_ws c); simpl; lia. Qed.

Lemma trim_length (s : string) : String.length (trim s) <= String.length s.
Proof.
  unfold trim, trim_end. etransitivity; [apply trim_start_length|].
  rewrite rev_str_length. pose proof (trim_start_length (rev_str s "")) as H.
  rewrite rev_str_length in H. simpl in *. lia.
Qed.

(** A trailing space does not survive [trim]. *)
Lemma trim_app_space (w : string) : trim (w ++ " ") = trim w.
Proof.
  unfold trim, trim_end. rewrite rev_str_app. reflexivity.
Qed.

(** [wrap_words] only appends lines. *)
Lemma wrap_words_prefix (ml : Z) (ws lines : list string) (line : string) :
  exists l1 l2, wrap_words ml ws lines line = (lines ++ l1 :: l2)%list.
Proof.
  revert lines line; induction ws as [|w ws IH]; intros lines line; simpl.
  - exists (trim line), []. reflexivity.
  - destruct (Z.ltb _ ml).
    + apply IH.
    + destruct (IH (lines ++ [trim line])%list (w ++ " ")) as (l1 & l2 & ->).
      exists (trim line), (l1 :: l2). rewrite <- app_assoc. reflexivity.
Qed.

(** Each line [wrap_words] pushes is shorter than [maxLength], or is a single
    word of [W]. *)
Lemma wrap_words_lines (ml : Z) (W ws lines : list string) (line : string) :
  (0 < ml)%Z -> (forall w, In w ws -> In w W) ->
  Forall (fun ln => (Z.of_nat (String.length ln) < ml)%Z \/ exists w, In w W /\ ln = trim w) lines ->
  (line = "" \/ (exists q, line = q ++ " " /\ (Z.of_nat (String.length line) <= ml)%Z) \/
   (exists w, In w W /\ line = w ++ " ")) ->
  Forall (fun ln => (Z.of_nat (String.length ln) < ml)%Z \/ exists w, In w W /\ ln = trim w)
    (wrap_words ml ws lines line).
Proof.
  intros Hml. revert lines line; induction ws as [|w ws IH]; intros lines line HW Hlines Hline.
  - simpl. apply Forall_app; split; [exact Hlines|]. constructor; [|constructor].
    destruct Hline as [-> | [(q & -> & Hq) | (w & Hw & ->)]].
    + left. simpl. lia.
    + left. rewrite trim_app_space. pose proof (trim_length q).
      rewrite str_length_app in Hq. simpl in Hq. lia.
    + right. exists w. split; [exact Hw | apply trim_app_space].
  - simpl. destruct (Z.ltb _ ml) eqn:Hlt.
    + apply IH; auto with datatypes.
      right. left. exists (line ++ w). rewrite str_app_assoc. split; [reflexivity|].
      apply Z.ltb_lt in Hlt. rewrite !str_length_app. simpl. lia.
    + apply IH; auto with datatypes.
      * apply Forall_app; split; [exact Hlines|]. constructor; [|constructor].
        destruct Hline as [-> | [(q & -> & Hq) | (w' & Hw' & ->)]].
        -- left. simpl. lia.
        -- left. rewrite trim_app_space. pose proof (trim_length q).
           rewrite str_length_app in Hq. simpl in Hq. lia.
        -- right. exists w'. split; [exact Hw' | apply trim_app_space].
      * right. right. exists w. split; [apply HW; simpl; auto | reflexivity].
Qed.

(** X5: with [maxLength > 0], every line of [wrap(str, maxLength)] is
    shorter than [maxLength], unless it is a single word of [str.split(' ')]
    (trimmed). *)
Theorem wrap_lines (str : string) (ml : Z) : (0 < ml)%Z ->
  exists lines, wrap str ml = join newline lines /\
    Forall (fun ln => (Z.of_nat (String.length ln) < ml)%Z \/
                      exists w, In w (split_sp str) /\ ln = trim w) lines.
Proof.
  intros Hml. unfold wrap. replace (Z.leb ml 0) with false by (symmetry; apply Z.leb_gt; exact Hml).
  eexists. split; [reflexivity|].
  apply wrap_words_lines; auto.
Qed.

Lemma wrap_lines_witness :
  (0 < 4)%Z /\
  exists lines, wrap "abcdef gh ij" 4 = join newline lines /\
    Forall (fun ln => (Z.of_nat (String.length ln) < 4)%Z \/
                      exists w, In w (split_sp "abcdef gh ij") /\ ln = trim w) lines.
Proof. split; [lia | apply (wrap_lines "abcdef gh ij" 4); lia]. Defined.

Lemma nonws_app (a b : string) : nonws (a ++ b) = nonws a ++ nonws b.
Proof.
  induction a as [|c a IH]; autorewrite with strs; simpl; [reflexivity|].
  rewrite IH. destruct (is_ws c); reflexivity.
Qed.

Lemma nonws_trim_start (s : string) : nonws (trim_start s) = nonws s.
Proof. induction s as [|c s IH]; simpl; [reflexivity|]. destruct (is_ws c) eqn:Hc; simpl; rewrite ?Hc; auto. Qed.

Lemma nonws_rev (x : string) : nonws (rev_str x "") = rev_str (nonws x) "".
Proof.
  induction x as [|c x IH]; simpl; [reflexivity|].
  rewrite rev_str_acc, nonws_app, IH. simpl.
  destruct (is_ws c); simpl.
  - apply str_app_nil_r.
  - rewrite (rev_str_acc (nonws x) (String c "")). reflexivity.
Qed.

Lemma nonws_trim (s : string) : nonws (trim s) = nonws s.
Proof.
  unfold trim, trim_end. rewrite nonws_trim_start, nonws_rev, nonws_trim_start, nonws_rev.
  rewrite rev_str_rev_str. simpl. apply str_app_nil_r.
Qed.

Lemma nonws_join (sep : string) (l : list string) : nonws sep = "" ->
  nonws (join sep l) = fold_right (fun x acc => nonws x ++ acc) "" l.
Proof.
  intros Hs. induction l as [|x l IH]; [reflexivity|].
  destruct l as [|y l].
  - simpl. symmetry. apply str_app_nil_r.
  - change (join sep (x :: y :: l)) with (x ++ sep ++ join sep (y :: l)).
    rewrite !nonws_app, Hs, IH. reflexivity.
Qed.

Lemma fold_nonws_app (a b : list string) :
  fold_right (fun x acc => nonws x ++ acc) "" (a ++ b)%list =
  fold_right (fun x acc => nonws x ++ acc) "" a ++ fold_right (fun x acc => nonws x ++ acc) "" b.
Proof. induction a as [|x a IH]; simpl; [reflexivity|]. now rewrite IH, str_app_assoc. Qed.

Lemma wrap_words_nonws (ml : Z) (ws lines : list string) (line : string) :
  fold_right (fun x acc => nonws x ++ acc) "" (wrap_words ml ws lines line) =
  fold_right (fun x acc => nonws x ++ acc) "" lines ++ nonws line ++
  fold_right (fun x acc => nonws x ++ acc) "" ws.
Proof.
  revert lines line; induction ws as [|w ws IH]; intros lines line; simpl.
  - rewrite fold_nonws_app. simpl. now rewrite nonws_trim.
  - destruct (Z.ltb _ ml); rewrite IH.
    + rewrite !nonws_app. simpl. rewrite str_app_nil_r, !str_app_assoc. reflexivity.
    + rewrite fold_nonws_app, nonws_app. simpl. rewrite nonws_trim, !str_app_nil_r, !str_app_assoc.
      reflexivity.
Qed.

Lemma split_sp_nonws (s cur : string) :
  fold_right (fun x acc => nonws x ++ acc) "" (split_sp_aux s cur) = nonws cur ++ nonws s.
Proof.
  revert cur; induction s as [|c s IH]; intros cur; simpl.
  - reflexivity.
  - destruct (Ascii.eqb c " "%char) eqn:Hc.
    + apply Ascii.eqb_eq in Hc. subst c. simpl. rewrite IH. reflexivity.
    + rewrite IH, nonws_app, str_app_assoc. simpl. destruct (is_ws c); reflexivity.
Qed.

(** X6: [wrap] neither drops, adds nor reorders a non-whitespace character:
    it only changes white space. *)
Theorem wrap_keeps_text (str : string) (ml : Z) : nonws (wrap str ml) = nonws str.
Proof.
  unfold wrap. destruct (Z.leb ml 0).
  - apply nonws_trim.
  - rewrite nonws_join by reflexivity. unfold split_sp. rewrite wrap_words_nonws, split_sp_nonws. reflexivity.
Qed.

(** X7: with [maxLength > 0], when the first word of [str.split(' ')] is
    not shorter than [maxLength], [wrap] starts its output with an empty
    line. *)
Theorem wrap_long_first_word (str w : string) (ws : list string) (ml : Z) :
  (0 < ml)%Z -> split_sp str = w :: ws -> (ml <= Z.of_nat (String.length w))%Z ->
  exists rest, wrap str ml = newline ++ rest.
Proof.
  intros Hml Hs Hw. unfold wrap. replace (Z.leb ml 0) with false by (symmetry; apply Z.leb_gt; exact Hml).
  rewrite Hs. simpl. replace (Z.ltb (Z.of_nat (String.length w)) ml) with false
    by (symmetry; apply Z.ltb_ge; exact Hw).
  destruct (wrap_words_prefix ml ws [trim ""] (w ++ " ")) as (l1 & l2 & ->).
  exists (join newline (l1 :: l2)). reflexivity.
Qed.

Lemma wrap_long_first_word_witness :
  (0 < 4)%Z /\ split_sp "abcdef gh ij" = ["abcdef"; "gh"; "ij"] /\
  (4 <= Z.of_nat (String.length "abcdef"))%Z /\
  exists rest, wrap "abcdef gh ij" 4 = newline ++ rest.
Proof.
  split; [lia|]. split; [reflexivity|]. split; [simpl; lia|].
  apply (wrap_long_first_word "abcdef gh ij" "abcdef" ["gh"; "ij"] 4); [lia | reflexivity | simpl; lia].
Defined.

(* ------------------------------------------------------------------ *)
(** ** The facade's reads of the mainline and of move paths *)

(** A move rooted within [f] steps: the loop of [historyToMove] ends within
    [f] iterations at the root of its chain. *)
Lemma htm_loop_rooted (s : St) (f : nat) : forall x acc, rooted f s x = true ->
  exists ch r mr, htm_loop f x acc s = (Ok (Some (acc ++ ch)%list), s) /\
    (forall i y, (x :: ch) !! i = Some y -> iter_prev s i x = Some y) /\
    last (x :: ch) = Some r /\ st_heap s !! r = Some mr /\ mv_previous mr = None.
Proof.
  induction f as [|f IH]; intros x acc H; [discriminate|].
  cbn [rooted] in H. destruct (st_heap s !! x) as [mx|] eqn:Hx; [|discriminate].
  apply andb_true_iff in H as [_ H].
  cbn [htm_loop]. rewrite (bind_ok _ _ s s mx) by (apply get_mv_some; exact Hx). cbv beta.
  destruct (mv_previous mx) as [p|] eqn:Hp.
  - destruct (IH p (acc ++ [p])%list H) as (ch & r & mr & Hl & Hi & Hr & Hmr & Hpr).
    exists (p :: ch), r, mr. split; [rewrite Hl, <- app_assoc; reflexivity|]. split.
    + intros [|i] y Hy; simpl in Hy.
      * injection Hy as <-. reflexivity.
      * simpl. rewrite Hx, Hp. apply Hi, Hy.
    + split; [exact Hr|]. auto.
  - exists [], x, mx. rewrite app_nil_r. split; [reflexivity|]. split.
    + intros [|i] y Hy; simpl in Hy; [injection Hy as <-; reflexivity | destruct i; discriminate].
    + auto.
Qed.

(** X8: in a well-formed tree, [historyToMove(x)] for a move [x] of the
    tree ends and returns the path from the root down to [x]: read from the
    end, its [i]-th move is [i] [previous] steps above [x], its first move
    has no [previous], and it holds [x.ply - setUpPly + 1] moves. *)
Theorem historyToMove_path (E : engine) (s : St) (x : nat) (mx : Move) :
  wfb E s = true -> st_heap s !! x = Some mx -> live s x = true ->
  exists ch r mr zx z0, historyToMove x s = (Ok (Some (rev (x :: ch))), s) /\
    (forall i y, (x :: ch) !! i = Some y -> iter_prev s i x = Some y) /\
    last (x :: ch) = Some r /\ st_heap s !! r = Some mr /\ mv_previous mr = None /\
    mv_ply mx = JNum zx /\ st_setUpPly s = JNum z0 /\ zx = (z0 + Z.of_nat (length ch))%Z.
Proof.
  intros Hwf Hx Hl. pose proof Hl as Hl'. unfold live in Hl'.
  destruct (htm_loop_rooted s _ x [x] Hl') as (ch & r & mr & Hh & Hi & Hr & Hmr & Hpr).
  assert (Hk : iter_prev s (length ch) x = Some r).
  { apply Hi. rewrite <- Hr, last_lookup. reflexivity. }
  destruct (chain_ply E s Hwf (length ch) x r mr Hl Hk Hmr) as (mx' & zx & zr & Hmx' & Hzx & Hzr & Hz).
  rewrite Hx in Hmx'. injection Hmx' as <-.
  destruct (move_wfb_facts _ _ _ _ (wf_move E s Hwf r mr Hmr (live_iter s _ x r Hk Hl))) as [_ [Hpl _]].
  rewrite Hpr in Hpl. simpl in Hpl.
  exists ch, r, mr, zx, zr. repeat split; auto.
  - unfold historyToMove. rewrite (bind_ok _ _ s s s) by reflexivity. cbv beta.
    rewrite (bind_ok _ _ s s (Some ([x] ++ ch)%list)) by exact Hh. reflexivity.
  - congruence.
Qed.

Lemma historyToMove_path_witness :
  exists mx, wfb toy (loaded game_line) = true /\ st_heap (loaded game_line) !! 5 = Some mx /\
    live (loaded game_line) 5 = true /\
    exists ch r mr zx z0, historyToMove 5 (loaded game_line) = (Ok (Some (rev (5 :: ch))), loaded game_line) /\
      (forall i y, (5 :: ch) !! i = Some y -> iter_prev (loaded game_line) i 5 = Some y) /\
      last (5 :: ch) = Some r /\ st_heap (loaded game_line) !! r = Some mr /\ mv_previous mr = None /\
      mv_ply mx = JNum zx /\ st_setUpPly (loaded game_line) = JNum z0 /\ zx = (z0 + Z.of_nat (length ch))%Z.
Proof.
  assert (Hw : wfb toy (loaded game_line) = true) by (vm_compute; reflexivity).
  assert (Hl : live (loaded game_line) 5 = true) by (vm_compute; reflexivity).
  destruct (st_heap (loaded game_line) !! 5) as [mx|] eqn:Hm.
  - exists mx. split; [exact Hw|]. split; [reflexivity|]. split; [exact Hl|].
    exact (historyToMove_path toy (loaded game_line) 5 mx Hw Hm Hl).
  - exfalso. vm_compute in Hm. discriminate.
Defined.

Lemma rooted_S (f : nat) (s : St) (x : nat) :
  rooted (S f) s x = match st_heap s !! x with
                     | Some mx => in_own_array s x mx &&
                                  match mv_previous mx with
                                  | None => true
                                  | Some p => rooted f s p
                                  end
                     | None => false
                     end.
Proof. reflexivity. Qed.

Lemma rooted_le (f g : nat) (s : St) (x : nat) : f <= g -> rooted f s x = true -> rooted g s x = true.
Proof. induction 1; auto using rooted_mono. Qed.

(** The moves of [History.moves] in a well-formed tree: the [i]-th one is a
    move of the tree with ply [setUpPly + i]. *)
Lemma main_elem (E : engine) (s : St) (l : list nat) (i x : nat) :
  wfb E s = true -> st_arrs s !! st_moves s = Some l -> l !! i = Some x ->
  exists mx z0, st_heap s !! x = Some mx /\ live s x = true /\
    st_setUpPly s = JNum z0 /\ mv_ply mx = JNum (z0 + Z.of_nat i)%Z.
Proof.
  intros Hwf Hl Hi.
  pose proof (proj1 (proj2 (proj2 (proj2 (wfb_parts E s Hwf))))) as Hmain.
  unfold main_wfb in Hmain. rewrite Hl, andb_true_iff in Hmain. destruct Hmain as [Ha Hh].
  pose proof (arr_wfb_pos _ _ _ _ Ha) as Hpos.
  destruct l as [|h t]; [discriminate|]. simpl in Hh.
  destruct (st_heap s !! h) as [mh|] eqn:Hmh; [|discriminate]. apply bool_decide_eq_true in Hh.
  (* each element is rooted within its index + 1 steps *)
  assert (Hr : forall j y, (h :: t) !! j = Some y -> rooted (S j) s y = true).
  { induction j as [|j IH]; intros y Hy; destruct (Hpos _ _ Hy) as (my & Hmy & Hv & Hp).
    - simpl in Hy. injection Hy as <-. rewrite rooted_S, Hmy.
      assert (my = mh) as -> by congruence. rewrite Hh, andb_true_r.
      unfold in_own_array. rewrite Hv, Hl. apply bool_decide_eq_true_2. left.
    - destruct Hp as (y' & Hy' & Hp). rewrite rooted_S, Hmy, Hp, (IH y' Hy'), andb_true_r.
      unfold in_own_array. rewrite Hv, Hl. apply bool_decide_eq_true_2.
      eapply list_elem_of_lookup_2, Hy. }
  (* the elements are distinct, so there are at most [size] of them *)
  assert (Hinj : forall a b ya yb, (h :: t) !! a = Some ya -> (h :: t) !! b = Some yb ->
                   ya = yb -> a <= b -> a = b).
  { intros a b ya yb Ha' Hb' -> Hab. destruct (Nat.eq_dec a b) as [|Hne]; [assumption|exfalso].
    pose proof (arr_prev s (st_moves s) (h :: t) a yb a Ha Ha' (le_n a)) as E1.
    pose proof (arr_prev s (st_moves s) (h :: t) b yb a Ha Hb' Hab) as E2.
    rewrite Nat.sub_diag in E1. rewrite E1 in E2. simpl in E2.
    destruct (b - a) as [|c] eqn:Hc; [lia|].
    destruct (Hpos (S c) h (eq_sym E2)) as (my & Hmy & _ & y & _ & Hp). congruence. }
  assert (Hlen : length (h :: t) <= size (st_heap s)).
  { apply (size_ge_inj _ (fun j => nth j (h :: t) 0)).
    - intros j Hj. destruct (lookup_lt_is_Some_2 (h :: t) j Hj) as [y Hy].
      rewrite (nth_lookup_Some _ _ _ _ Hy). destruct (Hpos _ _ Hy) as (my & Hmy & _). eauto.
    - intros a b Ha' Hb' Heq.
      destruct (lookup_lt_is_Some_2 (h :: t) a Ha') as [ya Hya].
      destruct (lookup_lt_is_Some_2 (h :: t) b Hb') as [yb Hyb].
      rewrite (nth_lookup_Some _ _ _ _ Hya), (nth_lookup_Some _ _ _ _ Hyb) in Heq.
      destruct (Nat.le_ge_cases a b); [|symmetry]; eapply Hinj; eauto. }
  assert (Hlive : live s x = true).
  { unfold live. apply (rooted_le (S i)); [|exact (Hr i x Hi)].
    apply lookup_lt_Some in Hi. lia. }
  assert (Hk : iter_prev s i x = Some h).
  { rewrite (arr_prev s (st_moves s) (h :: t) i x i Ha Hi (le_n i)), Nat.sub_diag. reflexivity. }
  destruct (chain_ply E s Hwf i x h mh Hlive Hk Hmh) as (mx & zx & zh & Hmx & Hzx & Hzh & Hz).
  destruct (move_wfb_facts _ _ _ _ (wf_move E s Hwf h mh Hmh (live_iter s i x h Hk Hlive))) as [_ [Hpl _]].
  rewrite Hh in Hpl. simpl in Hpl.
  exists mx, zh. repeat split; auto.
  - congruence.
  - rewrite Hzx, Hz. reflexivity.
Qed.

Lemma lookup_nth_error {A} (l : list A) (i : nat) : l !! i = nth_error l i.
Proof. revert i; induction l as [|a l IH]; intros [|i]; simpl; auto. Qed.

Lemma history_some (s : St) (l : list nat) :
  st_arrs s !! st_moves s = Some l -> history s = (Ok l, s).
Proof. intros H. unfold history, bind, get. simpl. apply get_arr_some, H. Qed.

(** X9: in a well-formed tree, [fenOfPly(n)] returns the setup FEN when
    [n <= 0], throws a TypeError when [n] is past the end of the mainline,
    and otherwise returns the FEN of the [n]-th mainline move, whose ply is
    [setUpPly + n - 1]; it changes nothing. *)
Theorem fenOfPly_mainline (E : engine) (s : St) (l : list nat) (n : Z) :
  wfb E s = true -> st_arrs s !! st_moves s = Some l ->
  ((n <= 0)%Z -> fenOfPly n s = (Ok (st_headerFen s), s)) /\
  ((Z.of_nat (length l) < n)%Z -> fenOfPly n s = (Throw TypeError, s)) /\
  ((0 < n <= Z.of_nat (length l))%Z -> exists x mx z0,
     l !! Z.to_nat (n - 1) = Some x /\ st_heap s !! x = Some mx /\
     fenOfPly n s = (Ok (mv_fen mx), s) /\
     st_setUpPly s = JNum z0 /\ mv_ply mx = JNum (z0 + n - 1)%Z).
Proof.
  intros Hwf Hl. split; [|split].
  - intros Hn. unfold fenOfPly. replace (Z.ltb 0 n) with false by (symmetry; apply Z.ltb_ge; lia).
    reflexivity.
  - intros Hn. unfold fenOfPly. replace (Z.ltb 0 n) with true by (symmetry; apply Z.ltb_lt; lia).
    rewrite (bind_ok _ _ s s l) by (apply history_some, Hl). cbv beta.
    replace (nth_error l (Z.to_nat (n - 1))) with (@None nat); [reflexivity|].
    symmetry. apply nth_error_None. lia.
  - intros Hn. destruct (lookup_lt_is_Some_2 l (Z.to_nat (n - 1)) ltac:(lia)) as [x Hx].
    destruct (main_elem E s l _ x Hwf Hl Hx) as (mx & z0 & Hmx & _ & Hz0 & Hply).
    exists x, mx, z0. repeat split; auto.
    + unfold fenOfPly. replace (Z.ltb 0 n) with true by (symmetry; apply Z.ltb_lt; lia).
      rewrite (bind_ok _ _ s s l) by (apply history_some, Hl). cbv beta.
      rewrite <- lookup_nth_error, Hx.   
      rewrite (bind_ok _ _ s s mx) by (apply get_mv_some, Hmx). reflexivity.
    + rewrite Hply. f_equal. lia.
Qed.

Lemma fenOfPly_mainline_witness :
  wfb toy (loaded game_line) = true /\
  st_arrs (loaded game_line) !! st_moves (loaded game_line) = Some [3; 4; 5] /\
  (((2 <= 0)%Z -> fenOfPly 2 (loaded game_line) = (Ok (st_headerFen (loaded game_line)), loaded game_line)) /\
   ((Z.of_nat (length [3; 4; 5]) < 2)%Z -> fenOfPly 2 (loaded game_line) = (Throw TypeError, loaded game_line)) /\
   ((0 < 2 <= Z.of_nat (length [3; 4; 5]))%Z -> exists x mx z0,
      [3; 4; 5] !! Z.to_nat (2 - 1) = Some x /\ st_heap (loaded game_line) !! x = Some mx /\
      fenOfPly 2 (loaded game_line) = (Ok (mv_fen mx), loaded game_line) /\
      st_setUpPly (loaded game_line) = JNum z0 /\ mv_ply mx = JNum (z0 + 2 - 1)%Z)).
Proof.
  assert (Hw : wfb toy (loaded game_line) = true) by (vm_compute; reflexivity).
  assert (Hl : st_arrs (loaded game_line) !! st_moves (loaded game_line) = Some [3; 4; 5])
    by (vm_compute; reflexivity).
  split; [exact Hw|]. split; [exact Hl|].
  exact (fenOfPly_mainline toy (loaded game_line) [3; 4; 5] 2 Hw Hl).
Defined.

(** X10: when the current move is the last mainline move (as [loadPgn]
    leaves it), [fenOfPly(plyCount())] and [fen()] give the same result. *)
Theorem fenOfPly_plyCount (E : engine) (s : St) (l : list nat) :
  wfb E s = true -> st_arrs s !! st_moves s = Some l -> st_cur s = last l ->
  (let* n := plyCount in fenOfPly (Z.of_nat n)) s = fen Undef s.
Proof.
  intros Hwf Hl Hc.
  assert (Hp : plyCount s = (Ok (length l), s)).
  { unfold plyCount. rewrite (bind_ok _ _ s s l) by (apply history_some, Hl). reflexivity. }
  rewrite (bind_ok _ _ s s (length l)) by exact Hp.
  unfold fen, arg_or_current. rewrite (bind_ok _ _ s s (st_cur s)) by reflexivity. cbv beta.
  rewrite Hc. destruct l as [|h t] using rev_ind.
  - reflexivity.
  - rewrite last_snoc. clear IHt.
    assert (Hx : (t ++ [h])%list !! length t = Some h) by (rewrite lookup_app_r, Nat.sub_diag by lia; reflexivity).
    destruct (main_elem E s _ _ h Hwf Hl Hx) as (mx & _ & Hmx & _).
    unfold fenOfPly. rewrite length_app. simpl.
    replace (Z.ltb 0 (Z.of_nat (length t + 1))) with true by (symmetry; apply Z.ltb_lt; lia).
    rewrite (bind_ok _ _ s s (t ++ [h])%list) by (apply history_some, Hl). cbv beta.
    replace (Z.to_nat (Z.of_nat (length t + 1) - 1)) with (length t) by lia.
    rewrite <- lookup_nth_error, Hx. reflexivity.
Qed.

Lemma fenOfPly_plyCount_witness :
  wfb toy (loaded game_line) = true /\
  st_arrs (loaded game_line) !! st_moves (loaded game_line) = Some [3; 4; 5] /\
  st_cur (loaded game_line) = last [3; 4; 5] /\
  (let* n := plyCount in fenOfPly (Z.of_nat n)) (loaded game_line) = fen Undef (loaded game_line).
Proof.
  assert (Hw : wfb toy (loaded game_line) = true) by (vm_compute; reflexivity).
  assert (Hl : st_arrs (loaded game_line) !! st_moves (loaded game_line) = Some [3; 4; 5])
    by (vm_compute; reflexivity).
  assert (Hc : st_cur (loaded game_line) = last [3; 4; 5]) by (vm_compute; reflexivity).
  split; [exact Hw|]. split; [exact Hl|]. split; [exact Hc|].
  exact (fenOfPly_plyCount toy (loaded game_line) [3; 4; 5] Hw Hl Hc).
Defined.

Lemma find_variation_sound (c : candidate) (vs : list nat) (s : St) (x : nat) :
  fst (find_variation c vs s) = Ok (Some x) ->
  candidateMatches c (Some x) s = (Ok true, s) /\
  exists v t, In v vs /\ st_arrs s !! v = Some (x :: t).
Proof.
  induction vs as [|v vs IH]; intros H; [discriminate|].
  destruct (st_arrs s !! v) as [l|] eqn:Hv.
  2: { cbn [find_variation] in H. unfold bind, get_arr in H. rewrite Hv in H. discriminate. }
  cbn [find_variation] in H. rewrite (bind_ok _ _ s s l) in H by (apply get_arr_some, Hv).
  destruct l as [|x0 t].
  - destruct (IH H) as [H1 (v' & t' & Hin & Ht)]. split; [exact H1|]. exists v', t'. auto with datatypes.
  - destruct (candidateMatches c (Some x0) s) as [r s1] eqn:Hc.
    pose proof (candidateMatches_ro c (Some x0) s) as Hro. rewrite Hc in Hro. simpl in Hro. subst s1.
    destruct r as [b|e].
    + rewrite (bind_ok _ _ s s b) in H by exact Hc. destruct b.
      * injection H as <-. split; [exact Hc|]. exists v, t. auto with datatypes.
      * destruct (IH H) as [H1 (v' & t' & Hin & Ht)]. split; [exact H1|]. exists v', t'. auto with datatypes.
    + unfold bind in H. rewrite Hc in H. discriminate.
Qed.

(** X11: when [getVariation(candidate, move)] returns a move [x], it
    changes nothing, [x] matches the candidate, and [x] is the first move of
    one of the variations of [nextMove(move)]. *)
Theorem getVariation_sound (c : candidate) (m : option nat) (s : St) (x : nat) :
  fst (getVariation c m s) = Ok (Some x) ->
  getVariation c m s = (Ok (Some x), s) /\ candidateMatches c (Some x) s = (Ok true, s) /\
  exists n mn v t, nextMove m s = (Ok (Some n), s) /\ st_heap s !! n = Some mn /\
    In v (mv_variations mn) /\ st_arrs s !! v = Some (x :: t).
Proof.
  intros H. pose proof (getVariation_ro c m s) as Hro.
  split; [destruct (getVariation c m s); simpl in *; congruence|].
  unfold getVariation in H.
  destruct (nextMove m s) as [r s1] eqn:Hn.
  pose proof (nextMove_ro m s) as Hnro. rewrite Hn in Hnro. simpl in Hnro. subst s1.
  destruct r as [[n|]|e].
  - rewrite (bind_ok _ _ s s (Some n)) in H by exact Hn. cbv beta iota in H.
    destruct (st_heap s !! n) as [mn|] eqn:Hmn.
    2: { unfold bind, get_mv in H. rewrite Hmn in H. discriminate. }
    rewrite (bind_ok _ _ s s mn) in H by (apply get_mv_some, Hmn).
    destruct (find_variation_sound c _ s x H) as [H1 (v & t & Hin & Ht)].
    split; [exact H1|]. exists n, mn, v, t. auto.
  - rewrite (bind_ok _ _ s s None) in H by exact Hn. discriminate.
  - unfold bind in H. rewrite Hn in H. discriminate.
Qed.

Lemma getVariation_sound_witness :
  fst (getVariation (CSan "c5") (Some 3) (loaded game_branch)) = Ok (Some 7) /\
  getVariation (CSan "c5") (Some 3) (loaded game_branch) = (Ok (Some 7), loaded game_branch) /\
  candidateMatches (CSan "c5") (Some 7) (loaded game_branch) = (Ok true, loaded game_branch) /\
  exists n mn v t, nextMove (Some 3) (loaded game_branch) = (Ok (Some n), loaded game_branch) /\
    st_heap (loaded game_branch) !! n = Some mn /\
    In v (mv_variations mn) /\ st_arrs (loaded game_branch) !! v = Some (7 :: t).
Proof.
  assert (H : fst (getVariation (CSan "c5") (Some 3) (loaded game_branch)) = Ok (Some 7))
    by (vm_compute; reflexivity).
  split; [exact H|]. exact (getVariation_sound (CSan "c5") (Some 3) (loaded game_branch) 7 H).
Defined.

(** X12: [load(fen)] with a non-empty FEN that chess.js accepts leaves an
    empty game at that position: [fen()] returns [fen], [plyCount()] is 0,
    there is no current move and the facade's position is [fen]. With a FEN
    chess.js refuses it throws and changes nothing. *)
Theorem load_fen (E : engine) (s : St) (f : string) :
  (e_valid E f = true -> f <> "" ->
   exists s', load E f s = (Ok tt, s') /\ fen Undef s' = (Ok f, s') /\
     plyCount s' = (Ok 0, s') /\ st_cur s' = None /\ st_board s' = f) /\
  (e_valid E f = false -> load E f s = (Throw ("Invalid FEN: " ++ f), s)).
Proof.
  split.
  - intros Hv Hne. unfold load, chess_load. rewrite Hv.
    eexists. split; [reflexivity|].
    split; [|split; [|split; reflexivity]].
    + unfold fen, arg_or_current, setUpFen, bind, get, ret. simpl.
      destruct (String.eqb f FEN_start) eqn:Hs; simpl.
      * apply String.eqb_eq in Hs. subst f. reflexivity.
      * destruct (String.eqb f "") eqn:He; [apply String.eqb_eq in He; contradiction | reflexivity].
    + unfold plyCount, history, get_arr, bind, get, ret. simpl.
      rewrite lookup_insert. destruct (decide _); [reflexivity | congruence].
  - intros Hv. unfold load, chess_load. rewrite Hv. reflexivity.
Qed.

Lemma load_fen_witness :
  e_valid toy fen_e4 = true /\ fen_e4 <> "" /\
  exists s', load toy fen_e4 (loaded game_line) = (Ok tt, s') /\ fen Undef s' = (Ok fen_e4, s') /\
     plyCount s' = (Ok 0, s') /\ st_cur s' = None /\ st_board s' = fen_e4.
Proof.
  assert (Hv : e_valid toy fen_e4 = true) by (vm_compute; reflexivity).
  assert (Hne : fen_e4 <> "") by discriminate.
  split; [exact Hv|]. split; [exact Hne|].
  exact (proj1 (load_fen toy (loaded game_line) fen_e4) Hv Hne).
Defined.

(** X13: [seek(move)] to a move whose FEN chess.js accepts (or to [null]
    with an accepted setup FEN) makes [move] the current move, loads its FEN
    into the facade's position, so that [fen()] afterwards returns the FEN
    of [move] (the setup FEN for [null]), and appends one [LegalMove]
    event; the moves are not touched. When chess.js refuses the FEN,
    [seek] throws and changes nothing. *)
Theorem seek_then_fen (E : engine) (s : St) (m : option nat) :
  (match m with
   | Some p => exists pm, st_heap s !! p = Some pm /\ e_valid E (mv_fen pm) = true
   | None => e_valid E (st_headerFen s) = true
   end ->
   exists s' f, seek E m s = (Ok m, s') /\ fen_at s m = Some f /\ st_cur s' = m /\
     fen Undef s' = (Ok f, s') /\ st_board s' = f /\ st_heap s' = st_heap s /\
     st_events s' = (st_events s ++ [mkEvent LegalMove m (st_cur s)])%list) /\
  (match m with
   | Some p => exists pm, st_heap s !! p = Some pm /\ e_valid E (mv_fen pm) = false
   | None => e_valid E (st_headerFen s) = false
   end -> exists e, seek E m s = (Throw e, s)).
Proof.
  split.
  - destruct m as [p|]; intros H.
    + destruct H as (pm & Hp & Hv).
      eexists _, (mv_fen pm). split.
      { unfold seek, bind, get_mv, chess_load, get, modify, publishEvent, ret. rewrite Hp, Hv. reflexivity. }
      simpl. rewrite Hp. repeat split; try reflexivity.
      unfold fen, arg_or_current, bind, get, get_mv, ret. simpl. rewrite Hp. reflexivity.
    + eexists _, (st_headerFen s). split.
      { unfold seek, bind, chess_load, get, modify, publishEvent, ret. rewrite H. reflexivity. }
      repeat split; reflexivity.
  - destruct m as [p|]; intros H.
    + destruct H as (pm & Hp & Hv). eexists.
      unfold seek, bind, get_mv, chess_load, get, modify, publishEvent, ret. rewrite Hp, Hv. reflexivity.
    + eexists. unfold seek, bind, chess_load, get, modify, publishEvent, ret. rewrite H. reflexivity.
Qed.

Lemma seek_then_fen_witness :
  (exists pm, st_heap (loaded game_line) !! 4 = Some pm /\ e_valid toy (mv_fen pm) = true) /\
  exists s' f, seek toy (Some 4) (loaded game_line) = (Ok (Some 4), s') /\
     fen_at (loaded game_line) (Some 4) = Some f /\ st_cur s' = Some 4 /\
     fen Undef s' = (Ok f, s') /\ st_board s' = f /\ st_heap s' = st_heap (loaded game_line) /\
     st_events s' = (st_events (loaded game_line) ++
                     [mkEvent LegalMove (Some 4) (st_cur (loaded game_line))])%list.
Proof.
  assert (Hp : exists pm, st_heap (loaded game_line) !! 4 = Some pm /\ e_valid toy (mv_fen pm) = true).
  { destruct (st_heap (loaded game_line) !! 4) as [pm|] eqn:Ep.
    - exists pm. split; [reflexivity|].
      assert (Hf : option_map mv_fen (st_heap (loaded game_line) !! 4) = Some fen_e4e5)
        by (vm_compute; reflexivity).
      rewrite Ep in Hf. injection Hf as ->. vm_compute. reflexivity.
    - vm_compute in Ep. discriminate. }
  split; [exact Hp|].
  exact (proj1 (seek_then_fen toy (loaded game_line) (Some 4)) Hp).
Defined.

(* ------------------------------------------------------------------ *)
(** ** [isDescendant] on the ancestors of a move *)

(** A live move is a move of the heap. *)
Lemma live_some s x : live s x = true -> exists mx, st_heap s !! x = Some mx.
Proof.
  unfold live. intros H. cbn [rooted] in H.
  destruct (st_heap s !! x) as [mx|]; [eauto | discriminate].
Qed.

(** The first move of the array of a move whose [previous] chain reaches
    [mid] is not in the mainline, when [mid] is not. *)
Lemma first_not_main_wf E s mid m A k y my B : wfb E s = true ->
  st_heap s !! mid = Some m -> mv_variation m = Some A -> A <> st_moves s ->
  live s y = true -> iter_prev s k y = Some mid -> st_heap s !! y = Some my ->
  mv_variation my = Some B -> isInMainline_first B s = (Ok false, s).
Proof.
  intros Hwf Hm HA HAms Hly Hk Hy HB.
  destruct (wf_arr E s Hwf _ _ Hy Hly) as (a & l & i & Ha & Hl & Hi & Hwa).
  rewrite HB in Ha. injection Ha as <-.
  unfold isInMainline_first, bind, get_arr. rewrite Hl.
  destruct l as [|h0 t]; [discriminate|]. cbn [head].
  destruct (arr_wfb_pos _ _ _ _ Hwa 0 h0 eq_refl) as (mh & Hmh & Hvh & _).
  rewrite (isInMainline_some _ _ _ Hmh), Hvh. simpl.
  destruct (Nat.eqb_spec B (st_moves s)) as [HBm|]; [|reflexivity]. exfalso.
  destruct (decide (B = A)) as [->|HBA]; [congruence|].
  apply (below_not_main E s Hwf k y my B mid m Hly Hk Hy HB Hm); congruence.
Qed.

(** The loop of [isDescendant], started from the array of a move whose
    [previous] chain reaches [mid] (not in the mainline) within [k < fuel]
    steps, reaches the array of [mid]. *)
Lemma climb_wf E s mid m A (Hwf : wfb E s = true) (Hm : st_heap s !! mid = Some m)
  (HA : mv_variation m = Some A) (HAms : A <> st_moves s) f :
  forall k c mc B, k < f -> live s c = true -> iter_prev s k c = Some mid ->
  st_heap s !! c = Some mc -> mv_variation mc = Some B ->
  desc_loop f (Some A) (Some B) s = (Ok true, s).
Proof.
  induction f as [|f IH]; intros k c mc B Hkf Hlc Hk Hc HB; [lia|].
  cbn [desc_loop]. change (opt_eqb (Some B) (Some A)) with (Nat.eqb B A).
  destruct (Nat.eqb_spec B A) as [->|Hne]; [reflexivity|].
  destruct (wf_arr E s Hwf _ _ Hc Hlc) as (a & l & i & Ha & Hl & Hi & Hwa).
  rewrite HB in Ha. injection Ha as <-.
  assert (HmA : mv_variation m <> Some B) by congruence.
  destruct (leave_array s B l i c k mid m Hwa Hi Hk Hm HmA)
    as (h & mh & y & Hh & Hik & Hih & Hmh & Hp & Hk').
  pose proof (live_iter s i c h Hih Hlc) as Hlh.
  pose proof (live_prev s h mh y Hlh Hmh Hp) as Hly.
  destruct (move_wfb_facts _ _ _ _ (wf_move E s Hwf _ _ Hmh Hlh)) as (_ & Hlink & _).
  rewrite Hp in Hlink. destruct Hlink as (my & Hmy & _).
  destruct (move_wfb_facts _ _ _ _ (wf_move E s Hwf _ _ Hmy Hly)) as (_ & _ & (By & ly & HBy & _) & _).
  rewrite (bind_ok _ _ s s l) by (unfold deref_arr, get_arr; rewrite Hl; reflexivity).
  cbv beta. rewrite Hh. cbv iota.
  rewrite (bind_ok _ _ s s (Some By)); cycle 1.
  { unfold bind, get_mv. rewrite Hmh, Hp. unfold variation_of, bind, get_mv, ret.
    rewrite Hmy, HBy. reflexivity. }
  cbv beta iota.
  rewrite (bind_ok _ _ s s false)
    by exact (first_not_main_wf E s mid m A (k - i - 1) y my By Hwf Hm HA HAms Hly Hk' Hmy HBy).
  cbv beta iota. apply (IH (k - i - 1) y my By); auto. lia.
Qed.

(** X14: in a well-formed tree, [isDescendant(parent, move)] is true
    whenever [parent] is [move] or is reached from [move] by following
    [previous] links, whether the two moves are in the mainline or in
    variations; it does not change the state. *)
Theorem isDescendant_complete (E : engine) (s : St) (p x k : nat) :
  wfb E s = true -> live s x = true -> iter_prev s k x = Some p ->
  isDescendant p (Arg (Some x)) s = (Ok true, s).
Proof.
  intros Hwf Hlx Hk. unfold isDescendant.
  rewrite (bind_ok _ _ s s (Some x)) by reflexivity. cbv beta iota.
  destruct (Nat.eqb_spec p x) as [->|Hne]; [reflexivity|].
  pose proof (live_iter s k x p Hk Hlx) as Hlp.
  destruct (live_some s p Hlp) as [pm Hpm].
  destruct (chain_ply E s Hwf k x p pm Hlx Hk Hpm) as (mx & zx & zp & Hmx & Hzx & Hzp & Hz).
  rewrite (bind_ok _ _ s s mx) by (apply get_mv_some; exact Hmx). cbv beta.
  rewrite (bind_ok _ _ s s pm) by (apply get_mv_some; exact Hpm). cbv beta.
  rewrite Hzx, Hzp. unfold jlt.
  replace (Z.ltb zx zp) with false by (symmetry; apply Z.ltb_ge; lia). cbv iota.
  rewrite (bind_ok _ _ s s _) by exact (isInMainline_some _ _ _ Hpm). cbv beta.
  destruct (move_wfb_facts _ _ _ _ (wf_move E s Hwf _ _ Hpm Hlp)) as (_ & _ & (A & _ & HA & _) & _).
  rewrite HA. change (opt_eqb (Some A) (Some (st_moves s))) with (Nat.eqb A (st_moves s)).
  destruct (Nat.eqb_spec A (st_moves s)) as [HAm|HAm]; [reflexivity|]. cbv iota.
  destruct (move_wfb_facts _ _ _ _ (wf_move E s Hwf _ _ Hmx Hlx)) as (_ & _ & (B & _ & HB & _) & _).
  assert (HBm : B <> st_moves s).
  { destruct (decide (B = A)) as [->|HBA]; [exact HAm|].
    apply (below_not_main E s Hwf k x mx B p pm Hlx Hk Hmx HB Hpm). congruence. }
  rewrite (bind_ok _ _ s s false); cycle 1.
  { rewrite (isInMainline_some _ _ _ Hmx), HB. simpl.
    destruct (Nat.eqb_spec B (st_moves s)); [congruence | reflexivity]. }
  cbv beta iota. rewrite (bind_ok _ _ s s s) by reflexivity. cbv beta. rewrite HB.
  apply (climb_wf E s p pm A Hwf Hpm HA HAm) with (k := k) (c := x) (mc := mx); auto.
  apply (chain_fuel E s _ k x p pm Hwf Hlx Hk Hpm).
  intros y my Hy. eauto.
Qed.

Lemma isDescendant_complete_witness :
  wfb toy (loaded game_branch) = true /\ live (loaded game_branch) 8 = true /\
  iter_prev (loaded game_branch) 1 8 = Some 7 /\
  isDescendant 7 (Arg (Some 8)) (loaded game_branch) = (Ok true, loaded game_branch).
Proof.
  assert (Hwf : wfb toy (loaded game_branch) = true) by (vm_compute; reflexivity).
  assert (Hl : live (loaded game_branch) 8 = true) by (vm_compute; reflexivity).
  assert (Hk : iter_prev (loaded game_branch) 1 8 = Some 7) by (vm_compute; reflexivity).
  split; [exact Hwf|]. split; [exact Hl|]. split; [exact Hk|].
  exact (isDescendant_complete toy (loaded game_branch) 7 8 1 Hwf Hl Hk).
Defined.

(* ------------------------------------------------------------------ *)
(** ** History.ts: the commands of a comment *)

Lemma split_ch_aux_nonempty c s cur : split_ch_aux c s cur <> [].
Proof.
  revert cur; induction s as [|d s IH]; intros cur; simpl; [discriminate|].
  destruct (Ascii.eqb d c); [discriminate | apply IH].
Qed.

(** [s.split(c).join(c)] is [s]. *)
Lemma join_split_ch_aux c s cur : join (String c "") (split_ch_aux c s cur) = cur ++ s.
Proof.
  revert cur; induction s as [|d s IH]; intros cur; simpl.
  - symmetry. apply str_app_nil_r.
  - destruct (Ascii.eqb_spec d c) as [->|Hne].
    + pose proof (split_ch_aux_nonempty c s "") as Hn.
      destruct (split_ch_aux c s "") as [|t ts] eqn:E; [congruence|].
      change (join (String c "") (cur :: t :: ts))
        with (cur ++ String c "" ++ join (String c "") (t :: ts)).
      rewrite <- E, IH. reflexivity.
    + rewrite IH, str_app_assoc. reflexivity.
Qed.

Lemma repeat_snoc_cons {A} (x : A) k (t : list A) :
  (repeat x k ++ x :: t = x :: repeat x k ++ t)%list.
Proof. induction k as [|k IH]; simpl; [reflexivity | now rewrite IH]. Qed.

(** The padding loop prepends ["00"] up to three tokens. *)
Lemma clk_pad_repeat f t : 3 - length t <= f -> clk_pad f t = (repeat "00" (3 - length t) ++ t)%list.
Proof.
  revert t; induction f as [|f IH]; intros t Hf; simpl.
  - replace (3 - length t) with 0 by lia. reflexivity.
  - destruct (Nat.ltb_spec (length t) 3) as [Hl|Hl].
    + rewrite IH by (simpl; lia). simpl length.
      replace (3 - length t) with (S (3 - S (length t))) by lia.
      simpl. apply repeat_snoc_cons.
    + replace (3 - length t) with 0 by lia. reflexivity.
Qed.

Lemma join_repeat00 k t : t <> [] ->
  join ":" (repeat "00" k ++ t)%list = str_repeat k "00:" ++ join ":" t.
Proof.
  intros Ht. induction k as [|k IH]; [reflexivity|].
  cbn [repeat app str_repeat].
  destruct (repeat "00" k ++ t)%list as [|u us] eqn:E.
  { destruct t; [congruence|]. destruct (repeat "00" k); discriminate. }
  change (join ":" ("00" :: u :: us)) with ("00" ++ ":" ++ join ":" (u :: us)).
  rewrite IH. reflexivity.
Qed.

(** The clock text of [renderCommands]. *)
Lemma clk_text c :
  join ":" (clk_pad 3 (split_ch ":" c)) = str_repeat (3 - length (split_ch ":" c)) "00:" ++ c.
Proof.
  rewrite clk_pad_repeat by lia. rewrite join_repeat00 by apply split_ch_aux_nonempty.
  unfold split_ch. change ":" with (String ":" ""). rewrite join_split_ch_aux. reflexivity.
Qed.

(** A left fold whose step only appends keeps its start as a prefix. *)
Lemma fold_app_prefix {A} (g : string -> A -> string) :
  (forall acc e, exists t, g acc e = acc ++ t) ->
  forall l acc, exists post, fold_left g l acc = acc ++ post.
Proof.
  intros Hg l. induction l as [|e l IH]; intros acc; simpl.
  - exists "". symmetry. apply str_app_nil_r.
  - destruct (Hg acc e) as [t Ht]. rewrite Ht. destruct (IH (acc ++ t)) as [post Hp].
    rewrite Hp, str_app_assoc. eauto.
Qed.

(** X15: when a comment has a clock [clk] and clocks are not skipped,
    [renderCommands] writes it as [[%clk ...]], where the text is [clk]
    itself preceded by as many ["00:"] fields as it takes to have three
    colon-separated fields (none when [clk] already has three or more); the
    whole output is wrapped in ["{ "] and [" } "]. *)
Theorem renderCommands_clk (d : DiagramComment) (skipDrawables : bool) (c : string) :
  dc_clk d = Some c -> c <> "" ->
  exists pre post, renderCommands d skipDrawables false =
    "{ " ++ pre ++ "[%clk " ++ str_repeat (3 - length (split_ch ":" c)) "00:" ++ c ++ "]"
    ++ post ++ " } ".
Proof.
  intros Hc Hne. unfold renderCommands. cbv zeta. rewrite Hc.
  assert (Ht : truthy (Some c) = true)
    by (simpl; destruct (String.eqb_spec c ""); [congruence | reflexivity]).
  rewrite Ht. cbn [negb andb]. rewrite clk_text.
  match goal with |- context [(?x ++ "[%clk " ++ _)%string] => generalize x as r end. intros r.
  match goal with |- context [fold_left ?g ?l ?a] =>
    assert (Hf : exists post, fold_left g l a = a ++ post);
    [apply fold_app_prefix; intros acc e; destruct (truthy (Some (snd e)));
       [eexists; reflexivity | exists ""; symmetry; apply str_app_nil_r] |] end.
  destruct Hf as [post Hp]. rewrite Hp.
  rewrite !str_app_assoc. exists r, post.
  rewrite str_length_app. cbn [String.length append]. simpl Nat.add.
  destruct (String.length r); reflexivity.
Qed.

Lemma renderCommands_clk_witness :
  dc_clk (mkDC None None None (Some "5:00") [("eval", "0.3")]) = Some "5:00" /\ "5:00" <> "" /\
  exists pre post, renderCommands (mkDC None None None (Some "5:00") [("eval", "0.3")]) false false =
    "{ " ++ pre ++ "[%clk " ++ str_repeat (3 - length (split_ch ":" "5:00")) "00:" ++ "5:00" ++ "]"
    ++ post ++ " } ".
Proof.
  assert (Hc : dc_clk (mkDC None None None (Some "5:00") [("eval", "0.3")]) = Some "5:00")
    by reflexivity.
  assert (Hne : "5:00" <> "") by discriminate.
  split; [exact Hc|]. split; [exact Hne|].
  exact (renderCommands_clk _ false "5:00" Hc Hne).
Defined.

Lemma getColorFromChesscomKeypress_nonempty k : String.eqb (getColorFromChesscomKeypress k) "" = false.
Proof.
  unfold getColorFromChesscomKeypress. destruct k as [k|]; [|reflexivity].
  repeat (destruct (String.eqb k _); [reflexivity|]). reflexivity.
Qed.

(** The loop pushes, in order, one field per entry whose square is not empty. *)
Lemma chesscom_loop_closed entries acc :
  chesscom_loop entries acc =
  (acc ++ map (fun e => (getColorFromChesscomKeypress (nth_error (split_ch ";" e) 2) ++
                        nth 0 (split_ch ";" e) "")%string)
             (List.filter (fun e => negb (String.eqb (nth 0 (split_ch ";" e) "") "")) entries))%list.
Proof.
  revert acc; induction entries as [|e es IH]; intros acc; cbn [chesscom_loop List.filter].
  - rewrite app_nil_r. reflexivity.
  - rewrite IH, getColorFromChesscomKeypress_nonempty, andb_true_r.
    destruct (String.eqb (nth 0 (split_ch ";" e) "") ""); cbn [negb].
    + reflexivity.
    + cbn [map]. rewrite <- app_assoc. reflexivity.
Qed.

(** X16: when a comment carries a non-empty Chess.com [c_highlight] or
    [c_arrow] command, [convertChesscomHighlights] keeps the comment's
    [colorFields] and [colorArrows] (an absent one becomes empty) and
    appends, in order, one entry per comma-separated item of the command
    whose square (the text before the first [;]) is not empty: the
    Lichess colour of the item's third [;]-field followed by the square;
    the other entries of the comment, the Chess.com commands among them,
    are kept unchanged. *)
Theorem convertChesscomHighlights_append (d : DiagramComment) :
  let conv (v : option string) :=
    match v with
    | Some x => map (fun e => (getColorFromChesscomKeypress (nth_error (split_ch ";" e) 2) ++
                              nth 0 (split_ch ";" e) "")%string)
                    (List.filter (fun e => negb (String.eqb (nth 0 (split_ch ";" e) "") ""))
                            (split_ch "," x))
    | None => []
    end in
  let highlight := rest_get "c_highlight" (dc_rest d) in
  let arrow := rest_get "c_arrow" (dc_rest d) in
  truthy highlight || truthy arrow = true ->
  convertChesscomHighlights (Some d) =
    Some (mkDC (Some (match dc_colorArrows d with Some l => l | None => [] end ++ conv arrow)%list)
               (Some (match dc_colorFields d with Some l => l | None => [] end ++ conv highlight)%list)
               (dc_comment d) (dc_clk d) (dc_rest d)).
Proof.
  cbv zeta. intros Ht. unfold convertChesscomHighlights.
  rewrite <- negb_orb, Ht. cbv beta iota. simpl negb. cbv iota.
  assert (Hv : forall (v : option string) acc,
    (match v with
     | Some h => if truthy v then chesscom_loop (split_ch "," h) acc else acc
     | None => acc
     end) =
    (acc ++ match v with
            | Some x => map (fun e => (getColorFromChesscomKeypress (nth_error (split_ch ";" e) 2) ++
                                      nth 0 (split_ch ";" e) "")%string)
                            (List.filter (fun e => negb (String.eqb (nth 0 (split_ch ";" e) "") ""))
                                    (split_ch "," x))
            | None => []
            end)%list).
  { intros [h|] acc; [|symmetry; apply app_nil_r].
    unfold truthy. destruct (String.eqb_spec h "") as [->|Hne]; simpl negb; cbv iota.
    - symmetry. apply app_nil_r.
    - apply chesscom_loop_closed. }
  rewrite !Hv. reflexivity.
Qed.

Lemma convertChesscomHighlights_append_witness :
  truthy (rest_get "c_highlight" (dc_rest (mkDC None (Some ["Re1"]) None None
                                      [("c_highlight", "e4;keyPressed;shift,;x,d5")]))) ||
  truthy (rest_get "c_arrow" (dc_rest (mkDC None (Some ["Re1"]) None None
                                      [("c_highlight", "e4;keyPressed;shift,;x,d5")]))) = true /\
  convertChesscomHighlights (Some (mkDC None (Some ["Re1"]) None None
                                      [("c_highlight", "e4;keyPressed;shift,;x,d5")])) =
    Some (mkDC (Some []) (Some ["Re1"; "Ge4"; "Rd5"]) None None
               [("c_highlight", "e4;keyPressed;shift,;x,d5")]).
Proof.
  assert (Ht : truthy (rest_get "c_highlight" (dc_rest (mkDC None (Some ["Re1"]) None None
                                      [("c_highlight", "e4;keyPressed;shift,;x,d5")]))) ||
               truthy (rest_get "c_arrow" (dc_rest (mkDC None (Some ["Re1"]) None None
                                      [("c_highlight", "e4;keyPressed;shift,;x,d5")]))) = true)
    by reflexivity.
  split; [exact Ht|].
  rewrite (convertChesscomHighlights_append _ Ht). vm_compute. reflexivity.
Defined.

(** A left fold whose step only appends, and appends [X] at [e], shows [X]
    when [e] is in the list. *)
Lemma fold_app_elem {A} (g : string -> A -> string) (e : A) (X : string) :
  (forall acc e, exists t, g acc e = acc ++ t) -> (forall acc, g acc e = acc ++ X) ->
  forall l acc, In e l -> exists q r, fold_left g l acc = acc ++ q ++ X ++ r.
Proof.
  intros Hg Hx l. induction l as [|e' l IH]; intros acc Hin; [destruct Hin|].
  simpl. destruct Hin as [<-|Hin].
  - rewrite Hx. destruct (fold_app_prefix g Hg l (acc ++ X)) as [post Hp].
    rewrite Hp. exists "", post. rewrite !str_app_assoc. reflexivity.
  - destruct (Hg acc e') as [t Ht]. rewrite Ht.
    destruct (IH (acc ++ t) Hin) as (q & r & Hq). rewrite Hq.
    exists (t ++ q), r. rewrite !str_app_assoc. reflexivity.
Qed.

(** X17: after [convertChesscomHighlights] has added Lichess fields for a
    Chess.com [c_highlight] command, rendering the comment with
    [renderCommands] (drawables not skipped) writes the fields as a
    [[%csl ...]] command and still writes the original command as
    [[%c_highlight ...]] after it, so both forms end up in the PGN. *)
Theorem convert_then_render (d d' : DiagramComment) (h : string) (skipClocks : bool)
    (fs : list string) :
  rest_get "c_highlight" (dc_rest d) = Some h -> h <> "" ->
  convertChesscomHighlights (Some d) = Some d' -> dc_colorFields d' = Some fs -> fs <> [] ->
  exists p q r, renderCommands d' false skipClocks =
    "{ " ++ p ++ "[%csl " ++ join "," fs ++ "]" ++ q ++ "[%c_highlight " ++ h ++ "]" ++ r ++ " } ".
Proof.
  intros Hh Hne Hc Hfs Hfne.
  assert (Hrest : dc_rest d' = dc_rest d).
  { unfold convertChesscomHighlights in Hc.
    destruct (negb (truthy (rest_get "c_highlight" (dc_rest d))) &&
              negb (truthy (rest_get "c_arrow" (dc_rest d)))); injection Hc as <-; reflexivity. }
  unfold rest_get in Hh.
  destruct (List.find (fun e => String.eqb (fst e) "c_highlight") (dc_rest d)) as [e0|] eqn:Ef;
    [|discriminate].
  injection Hh as Hh. destruct (List.find_some _ _ Ef) as [Hin He0].
  apply String.eqb_eq in He0. destruct e0 as [k0 v0]. simpl in Hh, He0. subst k0 v0.
  rewrite <- Hrest in Hin.
  unfold renderCommands. cbv zeta. rewrite Hfs.
  destruct fs as [|f0 fs']; [congruence|]. cbn [negb].
  match goal with |- context [(?x ++ "[%csl " ++ _)%string] => generalize x as p end. intros p.
  match goal with |- context [fold_left ?g ?l ?a] =>
    assert (Hf : exists q r, fold_left g l a = a ++ q ++ ("[%c_highlight " ++ h ++ "]") ++ r);
    [apply (fold_app_elem g ("c_highlight", h));
       [ intros acc e; destruct (truthy (Some (snd e)));
         [eexists; reflexivity | exists ""; symmetry; apply str_app_nil_r]
       | intros acc; cbn [snd fst truthy];
         destruct (String.eqb_spec h "") as [|_]; [congruence | reflexivity]
       | exact Hin ] |] end.
  destruct Hf as (q & r & Hq). rewrite Hq.
  match goal with |- context [(?a ++ q ++ _)%string] =>
    assert (Ha : exists c, a = p ++ "[%csl " ++ join "," (f0 :: fs') ++ "]" ++ c);
    [ destruct (dc_clk d') as [c|]; [destruct (negb skipClocks && truthy (Some c))|]; cbv iota;
        [eexists; rewrite ?str_app_assoc; reflexivity
        | exists ""; rewrite str_app_nil_r, ?str_app_assoc; reflexivity
        | exists ""; rewrite str_app_nil_r, ?str_app_assoc; reflexivity]
    | destruct Ha as [c Ha]; rewrite Ha ] end.
  exists p, (c ++ q), r.
  rewrite !str_app_assoc, str_length_app. cbn [String.length append]. simpl Nat.add.
  destruct (String.length p); cbv iota; reflexivity.
Qed.

Lemma convert_then_render_witness :
  rest_get "c_highlight" (dc_rest (mkDC None None None None [("c_highlight", "e4;keyPressed;shift")]))
    = Some "e4;keyPressed;shift" /\ "e4;keyPressed;shift" <> "" /\
  convertChesscomHighlights (Some (mkDC None None None None [("c_highlight", "e4;keyPressed;shift")]))
    = Some (mkDC (Some []) (Some ["Ge4"]) None None [("c_highlight", "e4;keyPressed;shift")]) /\
  exists p q r,
    renderCommands (mkDC (Some []) (Some ["Ge4"]) None None [("c_highlight", "e4;keyPressed;shift")])
      false false =
    "{ " ++ p ++ "[%csl " ++ join "," ["Ge4"] ++ "]" ++ q ++ "[%c_highlight " ++ "e4;keyPressed;shift"
    ++ "]" ++ r ++ " } ".
Proof.
  assert (Hh : rest_get "c_highlight" (dc_rest (mkDC None None None None
                 [("c_highlight", "e4;keyPressed;shift")])) = Some "e4;keyPressed;shift")
    by reflexivity.
  assert (Hne : "e4;keyPressed;shift" <> "") by discriminate.
  assert (Hc : convertChesscomHighlights (Some (mkDC None None None None
                 [("c_highlight", "e4;keyPressed;shift")]))
               = Some (mkDC (Some []) (Some ["Ge4"]) None None [("c_highlight", "e4;keyPressed;shift")]))
    by (vm_compute; reflexivity).
  assert (Hfs : dc_colorFields (mkDC (Some []) (Some ["Ge4"]) None None
                  [("c_highlight", "e4;keyPressed;shift")]) = Some ["Ge4"]) by reflexivity.
  assert (Hfne : ["Ge4"] <> @nil string) by discriminate.
  split; [exact Hh|]. split; [exact Hne|]. split; [exact Hc|].
  exact (convert_then_render _ _ _ false ["Ge4"] Hh Hne Hc Hfs Hfne).
Defined.

(* ------------------------------------------------------------------ *)
(** ** Chess.move on a closed History *)

Lemma in_heap_true s x : in_heap s x = true <-> is_Some (st_heap s !! x).
Proof. unfold in_heap. apply bool_decide_eq_true. Qed.

Lemma arr_in_heap_true s a : arr_in_heap s a = true ->
  exists l, st_arrs s !! a = Some l /\ forall y, In y l -> is_Some (st_heap s !! y).
Proof.
  unfold arr_in_heap. destruct (st_arrs s !! a) as [l|]; [|discriminate].
  rewrite forallb_forall. intros H. exists l. split; [reflexivity|].
  intros y Hy. apply in_heap_true, H, Hy.
Qed.

Lemma store_ok_parts E s : store_okb E s = true ->
  st_heap s !! st_fresh s = None /\
  (exists l, st_arrs s !! st_moves s = Some l /\ forall y, In y l -> is_Some (st_heap s !! y)) /\
  (forall x mx, st_heap s !! x = Some mx ->
     (forall n, mv_next mx = Some n -> is_Some (st_heap s !! n)) /\
     (exists a, mv_variation mx = Some a /\ is_Some (st_arrs s !! a)) /\
     Forall (fun v => arr_in_heap s v = true) (mv_variations mx) /\
     e_valid E (mv_fen mx) = true).
Proof.
  unfold store_okb. rewrite !andb_true_iff, forallb_forall. intros [[Hf Hm] Hh].
  split; [|split].
  - apply negb_true_iff in Hf. destruct (st_heap s !! st_fresh s) eqn:E0; [|reflexivity].
    exfalso. assert (H : in_heap s (st_fresh s) = true) by (apply in_heap_true; rewrite E0; eauto).
    congruence.
  - apply arr_in_heap_true, Hm.
  - intros x mx Hx. specialize (Hh (x, mx) ltac:(apply list_elem_of_In, elem_of_map_to_list, Hx)).
    simpl in Hh. rewrite !andb_true_iff in Hh. destruct Hh as [[[Hn Hv] Hvs] He].
    split; [|split; [|split]]; auto.
    + intros n Hn'. rewrite Hn' in Hn. apply in_heap_true, Hn.
    + destruct (mv_variation mx) as [a|]; [|discriminate]. exists a. split; [reflexivity|].
      apply bool_decide_eq_true in Hv. exact Hv.
    + apply List.Forall_forall. intros v Hv'. rewrite forallb_forall in Hvs. apply Hvs, Hv'.
Qed.

Lemma nextMove_closed E s p : store_okb E s = true -> opt_in s p ->
  exists nx, nextMove p s = (Ok nx, s) /\ opt_in s nx.
Proof.
  intros Hs Hp. destruct (store_ok_parts E s Hs) as (_ & (l & Hl & Hin) & Hh).
  destruct p as [p|]; simpl in Hp.
  - destruct Hp as [pm Hpm]. exists (mv_next pm). unfold nextMove.
    rewrite (bind_ok _ _ _ _ _ (get_mv_some _ _ _ Hpm)). split; [reflexivity|].
    destruct (mv_next pm) as [n|] eqn:Hn; simpl; [|exact I].
    exact (proj1 (Hh p pm Hpm) n Hn).
  - exists (head l). unfold nextMove, firstMove.
    rewrite (bind_ok _ _ _ _ _ (eq_refl : get s = (Ok s, s))).
    rewrite (bind_ok _ _ _ _ _ (get_arr_some _ _ _ Hl)). split; [reflexivity|].
    destruct l as [|y l]; simpl; [exact I|]. apply Hin. left; reflexivity.
Qed.

Lemma candidateMatches_closed c s nx : opt_in s nx ->
  exists b, candidateMatches c nx s = (Ok b, s) /\ (b = true -> exists n, nx = Some n /\ is_Some (st_heap s !! n)).
Proof.
  destruct nx as [n|]; simpl; intros Hn.
  - destruct Hn as [nm Hnm]. unfold candidateMatches.
    rewrite (bind_ok _ _ _ _ _ (get_mv_some _ _ _ Hnm)). eexists. split; [reflexivity|].
    intros _. exists n. split; [reflexivity|]. rewrite Hnm. eauto.
  - exists false. split; [reflexivity|discriminate].
Qed.

Lemma find_variation_closed c s vs : Forall (fun v => arr_in_heap s v = true) vs ->
  exists r, find_variation c vs s = (Ok r, s) /\ opt_in s r.
Proof.
  induction vs as [|v vs IH]; intros Hvs; [exists None; split; [reflexivity|exact I]|].
  inversion Hvs as [|? ? Hv Hvs']; subst.
  destruct (arr_in_heap_true s v Hv) as (l & Hl & Hin).
  cbn [find_variation]. rewrite (bind_ok _ _ _ _ _ (get_arr_some _ _ _ Hl)).
  destruct l as [|x l]; [apply IH, Hvs'|].
  destruct (candidateMatches_closed c s (Some x) (Hin x (or_introl eq_refl))) as (b & Hb & _).
  rewrite (bind_ok _ _ _ _ _ Hb). destruct b; [|apply IH, Hvs'].
  exists (Some x). split; [reflexivity|]. apply Hin. left; reflexivity.
Qed.

Lemma getVariation_closed E c s p : store_okb E s = true -> opt_in s p ->
  exists r, getVariation c p s = (Ok r, s) /\ opt_in s r.
Proof.
  intros Hs Hp. destruct (nextMove_closed E s p Hs Hp) as (nx & Hnx & Hin).
  unfold getVariation. rewrite (bind_ok _ _ _ _ _ Hnx).
  destruct nx as [n|]; [|exists None; split; [reflexivity|exact I]].
  destruct Hin as [nm Hnm]. rewrite (bind_ok _ _ _ _ _ (get_mv_some _ _ _ Hnm)).
  apply find_variation_closed. apply (proj2 (proj2 (store_ok_parts E s Hs)) n nm Hnm).
Qed.

Lemma seek_some_ok E t n nm : st_heap t !! n = Some nm -> e_valid E (mv_fen nm) = true ->
  exists t', seek E (Some n) t = (Ok (Some n), t').
Proof.
  intros Hn He.
  assert (Hl : (let* mm := get_mv n in chess_load E (mv_fen mm)) t = (Ok (mv_fen nm), t)).
  { rewrite (bind_ok _ _ _ _ _ (get_mv_some _ _ _ Hn)). unfold chess_load. rewrite He. reflexivity. }
  unfold seek. cbv beta iota. rewrite (bind_ok _ _ _ _ _ Hl). eexists. reflexivity.
Qed.

Lemma new_mv_eq m t :
  new_mv m t = (Ok (st_fresh t), with_fresh (with_heap t (<[st_fresh t := m]> (st_heap t))) (S (st_fresh t))).
Proof. reflexivity. Qed.
Lemma new_arr_eq l t :
  new_arr l t = (Ok (st_fresh t), with_fresh (with_arrs t (<[st_fresh t := l]> (st_arrs t))) (S (st_fresh t))).
Proof. reflexivity. Qed.
Lemma push_arr_ok t a (l xs : list nat) : st_arrs t !! a = Some l ->
  push_arr a xs t = (Ok tt, with_arrs t (<[a := (l ++ xs)%list]> (st_arrs t))).
Proof. intros H. unfold push_arr. rewrite (bind_ok _ _ _ _ _ (get_arr_some _ _ _ H)). reflexivity. Qed.

Ltac bstep tac :=
  match goal with
  | |- context [bind ?m ?k ?s] =>
      let H := fresh "Hb" in
      eassert (H : m s = (Ok _, _)); [tac | rewrite (bind_ok m k s _ _ H); clear H; cbv beta iota]
  end.

Lemma addMove_closed E c p d strict s mv : store_okb E s = true -> opt_in s p ->
  validateMove E c p d strict s = (Ok (Some mv), s) ->
  exists id t m, addMove E c p d strict s = (Ok id, t) /\ st_heap t !! id = Some m /\ mv_fen m = mv_fen mv.
Proof.
  intros Hs Hp Hv. destruct (store_ok_parts E s Hs) as (Hf & (l0 & Hl0 & Hin0) & Hh).
  unfold addMove. bstep ltac:(exact Hv). bstep ltac:(apply new_mv_eq).
  destruct p as [p|].
  - destruct Hp as [pm Hpm]. assert (Hne : p <> st_fresh s) by (intros ->; congruence).
    bstep ltac:(apply get_mv_some; simpl; rewrite lookup_insert_ne by congruence; exact Hpm).
    destruct (Hh p pm Hpm) as (Hnx & (a & Ha & [la Hla]) & _ & _).
    destruct (mv_next pm) as [nx|] eqn:Hn.
    + destruct (Hnx nx eq_refl) as [nm Hnm].
      assert (Hne' : nx <> st_fresh s) by (intros ->; congruence).
      bstep ltac:(apply new_arr_eq).
      bstep ltac:(apply upd_mv_ok; simpl; rewrite lookup_insert_ne by congruence; exact Hnm).
      bstep ltac:(apply upd_mv_ok; simpl; rewrite lookup_insert_ne by congruence; apply lookup_insert_eq).
      bstep ltac:(apply push_arr_ok; simpl; apply lookup_insert_eq).
      eexists _, _, _. split; [reflexivity|]. simpl. rewrite lookup_insert_eq. split; reflexivity.
    + bstep ltac:(reflexivity).
      bstep ltac:(apply upd_mv_ok; simpl; rewrite lookup_insert_ne by congruence; apply lookup_insert_eq).
      rewrite Ha. bstep ltac:(apply push_arr_ok; simpl; exact Hla).
      eexists _, _, _. split; [reflexivity|]. simpl. rewrite lookup_insert_eq. split; reflexivity.
  - bstep ltac:(reflexivity). bstep ltac:(apply get_arr_some; simpl; exact Hl0).
    destruct l0 as [|m0 l0].
    + bstep ltac:(apply upd_mv_ok; simpl; apply lookup_insert_eq).
      bstep ltac:(apply push_arr_ok; simpl; exact Hl0).
      eexists _, _, _. split; [reflexivity|]. simpl. rewrite lookup_insert_eq. split; reflexivity.
    + destruct (Hin0 m0 (or_introl eq_refl)) as [nm Hnm].
      assert (Hne' : m0 <> st_fresh s) by (intros ->; congruence).
      bstep ltac:(apply new_arr_eq).
      bstep ltac:(apply upd_mv_ok; simpl; rewrite lookup_insert_ne by congruence; exact Hnm).
      bstep ltac:(apply upd_mv_ok; simpl; rewrite lookup_insert_ne by congruence; apply lookup_insert_eq).
      bstep ltac:(apply push_arr_ok; simpl; apply lookup_insert_eq).
      eexists _, _, _. split; [reflexivity|]. simpl. rewrite lookup_insert_eq. split; reflexivity.
Qed.

(** C6 (amended): [History.addMove] throws whenever [validateMove]
    returns null (an illegal candidate). For a candidate that matches no
    existing continuation of the previous move, [Chess.move] with
    [existingOnly] returns null, publishes nothing and changes nothing;
    without it, for an illegal candidate it returns null after publishing
    one [IllegalMove] event and nothing else. On a History whose object
    graph is closed and whose moves have FENs chess.js loads
    ([store_okb]), with a null or existing previous move, [Chess.move]
    never throws, whatever the candidate and the options; and for a legal
    candidate (one [validateMove] turns into a Move whose FEN chess.js
    loads) it returns a Move when [existingOnly] is false, with or without
    [skipSeek]. *)
Theorem move_illegal_returns_null (E : engine) (c : candidate) (pa : jsarg)
    (strict existingOnly skipSeek : bool) (dnm : option bool) (s : St) :
  (forall p d, fst (validateMove E c p d strict s) = Ok None ->
     addMove E c p d strict s = (Throw "Invalid move", s)) /\
  (forall nx, fst (nextMove (arg_value pa s) s) = Ok nx ->
     fst (candidateMatches c nx s) = Ok false ->
     fst (getVariation c (arg_value pa s) s) = Ok None ->
     (existingOnly = true -> chess_move E c pa strict existingOnly skipSeek dnm s = (Ok None, s)) /\
     (existingOnly = false ->
        fst (validateMove E c (arg_value pa s) (dnm_value dnm s) strict s) = Ok None ->
        chess_move E c pa strict existingOnly skipSeek dnm s =
          (Ok None, with_events s (st_events s ++ [mkEvent IllegalMove None (arg_value pa s)])))) /\
  (store_okb E s = true -> opt_in s (arg_value pa s) ->
     (exists r s', chess_move E c pa strict existingOnly skipSeek dnm s = (Ok r, s')) /\
     (forall mv, fst (validateMove E c (arg_value pa s) (dnm_value dnm s) strict s) = Ok (Some mv) ->
        e_valid E (mv_fen mv) = true -> existingOnly = false ->
        exists id s', chess_move E c pa strict existingOnly skipSeek dnm s = (Ok (Some id), s'))).
Proof.
  split; [|split].
  - intros p d Hv. pose proof (ro_pair _ _ _ (validateMove_ro E c p d strict s) Hv) as Hv'.
    unfold addMove. rewrite (bind_ok _ _ _ _ _ Hv'). reflexivity.
  - intros nx H1 H2 H3. rewrite (chess_move_nomatch E c pa strict existingOnly skipSeek dnm s nx H1 H2 H3).
    split; [intros ->; reflexivity|]. intros -> Hv.
    pose proof (ro_pair _ _ _ (validateMove_ro E c _ _ strict s) Hv) as Hv'.
    assert (Ha : addMove E c (arg_value pa s) (dnm_value dnm s) strict s = (Throw "Invalid move", s))
      by (unfold addMove; rewrite (bind_ok _ _ _ _ _ Hv'); reflexivity).
    unfold try_catch. rewrite (bind_throw _ _ _ _ _ Ha). reflexivity.
  - intros Hs Hp. destruct (store_ok_parts E s Hs) as (_ & _ & Hh).
    destruct (nextMove_closed E s _ Hs Hp) as (nx & Hnx & Hnxi).
    destruct (candidateMatches_closed c s nx Hnxi) as (b & Hb & Hbn).
    destruct (getVariation_closed E c s _ Hs Hp) as (v & Hgv & Hvi).
    assert (Ha : arg_or_current pa s = (Ok (arg_value pa s), s)) by (destruct pa; reflexivity).
    assert (Hd : (match dnm with Some b => ret b | None => let* s := get in ret (st_disableNullMoves s) end) s
                 = (Ok (dnm_value dnm s), s)) by (destruct dnm; reflexivity).
    (* the paths that return an existing move *)
    assert (Hex : forall n, is_Some (st_heap s !! n) ->
              exists s', (if skipSeek then ret (Some n)
                          else let* _ := publishEvent (mkEvent LegalMove (Some n) (arg_value pa s)) in
                               seek E (Some n)) s = (Ok (Some n), s')).
    { intros n [nm Hnm]. destruct skipSeek; [eexists; reflexivity|].
      rewrite (bind_ok _ _ _ _ _ (eq_refl : publishEvent (mkEvent LegalMove (Some n) (arg_value pa s)) s =
                 (Ok tt, with_events s (st_events s ++ [mkEvent LegalMove (Some n) (arg_value pa s)])))).
      apply (seek_some_ok E _ n nm); [exact Hnm | apply (Hh n nm Hnm)]. }
    unfold chess_move. rewrite (bind_ok _ _ _ _ _ Ha), (bind_ok _ _ _ _ _ Hd), (bind_ok _ _ _ _ _ Hnx),
      (bind_ok _ _ _ _ _ Hb).
    destruct b.
    { destruct (Hbn eq_refl) as (n & -> & Hn). destruct (Hex n Hn) as [s' Hs'].
      split; [eauto|]. intros; eauto. }
    rewrite (bind_ok _ _ _ _ _ Hgv).
    destruct v as [n|].
    { destruct (Hex n Hvi) as [s' Hs']. split; [eauto|]. intros; eauto. }
    split.
    + destruct existingOnly; [eauto|]. unfold try_catch.
      destruct (bind _ _ s) as [[r|e] s']; eauto.
    + intros mv Hv He ->. pose proof (ro_pair _ _ _ (validateMove_ro E c _ _ strict s) Hv) as Hv'.
      destruct (addMove_closed E c _ _ strict s mv Hs Hp Hv') as (id & t & m & Ham & Hm & Hf).
      unfold try_catch. rewrite (bind_ok _ _ _ _ _ Ham).
      destruct skipSeek; [eauto|].
      rewrite (bind_ok _ _ _ _ _ (eq_refl : publishEvent (mkEvent NewVariation (Some id) (arg_value pa s)) t =
                 (Ok tt, with_events t (st_events t ++ [mkEvent NewVariation (Some id) (arg_value pa s)])))).
      destruct (seek_some_ok E (with_events t (st_events t ++ [mkEvent NewVariation (Some id) (arg_value pa s)])) id m Hm) as [t' Ht']; [rewrite Hf; exact He|].
      rewrite Ht'. eauto.
Qed.

Lemma move_illegal_returns_null_witness :
  store_okb toy (loaded []) = true /\ opt_in (loaded []) (arg_value (Arg None) (loaded [])) /\
  (exists mv, fst (validateMove toy (CSan "e4") None false false (loaded [])) = Ok (Some mv) /\
              e_valid toy (mv_fen mv) = true) /\
  (exists id s', chess_move toy (CSan "e4") (Arg None) false false false None (loaded []) = (Ok (Some id), s')) /\
  (exists r s', chess_move toy (CSan "a1") (Arg None) false false false None (loaded []) = (Ok r, s')).
Proof.
  assert (Hs : store_okb toy (loaded []) = true) by (vm_compute; reflexivity).
  assert (Hp : opt_in (loaded []) (arg_value (Arg None) (loaded []))) by exact I.
  destruct (fst (validateMove toy (CSan "e4") None false false (loaded []))) as [[mv|]|e] eqn:Hv;
    pose proof Hv as Hv2; vm_compute in Hv2; try discriminate.
  injection Hv2 as <-.
  match type of Hv with _ = Ok (Some ?m) => assert (He : e_valid toy (mv_fen m) = true) by (vm_compute; reflexivity) end.
  split; [exact Hs|]. split; [exact Hp|]. split; [eexists; split; [exact Hv|exact He]|]. split.
  - destruct (move_illegal_returns_null toy (CSan "e4") (Arg None) false false false None (loaded []))
      as (_ & _ & H3).
    exact (proj2 (H3 Hs Hp) _ Hv He eq_refl).
  - destruct (move_illegal_returns_null toy (CSan "a1") (Arg None) false false false None (loaded []))
      as (_ & _ & H3).
    exact (proj1 (H3 Hs Hp)).
Defined.
